(** * Generalized English Auction and VCG pricing: a shallow embedding

    The Python sources [gsp-english.py] (class [GeneralizedEnglishAuction]
    and the driver [run_simulation]) and [projecticd.py] (function
    [simulate_auctions]) are embedded as Rocq functions and their documented
    behaviour is checked against them.

    Modelling conventions.
    - Python [int]s are [Z]; list indices follow Python: a negative index
      counts from the end, an index outside the list raises [IndexError].
    - Python [float]s are read twice.  The main development reads them as
      the exact rationals [Qc], the reals of the documentation: what it
      proves about computed numbers holds in exact arithmetic, and float
      division by zero raises [ZeroDivisionError].  The module [Binary64]
      embeds the two computations of VCG prices on IEEE 754 doubles, the
      arithmetic the program runs; statements about the numbers the
      program returns are made there.
    - A Python call either returns a value or raises; this is the type
      [result].  The [while] loops run on fuel, and running out of fuel is a
      third outcome, [OutOfFuel], shown below never to happen.  Printing is
      left out, except in [display_results], whose model returns what it
      prints.
    - Random sampling is a parameter: the functions that sample take the
      draws as arguments.
    - [np.argsort] is NumPy's: its default kind (quicksort) promises a
      permutation of the indices that sorts its argument and nothing about
      the order of equal keys.  It is the interface [ArgSort]; NumPy's
      scalar quicksort is embedded as one instance of it. *)

From Stdlib Require Import Strings.String.
From Stdlib Require Import Floats.PrimFloat.
From Stdlib Require Import ZArith List Lia Bool QArith Qcanon.
From Stdlib Require Import Sorting.Sorted Sorting.Permutation.
Import ListNotations.

Local Open Scope Z_scope.

(** ** Outcomes of a Python call *)

Inductive error : Type :=
| AssertionError
| IndexError
| ZeroDivisionError
| ValueError.

Inductive result (A : Type) : Type :=
| Ok (a : A)
| Raise (e : error)
| OutOfFuel.

Arguments Ok {A} a.
Arguments Raise {A} e.
Arguments OutOfFuel {A}.

Definition bind {A B : Type} (m : result A) (k : A -> result B) : result B :=
  match m with
  | Ok a => k a
  | Raise e => Raise e
  | OutOfFuel => OutOfFuel
  end.

Declare Scope py_scope.
Delimit Scope py_scope with py.
Notation "x <- m ;; k" := (bind m (fun x => k))
  (at level 100, m at next level, right associativity) : py_scope.
Notation "' p <- m ;; k" := (bind m (fun p => k))
  (at level 100, p pattern, m at next level, right associativity) : py_scope.
Local Open Scope py_scope.

Fixpoint mapM {A B : Type} (f : A -> result B) (l : list A) : result (list B) :=
  match l with
  | [] => Ok []
  | x :: xs => y <- f x ;; ys <- mapM f xs ;; Ok (y :: ys)
  end.

Fixpoint foldM {A B : Type} (f : A -> B -> result A) (l : list B) (a : A)
  : result A :=
  match l with
  | [] => Ok a
  | x :: xs => a' <- f a x ;; foldM f xs a'
  end.

(** ** Python lists *)

Definition len {A : Type} (l : list A) : Z := Z.of_nat (length l).

(** The position a Python index denotes: negative indices count from the
    end. *)
Definition norm_index {A : Type} (l : list A) (i : Z) : Z :=
  if i <? 0 then i + len l else i.

(** [l[i]] *)
Definition getitem {A : Type} (l : list A) (i : Z) : result A :=
  let j := norm_index l i in
  if (0 <=? j) && (j <? len l) then
    match nth_error l (Z.to_nat j) with
    | Some x => Ok x
    | None => Raise IndexError
    end
  else Raise IndexError.

Fixpoint update {A : Type} (l : list A) (n : nat) (v : A) : list A :=
  match l, n with
  | [], _ => []
  | _ :: xs, O => v :: xs
  | x :: xs, S n' => x :: update xs n' v
  end.

(** [l[i] = v] *)
Definition setitem {A : Type} (l : list A) (i : Z) (v : A) : result (list A) :=
  let j := norm_index l i in
  if (0 <=? j) && (j <? len l) then Ok (update l (Z.to_nat j) v)
  else Raise IndexError.

(** [l.remove(x)]: the first occurrence goes, [ValueError] if there is
    none. *)
Fixpoint list_remove (x : Z) (l : list Z) : result (list Z) :=
  match l with
  | [] => Raise ValueError
  | y :: ys => if y =? x then Ok ys
               else ys' <- list_remove x ys ;; Ok (y :: ys')
  end.

(** [range(a, b)] *)
Definition range (a b : Z) : list Z :=
  map (fun k => a + Z.of_nat k) (seq 0 (Z.to_nat (b - a))).

(** [[v] * n] *)
Definition replicate {A : Type} (v : A) (n : Z) : list A :=
  repeat v (Z.to_nat n).

(** [l[-1] if l else 0], the most recent drop-out price. *)
Definition last_or_zero (history : list Qc) : result Qc :=
  match history with
  | [] => Ok 0%Qc
  | _ => getitem history (-1)
  end.

(** ** Float arithmetic *)

Definition Qc_eqb (a b : Qc) : bool :=
  if Qc_eq_dec a b then true else false.

Definition Qc_ltb (a b : Qc) : bool :=
  if Qclt_le_dec a b then true else false.

(** [a / b] on Python floats. *)
Definition truediv (a b : Qc) : result Qc :=
  if Qc_eqb b 0 then Raise ZeroDivisionError else Ok (a / b)%Qc.

(** ** The auction object *)

Record GeneralizedEnglishAuction : Type := {
  n_slots : Z;
  ctrs : list Qc;
  values : list Qc
}.

Definition n_advertisers (self : GeneralizedEnglishAuction) : Z :=
  len (values self).

(** [__init__]: the two assertions, in order. *)
Definition init (n_slots : Z) (ctrs values : list Qc)
  : result GeneralizedEnglishAuction :=
  if len ctrs =? n_slots + 1 then
    c <- getitem ctrs (-1) ;;
    if Qc_eqb c 0 then
      Ok {| n_slots := n_slots; ctrs := ctrs; values := values |}
    else Raise AssertionError
  else Raise AssertionError.

(** The two click-through rates [equilibrium_dropout_price] reads with [i]
    advertisers remaining: [(alpha_i, alpha_i_minus_1)]. *)
Definition dropout_ctrs (self : GeneralizedEnglishAuction) (i : Z)
  : result (Qc * Qc) :=
  let position_index := i - 1 in
  alpha_i <- (if position_index <? len (ctrs self)
              then getitem (ctrs self) position_index
              else getitem (ctrs self) (-2)) ;;
  alpha_i_minus_1 <- (if position_index <? len (ctrs self) - 1
                      then getitem (ctrs self) (position_index - 1)
                      else getitem (ctrs self) (-3)) ;;
  Ok (alpha_i, alpha_i_minus_1).

Definition equilibrium_dropout_price (self : GeneralizedEnglishAuction)
  (i : Z) (history : list Qc) (value : Qc) : result Qc :=
  bi_minus_1 <- last_or_zero history ;;
  '(alpha_i, alpha_i_minus_1) <- dropout_ctrs self i ;;
  ratio <- truediv alpha_i alpha_i_minus_1 ;;
  Ok (value - ratio * (value - bi_minus_1))%Qc.

(** ** The clock: [run_auction] *)

(** The local variables of [run_auction]. *)
Record state : Type := {
  active_advertisers : list Z;
  history : list Qc;
  allocation : list Z;
  prices : list Qc;
  next_slot_to_fill : Z
}.

(** [dropout_prices.sort(key=lambda x: x[1])].  Python's sort is stable and
    the stable ordering of a list is unique; insertion from the right, going
    past strictly smaller keys only, computes it. *)
Fixpoint insert_by_price (x : Z * Qc) (l : list (Z * Qc)) : list (Z * Qc) :=
  match l with
  | [] => [x]
  | y :: ys => if Qc_ltb (snd y) (snd x) then y :: insert_by_price x ys
               else x :: y :: ys
  end.

Definition sort_by_price (l : list (Z * Qc)) : list (Z * Qc) :=
  fold_right insert_by_price [] l.

(** The [for adv in active_advertisers] loop that fills [dropout_prices]. *)
Definition dropout_prices (self : GeneralizedEnglishAuction)
  (active : list Z) (history : list Qc) : result (list (Z * Qc)) :=
  mapM (fun adv =>
          value <- getitem (values self) adv ;;
          price <- equilibrium_dropout_price self (len active) history value ;;
          Ok (adv, price))
       active.

(** [next_dropout, price = dropout_prices[0]] after the sort. *)
Definition lowest_dropout (self : GeneralizedEnglishAuction)
  (active : list Z) (history : list Qc) : result (Z * Qc) :=
  dps <- dropout_prices self active history ;;
  getitem (sort_by_price dps) 0.

(** Body of the first [while]: an excess advertiser leaves with price 0. *)
Definition excess_round (self : GeneralizedEnglishAuction) (st : state)
  : result state :=
  '(next_dropout, price) <-
     lowest_dropout self (active_advertisers st) (history st) ;;
  prices' <- setitem (prices st) next_dropout 0%Qc ;;
  active' <- list_remove next_dropout (active_advertisers st) ;;
  Ok {| active_advertisers := active';
        history := history st ++ [price];
        allocation := allocation st;
        prices := prices';
        next_slot_to_fill := next_slot_to_fill st |}.

(** Body of the second [while]: the leaver takes the next slot from the
    bottom. *)
Definition allocation_round (self : GeneralizedEnglishAuction) (st : state)
  : result state :=
  '(next_dropout, price) <-
     lowest_dropout self (active_advertisers st) (history st) ;;
  allocation' <- setitem (allocation st) (next_slot_to_fill st) next_dropout ;;
  paid <- last_or_zero (history st) ;;
  prices' <- setitem (prices st) next_dropout paid ;;
  active' <- list_remove next_dropout (active_advertisers st) ;;
  Ok {| active_advertisers := active';
        history := history st ++ [price];
        allocation := allocation';
        prices := prices';
        next_slot_to_fill := next_slot_to_fill st - 1 |}.

Definition excess_cond (self : GeneralizedEnglishAuction) (st : state) : bool :=
  len (active_advertisers st) >? n_slots self.

Definition allocation_cond (st : state) : bool :=
  (len (active_advertisers st) >? 1) && (next_slot_to_fill st >=? 0).

(** [while cond: body], on fuel. *)
Fixpoint while (cond : state -> bool) (body : state -> result state)
  (fuel : nat) (st : state) : result state :=
  if cond st then
    match fuel with
    | O => OutOfFuel
    | S fuel' => st' <- body st ;; while cond body fuel' st'
    end
  else Ok st.

(** The closing [if]: the survivor takes slot 0. *)
Definition final_assignment (st : state) : result state :=
  match active_advertisers st with
  | [] => Ok st
  | _ :: _ =>
    if next_slot_to_fill st >=? 0 then
      survivor <- getitem (active_advertisers st) 0 ;;
      allocation' <- setitem (allocation st) 0 survivor ;;
      paid <- last_or_zero (history st) ;;
      prices' <- setitem (prices st) survivor paid ;;
      Ok {| active_advertisers := active_advertisers st;
            history := history st;
            allocation := allocation';
            prices := prices';
            next_slot_to_fill := next_slot_to_fill st |}
    else Ok st
  end.

Definition initial_state (self : GeneralizedEnglishAuction) : state :=
  {| active_advertisers := range 0 (n_advertisers self);
     history := [];
     allocation := replicate (-1) (n_slots self);
     prices := replicate 0%Qc (n_advertisers self);
     next_slot_to_fill := n_slots self - 1 |}.

(** Each round removes one advertiser, so one more than the number of
    advertisers is fuel enough for either loop. *)
Definition rounds_fuel (self : GeneralizedEnglishAuction) : nat :=
  S (length (values self)).

Definition excess_phase (self : GeneralizedEnglishAuction) : result state :=
  while (excess_cond self) (excess_round self) (rounds_fuel self)
        (initial_state self).

Definition allocation_phase (self : GeneralizedEnglishAuction)
  : result state :=
  st <- excess_phase self ;;
  while allocation_cond (allocation_round self) (rounds_fuel self) st.

Definition run_auction (self : GeneralizedEnglishAuction)
  : result (list Z * list Qc * list Qc) :=
  st <- allocation_phase self ;;
  st' <- final_assignment st ;;
  Ok (allocation st', prices st', history st').

(** ** NumPy *)

(** [a[idx]] for an index array [idx], where every index is in range. *)
Definition pick (a : list Qc) (idx : list Z) : list Qc :=
  map (fun i => nth (Z.to_nat i) a 0%Qc) idx.

(** [np.argsort(a)]: some permutation of [range(len(a))] along which [a] is
    in ascending order.  The default kind is not a stable sort, so the order
    of the indices of equal keys is left open. *)
Class ArgSort : Type := {
  argsort : list Qc -> list Z;
  argsort_perm : forall a, Permutation (argsort a) (range 0 (len a));
  argsort_sorted : forall a, Sorted Qcle (pick a (argsort a))
}.

(** [a[idx]], checked. *)
Definition np_take (a : list Qc) (idx : list Z) : result (list Qc) :=
  mapM (getitem a) idx.

(** [l[:n]] *)
Definition slice_to {A : Type} (l : list A) (n : Z) : list A :=
  firstn (Z.to_nat (if n <? 0 then len l + n else n)) l.

Fixpoint remove_nth {A : Type} (l : list A) (n : nat) : list A :=
  match l, n with
  | [], _ => []
  | _ :: xs, O => xs
  | x :: xs, S n' => x :: remove_nth xs n'
  end.

(** [np.delete(a, i)] *)
Definition np_delete (a : list Qc) (i : Z) : result (list Qc) :=
  let j := norm_index a i in
  if (0 <=? j) && (j <? len a) then Ok (remove_nth a (Z.to_nat j))
  else Raise IndexError.

Fixpoint insert_asc (x : Qc) (l : list Qc) : list Qc :=
  match l with
  | [] => [x]
  | y :: ys => if Qc_ltb y x then y :: insert_asc x ys else x :: y :: ys
  end.

(** [np.sort(a)]: the ascending rearrangement of [a], which is unique. *)
Definition np_sort (a : list Qc) : list Qc :=
  fold_right insert_asc [] a.

(** [a * b] on one-dimensional arrays: elementwise, a one-element array is
    broadcast, any other mismatch of lengths is an error. *)
Definition np_mul (a b : list Qc) : result (list Qc) :=
  if len a =? len b then Ok (map (fun p => (fst p * snd p)%Qc) (combine a b))
  else match a, b with
       | [x], _ => Ok (map (fun y => (x * y)%Qc) b)
       | _, [y] => Ok (map (fun x => (x * y)%Qc) a)
       | _, _ => Raise ValueError
       end.

Definition np_sum (a : list Qc) : Qc :=
  fold_right Qcplus 0%Qc a.

(** ** NumPy's quicksort, the default kind of [np.argsort]

    The scalar routine of NumPy's sorting library ([aquicksort] in
    [npysort/quicksort.cpp], with [aheapsort] from [heapsort.cpp]): an
    introsort on the index array [tosort], by median-of-three partitions
    down to stretches of at most 17 entries, which an insertion sort
    finishes, and a heap sort once the depth limit is used up.  [v] holds
    the keys, [less] is NumPy's comparison of two keys.  The C loops run on
    fuel here; the length of the array is fuel enough for each. *)
Section Quicksort.

Context {A : Type}.
Variable less : A -> A -> bool.
Variable d : A.
Variable v : list A.

Definition key_at (tosort : list Z) (p : Z) : A :=
  nth (Z.to_nat (nth (Z.to_nat p) tosort 0)) v d.

Definition intp_swap (tosort : list Z) (p q : Z) : list Z :=
  update (update tosort (Z.to_nat p) (nth (Z.to_nat q) tosort 0))
         (Z.to_nat q) (nth (Z.to_nat p) tosort 0).

(** [if (less(v[tosort[p]], v[tosort[q]]))] swap [tosort[p]] and
    [tosort[q]]. *)
Definition swap_if_less (tosort : list Z) (p q : Z) : list Z :=
  if less (key_at tosort p) (key_at tosort q) then intp_swap tosort p q
  else tosort.

(** [do ++pi; while (less(v[tosort[pi]], vp))] and
    [do --pj; while (less(vp, v[tosort[pj]]))]. *)
Fixpoint scan_up (fuel : nat) (tosort : list Z) (vp : A) (pi : Z) : Z :=
  match fuel with
  | O => pi + 1
  | S fuel' => if less (key_at tosort (pi + 1)) vp
               then scan_up fuel' tosort vp (pi + 1) else pi + 1
  end.

Fixpoint scan_down (fuel : nat) (tosort : list Z) (vp : A) (pj : Z) : Z :=
  match fuel with
  | O => pj - 1
  | S fuel' => if less vp (key_at tosort (pj - 1))
               then scan_down fuel' tosort vp (pj - 1) else pj - 1
  end.

(** The [for (;;)] loop of a partition. *)
Fixpoint partition_loop (fuel : nat) (tosort : list Z) (vp : A) (pi pj : Z)
  : list Z * Z :=
  match fuel with
  | O => (tosort, pi)
  | S fuel' =>
    let pi := scan_up (length tosort) tosort vp pi in
    let pj := scan_down (length tosort) tosort vp pj in
    if pi >=? pj then (tosort, pi)
    else partition_loop fuel' (intp_swap tosort pi pj) vp pi pj
  end.

(** One partition of [tosort[pl .. pr]]: the median of three goes to
    [pr - 1] as the pivot and comes back to its place [pi]. *)
Definition partition (tosort : list Z) (pl pr : Z) : list Z * Z :=
  let pm := pl + Z.shiftr (pr - pl) 1 in
  let tosort := swap_if_less tosort pm pl in
  let tosort := swap_if_less tosort pr pm in
  let tosort := swap_if_less tosort pm pl in
  let vp := key_at tosort pm in
  let pi := pl in
  let pj := pr - 1 in
  let tosort := intp_swap tosort pm pj in
  let '(tosort, pi) := partition_loop (length tosort) tosort vp pi pj in
  let pk := pr - 1 in
  (intp_swap tosort pi pk, pi).

(** The inner [while] of the insertion sort: entries move up while their
    key is above [vp]. *)
Fixpoint shift_up (fuel : nat) (tosort : list Z) (vp : A) (pl pj : Z)
  : list Z * Z :=
  match fuel with
  | O => (tosort, pj)
  | S fuel' =>
    if (pj >? pl) && less vp (key_at tosort (pj - 1)) then
      shift_up fuel' (update tosort (Z.to_nat pj)
                             (nth (Z.to_nat (pj - 1)) tosort 0))
               vp pl (pj - 1)
    else (tosort, pj)
  end.

Definition insertion_sort (tosort : list Z) (pl pr : Z) : list Z :=
  fold_left (fun tosort pi =>
               let vi := nth (Z.to_nat pi) tosort 0 in
               let vp := nth (Z.to_nat vi) v d in
               let '(tosort, pj) :=
                 shift_up (length tosort) tosort vp pl pi in
               update tosort (Z.to_nat pj) vi)
            (range (pl + 1) (pr + 1)) tosort.

(** [aheapsort] on [n] entries from [pl]; its one-based [a[k]] is
    [tosort[pl + k - 1]]. *)
Fixpoint sift_down (fuel : nat) (tosort : list Z) (pl n tmp i j : Z)
  : list Z * Z :=
  match fuel with
  | O => (tosort, i)
  | S fuel' =>
    if j <=? n then
      let j := if (j <? n) && less (key_at tosort (pl + j - 1))
                                   (key_at tosort (pl + j))
               then j + 1 else j in
      if less (nth (Z.to_nat tmp) v d) (key_at tosort (pl + j - 1)) then
        sift_down fuel'
          (update tosort (Z.to_nat (pl + i - 1))
                  (nth (Z.to_nat (pl + j - 1)) tosort 0))
          pl n tmp j (j + j)
      else (tosort, i)
    else (tosort, i)
  end.

Definition heapify (tosort : list Z) (pl n : Z) : list Z :=
  fold_left (fun tosort l =>
               let tmp := nth (Z.to_nat (pl + l - 1)) tosort 0 in
               let '(tosort, i) :=
                 sift_down (length tosort) tosort pl n tmp l (Z.shiftl l 1) in
               update tosort (Z.to_nat (pl + i - 1)) tmp)
            (rev (range 1 (Z.shiftr n 1 + 1))) tosort.

Definition aheapsort (tosort : list Z) (pl n : Z) : list Z :=
  fold_left (fun tosort n =>
               let tmp := nth (Z.to_nat (pl + n - 1)) tosort 0 in
               let tosort := update tosort (Z.to_nat (pl + n - 1))
                                    (nth (Z.to_nat pl) tosort 0) in
               let n := n - 1 in
               let '(tosort, i) :=
                 sift_down (length tosort) tosort pl n tmp 1 2 in
               update tosort (Z.to_nat (pl + i - 1)) tmp)
            (rev (range 2 (n + 1))) (heapify tosort pl n).

(** The outer loop with its stack of stretches still to sort.  [top] says
    that control is at the head of the outer [while (1)], where the depth
    limit is tested. *)
Fixpoint aquicksort_loop (fuel : nat) (tosort : list Z)
  (stack : list (Z * Z * Z)) (pl pr cdepth : Z) (top : bool) : list Z :=
  match fuel with
  | O => tosort
  | S fuel' =>
    if top && (cdepth <? 0) then
      let tosort := aheapsort tosort pl (pr - pl + 1) in
      match stack with
      | [] => tosort
      | (pl, pr, cdepth) :: stack =>
        aquicksort_loop fuel' tosort stack pl pr cdepth true
      end
    else if pr - pl >? 16 then
      let '(tosort, pi) := partition tosort pl pr in
      if pi - pl <? pr - pi then
        aquicksort_loop fuel' tosort ((pi + 1, pr, cdepth - 1) :: stack)
                        pl (pi - 1) (cdepth - 1) false
      else
        aquicksort_loop fuel' tosort ((pl, pi - 1, cdepth - 1) :: stack)
                        (pi + 1) pr (cdepth - 1) false
    else
      let tosort := insertion_sort tosort pl pr in
      match stack with
      | [] => tosort
      | (pl, pr, cdepth) :: stack =>
        aquicksort_loop fuel' tosort stack pl pr cdepth true
      end
  end.

(** [np.argsort(v)] with the default kind: the index array starts as
    [range(len(v))] and the depth limit as twice the position of the
    highest bit of the length. *)
Definition np_argsort_quicksort : list Z :=
  let num := len v in
  aquicksort_loop (2 * length v + 1) (range 0 num) [] 0 (num - 1)
                  (Z.log2 num * 2) true.

End Quicksort.

(** ** The closed-form VCG prices: [calculate_vcg_payments] *)

(** The inner loop over [j] and the conversion to a per-click price, for
    rank [i]. *)
Definition vcg_price (self : GeneralizedEnglishAuction)
  (sorted_indices : list Z) (i : Z) : result Qc :=
  payment <-
    foldM (fun payment j =>
             next_advertiser <- getitem sorted_indices j ;;
             hi <- getitem (ctrs self) (j - 1) ;;
             lo <- getitem (ctrs self) j ;;
             v <- getitem (values self) next_advertiser ;;
             Ok (payment + (hi - lo) * v)%Qc)
          (range (i + 1) (Z.min (n_slots self + 1) (len sorted_indices)))
          0%Qc ;;
  c <- getitem (ctrs self) i ;;
  if Qc_ltb 0 c then
    c' <- getitem (ctrs self) i ;; truediv payment c'
  else Ok 0%Qc.

Definition calculate_vcg_payments `{ArgSort} (self : GeneralizedEnglishAuction)
  : result (list Qc) :=
  let sorted_indices := argsort (map Qcopp (values self)) in
  foldM (fun vcg_prices i =>
           advertiser <- getitem sorted_indices i ;;
           price <- vcg_price self sorted_indices i ;;
           setitem vcg_prices advertiser price)
        (range 0 (Z.min (n_slots self) (len sorted_indices)))
        (replicate 0%Qc (n_advertisers self)).

(** ** The results table: [display_results] *)

(** A printed line of the table: a slot nobody holds, or a slot with its
    advertiser. *)
Inductive table_row : Type :=
| empty_slot (slot : Z) (rate : Qc)
| filled_slot (slot : Z) (rate : Qc) (adv : Z)
              (value price payment utility : Qc).

(** [display_results] prints and returns nothing; the model returns what is
    printed, the rows and the total revenue. *)
Definition display_results (self : GeneralizedEnglishAuction)
  (allocation : list Z) (prices : list Qc) : result (list table_row * Qc) :=
  foldM (fun '(printed, total_revenue) slot =>
           adv <- getitem allocation slot ;;
           if adv <? 0 then
             rate <- getitem (ctrs self) slot ;;
             Ok (printed ++ [empty_slot slot rate], total_revenue)
           else
             rate <- getitem (ctrs self) slot ;;
             value <- getitem (values self) adv ;;
             price <- getitem prices adv ;;
             let payment := (price * rate)%Qc in
             let utility := ((value - price) * rate)%Qc in
             Ok (printed
                 ++ [filled_slot slot rate adv value price payment utility],
                 (total_revenue + payment)%Qc))
        (range 0 (n_slots self)) ([], 0%Qc).

(** ** The driver: [run_simulation] *)

(** The closing comparison table: one line per advertiser, with the auction
    price where the advertiser holds a slot. *)
Definition comparison (self : GeneralizedEnglishAuction)
  (allocation : list Z) (prices vcg_prices : list Qc)
  : result (list (Z * Qc * option Qc * Qc)) :=
  mapM (fun adv =>
          if existsb (Z.eqb adv) allocation then
            value <- getitem (values self) adv ;;
            price <- getitem prices adv ;;
            vcg <- getitem vcg_prices adv ;;
            Ok (adv, value, Some price, vcg)
          else
            value <- getitem (values self) adv ;;
            vcg <- getitem vcg_prices adv ;;
            Ok (adv, value, None, vcg))
       (range 0 (n_advertisers self)).

(** [run_simulation].  [random k] is the [k]-th draw of [random.random()]
    and [gamma k] the [k]-th entry of the sample of [np.random.gamma], which
    rejects a negative size.  [ctrs.sort(reverse=True)] is the ascending
    sort, reversed. *)
Definition run_simulation `{ArgSort} (random gamma : Z -> Qc)
  (n_slots n_advertisers : Z)
  : result (GeneralizedEnglishAuction * list Z * list Qc * list Qc
            * list Qc) :=
  let ctrs := rev (np_sort (map random (range 0 n_slots))) ++ [0%Qc] in
  values <- (if n_advertisers <? 0 then Raise ValueError
             else Ok (map gamma (range 0 n_advertisers))) ;;
  auction <- init n_slots ctrs values ;;
  '(allocation, prices, history) <- run_auction auction ;;
  _ <- display_results auction allocation prices ;;
  vcg_prices <- calculate_vcg_payments auction ;;
  _ <- comparison auction allocation prices vcg_prices ;;
  Ok (auction, allocation, prices, vcg_prices, history).

(** ** The counterfactual VCG payments of [simulate_auctions]

    One trial of [simulate_auctions], from the sampled values [vals] to the
    list [vcg_payments]; [ctrs] is the caller's list.  The sampling and the
    GSP payments of the trial do not enter the VCG payments and are left
    out.  Where a slot rate is 0 NumPy's division yields [inf] or [nan]
    instead of raising; the rationals have no such value and the model
    reports the division as [ZeroDivisionError]. *)
Definition vcg_payments `{ArgSort} (n_slots : Z) (ctrs vals : list Qc)
  : result (list Qc) :=
  let bids := vals in
  let idx_sorted := argsort (map Qcopp bids) in
  sorted_vals <- np_take vals idx_sorted ;;
  let slot_vals := slice_to sorted_vals n_slots in
  let slot_ctrs := slice_to ctrs n_slots in
  mapM (fun i =>
          others <- np_delete sorted_vals i ;;
          let others_sorted := rev (np_sort others) in
          with_i <- np_mul slot_ctrs (slice_to sorted_vals n_slots) ;;
          let value_with_i := np_sum with_i in
          without_i <- np_mul slot_ctrs (slice_to others_sorted n_slots) ;;
          let value_without_i := np_sum without_i in
          c <- getitem slot_ctrs i ;;
          v <- getitem slot_vals i ;;
          c' <- getitem slot_ctrs i ;;
          truediv (value_without_i - (value_with_i - c * v))%Qc c')
       (range 0 n_slots).

(** ** One trial of [simulate_auctions], whole

    The trial from the sampled values to the entries of its result; the
    number of advertisers is the number of values sampled. *)

(** [a - b] on one-dimensional arrays, broadcast like [a * b]. *)
Definition np_sub (a b : list Qc) : result (list Qc) :=
  if len a =? len b then Ok (map (fun p => (fst p - snd p)%Qc) (combine a b))
  else match a, b with
       | [x], _ => Ok (map (fun y => (x - y)%Qc) b)
       | _, [y] => Ok (map (fun x => (x - y)%Qc) a)
       | _, _ => Raise ValueError
       end.

(** The GSP payments: slot [i] pays the next-highest bid, 0 when there is
    none. *)
Definition gsp_payments `{ArgSort} (n_slots : Z) (vals : list Qc)
  : result (list Qc) :=
  let bids := vals in
  let idx_sorted := argsort (map Qcopp bids) in
  sorted_bids <- np_take bids idx_sorted ;;
  mapM (fun i =>
          if i + 1 <? len vals then getitem sorted_bids (i + 1)
          else Ok 0%Qc)
       (range 0 n_slots).

Record trial : Type := {
  slot_assign : list Z;
  trial_gsp_payments : list Qc;
  trial_gsp_revenue : Qc;
  trial_gsp_utilities : list Qc;
  trial_vcg_payments : list Qc;
  trial_vcg_revenue : Qc;
  trial_vcg_utilities : list Qc
}.

Definition simulate_trial `{ArgSort} (n_slots : Z) (ctrs vals : list Qc)
  : result trial :=
  let bids := vals in
  let idx_sorted := argsort (map Qcopp bids) in
  sorted_vals <- np_take vals idx_sorted ;;
  let slot_vals := slice_to sorted_vals n_slots in
  let slot_ctrs := slice_to ctrs n_slots in
  gsp <- gsp_payments n_slots vals ;;
  gsp_weighted <- np_mul slot_ctrs gsp ;;
  gsp_margin <- np_sub slot_vals gsp ;;
  gsp_utilities <- np_mul slot_ctrs gsp_margin ;;
  vcg <- vcg_payments n_slots ctrs vals ;;
  vcg_weighted <- np_mul slot_ctrs vcg ;;
  vcg_margin <- np_sub slot_vals vcg ;;
  vcg_utilities <- np_mul slot_ctrs vcg_margin ;;
  Ok {| slot_assign := slice_to idx_sorted n_slots;
        trial_gsp_payments := gsp;
        trial_gsp_revenue := np_sum gsp_weighted;
        trial_gsp_utilities := gsp_utilities;
        trial_vcg_payments := vcg;
        trial_vcg_revenue := np_sum vcg_weighted;
        trial_vcg_utilities := vcg_utilities |}.

(** ** [simulate_auctions], all trials

    [np.maximum(vals, 0)]. *)
Definition np_maximum (a : list Qc) (c : Qc) : list Qc :=
  map (fun v => if Qc_ltb v c then c else v) a.

(** [np.random.seed(random_seed)] for an integer seed: NumPy accepts the
    seeds from 0 to [2 ** 32 - 1]. *)
Definition np_random_seed (seed : Z) : result unit :=
  if (0 <=? seed) && (seed <? 2 ^ 32) then Ok tt else Raise ValueError.

(** [uniform t] and [normal t] stand for the [t]-th call of
    [np.random.uniform] and of [np.random.normal] with the caller's
    [dist_params] and [n_advertisers]: the array of sampled values, or the
    error NumPy raises for these arguments.  [ctrs] is [None] or the
    caller's list, [random_seed] is [None] or an integer.  A result holds
    the sampled values and the entries of the trial. *)
Definition simulate_auctions `{ArgSort}
  (uniform normal : Z -> result (list Qc)) (n_slots : Z)
  (ctrs : option (list Qc)) (value_dist : string) (n_trials : Z)
  (random_seed : option Z)
  : result (list (list Qc * trial)) :=
  _ <- match random_seed with
       | Some seed => np_random_seed seed
       | None => Ok tt
       end ;;
  let ctrs := match ctrs with
              | None => map (fun i => Qcpower (Q2Qc (1 # 2)) (Z.to_nat i))
                            (range 0 n_slots)
              | Some ctrs => ctrs
              end in
  mapM (fun t =>
          vals <- (if (value_dist =? "uniform")%string then uniform t
                   else if (value_dist =? "normal")%string then
                     vals <- normal t ;; Ok (np_maximum vals 0%Qc)
                   else Raise ValueError) ;;
          r <- simulate_trial n_slots ctrs vals ;;
          Ok (vals, r))
       (range 0 n_trials).

(** ** The arithmetic of the program: doubles

    Above, the arithmetic of the sources is read over the rationals, which
    is how the documentation reads it.  The program computes with IEEE 754
    doubles.  [Binary64] embeds the two computations of VCG prices once
    more, on Rocq's primitive doubles, with every operation in the order
    the source performs it; what is said about computed numbers is said
    about these.  A Python [int] that meets a double becomes that double. *)
Module Binary64.

Record GeneralizedEnglishAuction : Type := {
  n_slots : Z;
  ctrs : list float;
  values : list float
}.

Definition n_advertisers (self : GeneralizedEnglishAuction) : Z :=
  len (values self).

(** NumPy's order on doubles: nan sorts last. *)
Definition less (a b : float) : bool :=
  PrimFloat.ltb a b || (negb (PrimFloat.eqb b b) && PrimFloat.eqb a a).

(** [np.argsort(a)], default kind. *)
Definition np_argsort (a : list float) : list Z :=
  np_argsort_quicksort less 0%float a.

(** Python's [x / y] on floats. *)
Definition truediv (x y : float) : result float :=
  if PrimFloat.eqb y 0%float then Raise ZeroDivisionError
  else Ok (PrimFloat.div x y).

Definition vcg_price (self : GeneralizedEnglishAuction)
  (sorted_indices : list Z) (i : Z) : result float :=
  payment <-
    foldM (fun payment j =>
             next_advertiser <- getitem sorted_indices j ;;
             hi <- getitem (ctrs self) (j - 1) ;;
             lo <- getitem (ctrs self) j ;;
             v <- getitem (values self) next_advertiser ;;
             Ok (PrimFloat.add payment (PrimFloat.mul (PrimFloat.sub hi lo) v)))
          (range (i + 1) (Z.min (n_slots self + 1) (len sorted_indices)))
          0%float ;;
  c <- getitem (ctrs self) i ;;
  if PrimFloat.ltb 0%float c then
    c' <- getitem (ctrs self) i ;; truediv payment c'
  else Ok 0%float.

Definition calculate_vcg_payments (self : GeneralizedEnglishAuction)
  : result (list float) :=
  let sorted_indices := np_argsort (map PrimFloat.opp (values self)) in
  foldM (fun vcg_prices i =>
           advertiser <- getitem sorted_indices i ;;
           price <- vcg_price self sorted_indices i ;;
           setitem vcg_prices advertiser price)
        (range 0 (Z.min (n_slots self) (len sorted_indices)))
        (replicate 0%float (n_advertisers self)).

Definition np_take (a : list float) (idx : list Z) : result (list float) :=
  mapM (getitem a) idx.

Definition np_delete (a : list float) (i : Z) : result (list float) :=
  let j := norm_index a i in
  if (0 <=? j) && (j <? len a) then Ok (remove_nth a (Z.to_nat j))
  else Raise IndexError.

Fixpoint insert_asc (x : float) (l : list float) : list float :=
  match l with
  | [] => [x]
  | y :: ys => if less y x then y :: insert_asc x ys else x :: y :: ys
  end.

(** [np.sort(a)]: the ascending rearrangement of [a]. *)
Definition np_sort (a : list float) : list float :=
  fold_right insert_asc [] a.

Definition np_mul (a b : list float) : result (list float) :=
  if len a =? len b
  then Ok (map (fun p => PrimFloat.mul (fst p) (snd p)) (combine a b))
  else match a, b with
       | [x], _ => Ok (map (fun y => PrimFloat.mul x y) b)
       | _, [y] => Ok (map (fun x => PrimFloat.mul x y) a)
       | _, _ => Raise ValueError
       end.

(** [np.sum(a)] is NumPy's pairwise summation.  Fewer than eight entries
    are added from left to right; up to 128 are added into eight running
    sums, block by block, the sums are added in pairs and a rest of fewer
    than eight entries is added on; a longer array is cut in two at a
    multiple of eight near the middle. *)
Fixpoint add_blocks (fuel : nat) (r a : list float)
  : list float * list float :=
  match fuel with
  | O => (r, a)
  | S fuel' =>
    if 8 <=? len a
    then add_blocks fuel'
           (map (fun p => PrimFloat.add (fst p) (snd p))
                (combine r (firstn 8 a)))
           (skipn 8 a)
    else (r, a)
  end.

Definition pairwise_block (a : list float) : float :=
  let '(r, rest) := add_blocks (length a) (firstn 8 a) (skipn 8 a) in
  let r := fun k => nth k r 0%float in
  fold_left PrimFloat.add rest
    (PrimFloat.add
       (PrimFloat.add (PrimFloat.add (r 0%nat) (r 1%nat))
                      (PrimFloat.add (r 2%nat) (r 3%nat)))
       (PrimFloat.add (PrimFloat.add (r 4%nat) (r 5%nat))
                      (PrimFloat.add (r 6%nat) (r 7%nat)))).

Fixpoint pairwise_sum (fuel : nat) (a : list float) : float :=
  match fuel with
  | O => 0%float
  | S fuel' =>
    let n := len a in
    if n <? 8 then fold_left PrimFloat.add a 0%float
    else if n <=? 128 then pairwise_block a
    else
      let n2 := Z.to_nat (n / 2 - (n / 2) mod 8) in
      PrimFloat.add (pairwise_sum fuel' (firstn n2 a))
                    (pairwise_sum fuel' (skipn n2 a))
  end.

Definition np_sum (a : list float) : float :=
  PrimFloat.add 0%float (pairwise_sum (S (length a)) a).

(** The VCG loop of [simulate_auctions].  The slot values are NumPy
    doubles, whose division by zero yields [inf] or [nan] and raises
    nothing. *)
Definition vcg_payments (n_slots : Z) (ctrs vals : list float)
  : result (list float) :=
  let bids := vals in
  let idx_sorted := np_argsort (map PrimFloat.opp bids) in
  sorted_vals <- np_take vals idx_sorted ;;
  let slot_vals := slice_to sorted_vals n_slots in
  let slot_ctrs := slice_to ctrs n_slots in
  mapM (fun i =>
          others <- np_delete sorted_vals i ;;
          let others_sorted := rev (np_sort others) in
          with_i <- np_mul slot_ctrs (slice_to sorted_vals n_slots) ;;
          let value_with_i := np_sum with_i in
          without_i <- np_mul slot_ctrs (slice_to others_sorted n_slots) ;;
          let value_without_i := np_sum without_i in
          c <- getitem slot_ctrs i ;;
          v <- getitem slot_vals i ;;
          c' <- getitem slot_ctrs i ;;
          Ok (PrimFloat.div
                (PrimFloat.sub value_without_i
                               (PrimFloat.sub value_with_i
                                              (PrimFloat.mul c v)))
                c'))
       (range 0 n_slots).

End Binary64.

(** ** The documented input domain *)

(** [ctrs[k]], for [k] in range. *)
Definition ctr (self : GeneralizedEnglishAuction) (k : Z) : Qc :=
  nth (Z.to_nat k) (ctrs self) 0%Qc.

(** A valid [AuctionInstance]: at least one slot, one click-through rate per
    slot and a closing 0, rates non-negative and weakly descending, no two
    adjacent slots with rate 0, and a positive value. *)
Record valid_instance (self : GeneralizedEnglishAuction) : Prop := {
  valid_n_slots : 1 <= n_slots self;
  valid_len : len (ctrs self) = n_slots self + 1;
  valid_nonneg : Forall (fun c => 0 <= c)%Qc (ctrs self);
  valid_descending :
    forall k, 0 <= k < n_slots self -> (ctr self (k + 1) <= ctr self k)%Qc;
  valid_last : ctr self (n_slots self) = 0%Qc;
  valid_no_adjacent_zeros :
    forall k, 0 <= k -> k + 1 < n_slots self ->
              ~ (ctr self k = 0%Qc /\ ctr self (k + 1) = 0%Qc);
  valid_values : Exists (fun v => 0 < v)%Qc (values self)
}.

(** The drop-out price of the documentation, [s - (a_i / a_prev) (s - b)]. *)
Definition price_formula (a_i a_prev b s : Qc) : Qc :=
  (s - (a_i / a_prev) * (s - b))%Qc.

(** ** Vocabulary of the statements *)

(** The drop-out price a round computes for advertiser [adv]. *)
Definition round_price (self : GeneralizedEnglishAuction) (st : state)
  (adv : Z) : result Qc :=
  value <- getitem (values self) adv ;;
  equilibrium_dropout_price self (len (active_advertisers st)) (history st)
                            value.

(** The sum of [f j] for [j] in [range(a, b)]. *)
Definition sum_range (f : Z -> Qc) (a b : Z) : Qc :=
  np_sum (map f (range a b)).

(** [values[a]] and [rank[i]], for indices in range. *)
Definition value_of (self : GeneralizedEnglishAuction) (a : Z) : Qc :=
  nth (Z.to_nat a) (values self) 0%Qc.

Definition rank_at (rank : list Z) (i : Z) : Z :=
  nth (Z.to_nat i) rank 0.

(** The documented payment of rank [i]: the sum over the ranks [j] from
    [i + 1] to [n_slots], as far as there are advertisers, of
    [(ctr[j-1] - ctr[j]) * value[rank j]]. *)
Definition externality (self : GeneralizedEnglishAuction) (rank : list Z)
  (i : Z) : Qc :=
  sum_range (fun j => (ctr self (j - 1) - ctr self j)
                      * value_of self (rank_at rank j))%Qc
            (i + 1) (Z.min (n_slots self) (len rank - 1) + 1).

(** ... divided by [ctr[i]], or 0 when that is not positive. *)
Definition closed_form_price (self : GeneralizedEnglishAuction)
  (rank : list Z) (i : Z) : Qc :=
  if Qc_ltb 0 (ctr self i) then (externality self rank i / ctr self i)%Qc
  else 0%Qc.

(** The two orders lists are sorted by: values from high to low, and
    [(advertiser, price)] pairs by price. *)
Definition descending (x y : Qc) : Prop := (y <= x)%Qc.

Definition by_price (x y : Z * Qc) : Prop := (snd x <= snd y)%Qc.

(** The GSP payment of slot [i]: the value at the next rank, 0 when there is
    no next rank. *)
Definition next_bid (vals sv : list Qc) (i : Z) : Qc :=
  if i + 1 <? len vals then nth (Z.to_nat (i + 1)) sv 0%Qc else 0%Qc.

(** The payment [simulate_auctions] computes for slot [i], from the slot
    rates [cs] and the values by rank [sv]. *)
Definition counterfactual_payment (n : Z) (cs sv : list Qc) (i : Z) : Qc :=
  ((sum_range (fun k => nth (Z.to_nat k) cs 0
                        * (if k <? i then nth (Z.to_nat k) sv 0
                           else nth (Z.to_nat (k + 1)) sv 0)) 0 n
    - (sum_range (fun k => nth (Z.to_nat k) cs 0 * nth (Z.to_nat k) sv 0) 0 n
       - nth (Z.to_nat i) cs 0 * nth (Z.to_nat i) sv 0))
   / nth (Z.to_nat i) cs 0)%Qc.

(** ** Loops and their invariants *)

(** [reaches cond body s s']: the loop, started in [s], is in [s'] at the
    head of some later iteration (or at its exit). *)
Inductive reaches (cond : state -> bool) (body : state -> result state)
  : state -> state -> Prop :=
| reaches_here (s : state) : reaches cond body s s
| reaches_round (s s' s'' : state) :
    cond s = true -> body s = Ok s' -> reaches cond body s' s'' ->
    reaches cond body s s''.

#[local] Hint Constructors reaches : core.

(** The active advertisers are distinct ids of the instance and every
    advertiser has a price cell. *)
Record round_inv (self : GeneralizedEnglishAuction) (st : state)
  : Prop := {
  inv_nodup : NoDup (active_advertisers st);
  inv_range :
    forall a, In a (active_advertisers st) -> 0 <= a < n_advertisers self;
  inv_prices : len (prices st) = n_advertisers self
}.

(** Once an advertiser has left, later rounds leave its price alone. *)
Definition settled (self : GeneralizedEnglishAuction) (a : Z) (v : Qc)
  (st : state) : Prop :=
  round_inv self st /\ ~ In a (active_advertisers st)
  /\ getitem (prices st) a = Ok v.

(** The excess-elimination phase leaves the allocation alone. *)
Record excess_inv (self : GeneralizedEnglishAuction) (st : state)
  : Prop := {
  ex_round : round_inv self st;
  ex_allocation : allocation st = replicate (-1) (n_slots self);
  ex_next_slot : next_slot_to_fill st = n_slots self - 1;
  ex_active :
    n_slots self <= len (active_advertisers st)
    \/ len (active_advertisers st) = n_advertisers self;
  ex_history :
    len (history st) + len (active_advertisers st) = n_advertisers self
}.

(** The allocation phase.  [m] is the number of advertisers that enter the
    phase.  Slots are filled from index [n_slots - 1] downwards; the slots
    still free are those up to [next_slot_to_fill]. *)
Record allocation_inv (self : GeneralizedEnglishAuction) (m : Z)
  (st : state) : Prop := {
  al_round : round_inv self st;
  al_len : len (allocation st) = n_slots self;
  al_m : m <= n_slots self;
  al_next :
    next_slot_to_fill st
    = n_slots self - 1 - (m - len (active_advertisers st));
  al_active : 1 <= len (active_advertisers st) <= m;
  al_entries :
    forall k, nth k (allocation st) (-1) = -1
              \/ (0 <= nth k (allocation st) (-1) < n_advertisers self
                  /\ ~ In (nth k (allocation st) (-1)) (active_advertisers st));
  al_distinct :
    forall j k, j <> k ->
                nth j (allocation st) (-1) = nth k (allocation st) (-1) ->
                nth j (allocation st) (-1) = -1;
  al_free :
    forall k, 0 <= k <= next_slot_to_fill st ->
              nth (Z.to_nat k) (allocation st) (-1) = -1;
  al_taken :
    forall k, next_slot_to_fill st < k < n_slots self ->
              nth (Z.to_nat k) (allocation st) (-1) <> -1;
  al_history :
    len (history st) + len (active_advertisers st) = n_advertisers self
}.

(** The price [calculate_vcg_payments] gives to the advertiser at rank
    [j]. *)
Definition vcg_price_of_rank (self : GeneralizedEnglishAuction)
  (rank : list Z) (j : Z) : Qc :=
  if j <? n_slots self then closed_form_price self rank j else 0%Qc.

(** Slot rates that fall strictly from slot to slot, down to the closing
    0. *)
Definition strictly_descending_rates (self : GeneralizedEnglishAuction)
  : Prop :=
  forall k, 0 <= k < n_slots self -> (ctr self (k + 1) < ctr self k)%Qc.

(** The clock against the ranking by value.  With [k] advertisers active,
    they are the [k] highest ranks, and every lower rank has its final
    price. *)
Record ranked_inv (self : GeneralizedEnglishAuction) (rank : list Z)
  (st : state) : Prop := {
  rk_round : round_inv self st;
  rk_active :
    Permutation (active_advertisers st)
                (firstn (length (active_advertisers st)) rank);
  rk_prices :
    forall j, len (active_advertisers st) <= j < n_advertisers self ->
              getitem (prices st) (rank_at rank j)
              = Ok (vcg_price_of_rank self rank j)
}.

(** In the excess phase nothing is paid yet; the price recorded when the
    number of active advertisers reaches the number of slots is the value
    of the first rank without a slot. *)
Record excess_ranked_inv (self : GeneralizedEnglishAuction) (rank : list Z)
  (st : state) : Prop := {
  xr_excess : excess_inv self st;
  xr_ranked : ranked_inv self rank st;
  xr_fresh :
    len (active_advertisers st) = n_advertisers self -> history st = [];
  xr_last :
    len (active_advertisers st) < n_advertisers self ->
    len (active_advertisers st) = n_slots self ->
    last (history st) 0%Qc = value_of self (rank_at rank (n_slots self))
}.

(** In the allocation phase the last recorded price is the VCG price of the
    lowest active rank, and with as many advertisers as slots or more each
    filled slot holds the advertiser of its rank. *)
Record allocation_ranked_inv (self : GeneralizedEnglishAuction)
  (rank : list Z) (m : Z) (st : state) : Prop := {
  ar_allocation : allocation_inv self m st;
  ar_ranked : ranked_inv self rank st;
  ar_last :
    last (history st) 0%Qc
    = closed_form_price self rank (len (active_advertisers st) - 1);
  ar_slots :
    m = n_slots self ->
    forall j, len (active_advertisers st) <= j < n_slots self ->
              nth (Z.to_nat j) (allocation st) (-1) = rank_at rank j
}.

(** An advertiser who has left without a slot has price 0. *)
Definition without_slot_unpaid (self : GeneralizedEnglishAuction)
  (st : state) : Prop :=
  forall b, 0 <= b < n_advertisers self ->
            ~ In b (active_advertisers st) -> ~ In b (allocation st) ->
            getitem (prices st) b = Ok 0%Qc.

(** The line [display_results] prints for [slot], and what the line adds
    to the total revenue. *)
Definition table_row_of (self : GeneralizedEnglishAuction)
  (allocation : list Z) (prices : list Qc) (slot : Z) : table_row :=
  let adv := nth (Z.to_nat slot) allocation (-1) in
  let price := nth (Z.to_nat adv) prices 0%Qc in
  if adv <? 0 then empty_slot slot (ctr self slot)
  else filled_slot slot (ctr self slot) adv (value_of self adv) price
                   (price * ctr self slot)%Qc
                   ((value_of self adv - price) * ctr self slot)%Qc.

Definition payment_of (self : GeneralizedEnglishAuction)
  (allocation : list Z) (prices : list Qc) (slot : Z) : Qc :=
  let adv := nth (Z.to_nat slot) allocation (-1) in
  if adv <? 0 then 0%Qc
  else (nth (Z.to_nat adv) prices 0%Qc * ctr self slot)%Qc.

(** A line on which nobody pays more than their value: the price is between
    0 and the value, so payment and utility are not negative. *)
Definition individually_rational (r : table_row) : Prop :=
  match r with
  | empty_slot _ _ => True
  | filled_slot _ _ _ value price payment utility =>
    (0 <= price <= value)%Qc /\ (0 <= payment)%Qc /\ (0 <= utility)%Qc
  end.

(** ** Sorts with the contract of [np.argsort] *)

(** Each index of [a] paired with its key. *)
Definition enumerate (a : list Qc) : list (Z * Qc) :=
  combine (range 0 (len a)) a.

(** Ties in index order: the sort is stable. *)
Definition argsort_stable (a : list Qc) : list Z :=
  map fst (sort_by_price (enumerate a)).




(** ** Instances *)

Definition half : Qc := Q2Qc (1 # 2).
Definition quarter : Qc := Q2Qc (1 # 4).

(** One slot, two advertisers. *)
Definition single_slot : GeneralizedEnglishAuction :=
  {| n_slots := 1; ctrs := [1; 0]%Qc; values := [1; Q2Qc 2]%Qc |}.

(** Two slots, four advertisers. *)
Definition two_slots : GeneralizedEnglishAuction :=
  {| n_slots := 2; ctrs := [1%Qc; half; 0%Qc];
     values := [1%Qc; Q2Qc 2; Q2Qc 3; Q2Qc 4] |}.

(** Three slots, two advertisers. *)
Definition three_slots : GeneralizedEnglishAuction :=
  {| n_slots := 3; ctrs := [1%Qc; half; quarter; 0%Qc];
     values := [1%Qc; Q2Qc 2] |}.


(** The documented numeric scenario: [n_slots=2], [ctrs=[1.0, 0.6, 0]],
    [values=[10, 6, 2]]. *)
Definition known_scenario : GeneralizedEnglishAuction :=
  {| n_slots := 2; ctrs := [1%Qc; Q2Qc (6 # 10); 0%Qc];
     values := [Q2Qc 10; Q2Qc 6; Q2Qc 2] |}.

(** Five advertisers and three slots. *)
Definition three_slot_rates : list Qc :=
  [Q2Qc (4 # 5); Q2Qc (1 # 2); Q2Qc (3 # 10)].

Definition five_values : list Qc :=
  [Q2Qc 3; Q2Qc 9; Q2Qc 4; Q2Qc 7; 1%Qc].

(** Nobody bids; a single advertiser; rates that are all 0. *)
Definition no_advertisers : GeneralizedEnglishAuction :=
  {| n_slots := 1; ctrs := [1; 0]%Qc; values := [] |}.

Definition lone_advertiser : GeneralizedEnglishAuction :=
  {| n_slots := 2; ctrs := [1%Qc; half; 0%Qc]; values := [Q2Qc 3] |}.

Definition zero_rates : GeneralizedEnglishAuction :=
  {| n_slots := 2; ctrs := [0; 0; 0]%Qc; values := [1%Qc; Q2Qc 2] |}.

(** Samples for the simulations: two and three values, two draws of
    [random.random()] and three entries of a gamma sample. *)
Definition two_values : list Qc := [1%Qc; Q2Qc 2].

Definition three_values : list Qc := [Q2Qc 3; Q2Qc 9; Q2Qc 4].

Definition two_draws (k : Z) : Qc := nth (Z.to_nat k) [quarter; half] 0%Qc.

Definition three_gamma_values (k : Z) : Qc :=
  nth (Z.to_nat k) three_values 0%Qc.

(** A sampler that returns [five_values] at every call. *)
Definition five_samples (t : Z) : result (list Qc) := Ok five_values.

(** In doubles: the documented scenario, five advertisers on three slots,
    and values of very different size. *)
#[local] Set Warnings "-inexact-float".

Definition known_scenario_doubles : Binary64.GeneralizedEnglishAuction :=
  {| Binary64.n_slots := 2;
     Binary64.ctrs := [1; 0.6; 0]%float;
     Binary64.values := [10; 6; 2]%float |}.

Definition three_slot_rates_doubles : list float := [0.8; 0.5; 0.3]%float.

Definition five_values_doubles : list float := [3; 9; 4; 7; 1]%float.

Definition wide_values_doubles : list float := [1e16; 3; 2; 1; 0.5]%float.

Definition closed_form_instance (vals : list float)
  : Binary64.GeneralizedEnglishAuction :=
  {| Binary64.n_slots := 3;
     Binary64.ctrs := three_slot_rates_doubles ++ [0%float];
     Binary64.values := vals |}.

(** Rates that go up. *)
Definition non_descending_ctrs : list Qc := [Q2Qc (1 # 2); 1%Qc; 0%Qc].

(** * Properties *)

(** ** Python lists *)

Lemma len_nonneg {A : Type} (l : list A) : 0 <= len l.
Proof. unfold len; lia. Qed.

Lemma len_app {A : Type} (l1 l2 : list A) : len (l1 ++ l2) = len l1 + len l2.
Proof. unfold len; rewrite length_app; lia. Qed.

Lemma len_cons {A : Type} (x : A) (l : list A) : len (x :: l) = len l + 1.
Proof. unfold len; simpl; lia. Qed.

Lemma getitem_nonneg {A : Type} (l : list A) (i : Z) (d : A) :
  0 <= i < len l -> getitem l i = Ok (nth (Z.to_nat i) l d).
Proof.
  intros Hi. unfold getitem, norm_index.
  destruct (Z.ltb_spec i 0); [lia|].
  destruct (Z.leb_spec 0 i); [|lia].
  destruct (Z.ltb_spec i (len l)); [|lia]. simpl.
  destruct (nth_error l (Z.to_nat i)) eqn:E.
  - now rewrite (nth_error_nth _ _ d E).
  - apply nth_error_None in E. unfold len in *. lia.
Qed.

Lemma getitem_neg {A : Type} (l : list A) (i : Z) (d : A) :
  - len l <= i < 0 -> getitem l i = Ok (nth (Z.to_nat (len l + i)) l d).
Proof.
  intros Hi. unfold getitem, norm_index.
  destruct (Z.ltb_spec i 0); [|lia].
  destruct (Z.leb_spec 0 (i + len l)); [|lia].
  destruct (Z.ltb_spec (i + len l) (len l)); [|lia]. simpl.
  replace (len l + i) with (i + len l) by lia.
  destruct (nth_error l (Z.to_nat (i + len l))) eqn:E.
  - now rewrite (nth_error_nth _ _ d E).
  - apply nth_error_None in E. unfold len in *. lia.
Qed.

Lemma getitem_out {A : Type} (l : list A) (i : Z) :
  i < - len l \/ len l <= i -> getitem l i = Raise IndexError.
Proof.
  intros Hi. unfold getitem, norm_index.
  pose proof (len_nonneg l).
  destruct (Z.ltb_spec i 0).
  - destruct (Z.leb_spec 0 (i + len l)); [lia|reflexivity].
  - destruct (Z.ltb_spec i (len l)); [lia|].
    now rewrite andb_false_r.
Qed.

Lemma getitem_Ok_nonneg {A : Type} (l : list A) (i : Z) (x d : A) :
  0 <= i -> getitem l i = Ok x -> i < len l /\ x = nth (Z.to_nat i) l d.
Proof.
  intros Hi H. destruct (Z.lt_ge_cases i (len l)) as [Hlt|Hge].
  - rewrite (getitem_nonneg l i d) in H by lia. now inversion H.
  - rewrite getitem_out in H by lia. discriminate.
Qed.

Lemma getitem_last (l : list Qc) (d : Qc) :
  l <> [] -> getitem l (-1) = Ok (last l d).
Proof.
  intros Hl. destruct (exists_last Hl) as (l' & x & ->).
  rewrite (getitem_neg _ _ d) by (rewrite len_app; unfold len; simpl; lia).
  rewrite last_last. f_equal.
  replace (Z.to_nat (len (l' ++ [x]) + -1)) with (length l')
    by (rewrite len_app; unfold len; simpl; lia).
  now rewrite nth_middle.
Qed.

Lemma last_or_zero_last (h : list Qc) : last_or_zero h = Ok (last h 0%Qc).
Proof.
  destruct h as [|x h]; [reflexivity|].
  unfold last_or_zero. now apply getitem_last.
Qed.

Lemma Qc_eqb_true_iff (a b : Qc) : Qc_eqb a b = true <-> a = b.
Proof. unfold Qc_eqb. destruct (Qc_eq_dec a b); split; congruence. Qed.

Lemma Qc_ltb_true_iff (a b : Qc) : Qc_ltb a b = true <-> (a < b)%Qc.
Proof.
  unfold Qc_ltb. destruct (Qclt_le_dec a b) as [H|H]; split; try congruence.
  intros H'. exfalso. exact (Qcle_not_lt _ _ H H').
Qed.

Lemma Qc_ltb_false_iff (a b : Qc) : Qc_ltb a b = false <-> (b <= a)%Qc.
Proof.
  unfold Qc_ltb. destruct (Qclt_le_dec a b) as [H|H]; split; try congruence.
  intros H'. exfalso. exact (Qcle_not_lt _ _ H' H).
Qed.

Lemma truediv_nonzero (a b : Qc) : b <> 0%Qc -> truediv a b = Ok (a / b)%Qc.
Proof.
  intros Hb. unfold truediv. destruct (Qc_eqb b 0) eqn:E; [|reflexivity].
  apply Qc_eqb_true_iff in E. contradiction.
Qed.

(** Comparison of two [Qc] numerals, by evaluation. *)
Ltac qc_order :=
  match goal with
  | |- (_ < _)%Qc => apply Qclt_alt; vm_compute; reflexivity
  | |- (_ <= _)%Qc => apply Qcle_alt; vm_compute; discriminate
  | |- @eq Qc _ _ => apply Qc_is_canon; vm_compute; reflexivity
  | |- not (@eq Qc _ _) =>
      let H := fresh in intros H; apply (f_equal this) in H; vm_compute in H;
      discriminate H
  | |- @eq Qc _ _ -> False =>
      let H := fresh in intros H; apply (f_equal this) in H; vm_compute in H;
      discriminate H
  end.

(** Equality of lists of numerals, entry by entry. *)
Ltac qc_list :=
  repeat match goal with
         | |- @eq (list Qc) [] [] => reflexivity
         | |- @eq (list Qc) (_ :: _) (_ :: _) => f_equal
         | |- @eq Qc _ _ => apply Qc_is_canon; vm_compute; reflexivity
         end.

(** ** The drop-out price *)

Lemma dropout_ctrs_in_range (self : GeneralizedEnglishAuction) (i : Z) :
  len (ctrs self) = n_slots self + 1 -> 2 <= i <= n_slots self ->
  dropout_ctrs self i = Ok (ctr self (i - 1), ctr self (i - 2)).
Proof.
  intros Hlen Hi. unfold dropout_ctrs, ctr.
  destruct (Z.ltb_spec (i - 1) (len (ctrs self))); [|lia].
  destruct (Z.ltb_spec (i - 1) (len (ctrs self) - 1)); [|lia].
  rewrite (getitem_nonneg _ (i - 1) 0%Qc) by lia.
  rewrite (getitem_nonneg _ (i - 1 - 1) 0%Qc) by lia.
  simpl. now replace (i - 1 - 1) with (i - 2) by lia.
Qed.

(** C1.  With [i >= 2] advertisers active and the candidate slot index
    [i - 1] inside the slot range ([i <= n_slots]), a call of
    [equilibrium_dropout_price] with history [h] and value [s] returns
    [s - (alpha_i / alpha_prev) * (s - b)], where [b] is the last element of
    [h] (0 for the empty history), [alpha_i = ctrs[i-1]] and
    [alpha_prev = ctrs[i-2]]; the only call that returns nothing is the one
    that divides by [alpha_prev = 0]. *)
Theorem equilibrium_dropout_price_formula
  (self : GeneralizedEnglishAuction) (i : Z) (h : list Qc) (s : Qc) :
  len (ctrs self) = n_slots self + 1 ->
  2 <= i <= n_slots self ->
  equilibrium_dropout_price self i h s =
    if Qc_eqb (ctr self (i - 2)) 0 then Raise ZeroDivisionError
    else Ok (price_formula (ctr self (i - 1)) (ctr self (i - 2))
                           (last h 0%Qc) s).
Proof.
  intros Hlen Hi. unfold equilibrium_dropout_price.
  rewrite last_or_zero_last, dropout_ctrs_in_range by assumption.
  simpl. unfold truediv.
  now destruct (Qc_eqb (ctr self (i - 2)) 0).
Qed.

(** ** Construction *)

(** C8, refuted as stated.  Click-through rates that go up, [0.5, 1, 0], and
    an empty list of values are both accepted by the constructor. *)
Lemma init_accepts_unordered_ctrs_and_no_values :
  init 2 non_descending_ctrs [] =
    Ok {| n_slots := 2; ctrs := non_descending_ctrs; values := [] |}
  /\ (ctr {| n_slots := 2; ctrs := non_descending_ctrs; values := [] |} 0
      < ctr {| n_slots := 2; ctrs := non_descending_ctrs; values := [] |} 1)%Qc.
Proof. split; [reflexivity | qc_order]. Qed.

(** C8, amended.  The constructor checks two things and only those: the
    length of [ctrs] is [n_slots + 1] and its last element is 0.  When both
    hold the object is built, whatever the order of the rates and the number
    of values; otherwise construction raises ([AssertionError], or
    [IndexError] on the empty [ctrs]) and no object exists to run. *)
Theorem init_checks_length_and_last (n : Z) (cs vs : list Qc) :
  (init n cs vs = Ok {| n_slots := n; ctrs := cs; values := vs |}
   /\ len cs = n + 1 /\ last cs 1%Qc = 0%Qc)
  \/
  ((init n cs vs = Raise AssertionError \/ init n cs vs = Raise IndexError)
   /\ (len cs <> n + 1 \/ last cs 1%Qc <> 0%Qc)).
Proof.
  unfold init. destruct (Z.eqb_spec (len cs) (n + 1)) as [Hlen|Hlen].
  - destruct cs as [|c cs].
    + right. split; [now right | right; qc_order].
    + rewrite (getitem_last (c :: cs) 1%Qc) by discriminate. cbn [bind].
      destruct (Qc_eqb (last (c :: cs) 1%Qc) 0) eqn:E.
      * apply Qc_eqb_true_iff in E. left. repeat split; assumption.
      * right. split; [now left | right]. intros H.
        apply Qc_eqb_true_iff in H. congruence.
  - right. split; [now left | now left].
Qed.

(** ** The stable sort and its head *)

Lemma sort_by_price_head (x : Z * Qc) (l : list (Z * Qc)) :
  exists l1 y l2 rest,
    x :: l = l1 ++ y :: l2
    /\ sort_by_price (x :: l) = y :: rest
    /\ Forall (fun z => snd y < snd z)%Qc l1
    /\ Forall (fun z => snd y <= snd z)%Qc l2.
Proof.
  revert x. induction l as [|x' l IH]; intros x.
  - exists [], x, [], []. repeat split; constructor.
  - destruct (IH x') as (l1 & y & l2 & rest & Hsplit & Hsort & H1 & H2).
    change (sort_by_price (x :: x' :: l))
      with (insert_by_price x (sort_by_price (x' :: l))).
    rewrite Hsort. simpl. destruct (Qc_ltb (snd y) (snd x)) eqn:E.
    + apply Qc_ltb_true_iff in E.
      exists (x :: l1), y, l2, (insert_by_price x rest).
      rewrite Hsplit. repeat split; auto.
    + apply Qc_ltb_false_iff in E.
      exists [], x, (x' :: l), (y :: rest).
      repeat split; auto. rewrite Hsplit.
      apply Forall_app. split.
      * eapply Forall_impl; [|exact H1]. simpl. intros z Hz.
        apply Qclt_le_weak. eapply Qcle_lt_trans; eauto.
      * constructor; [exact E|].
        eapply Forall_impl; [|exact H2]. simpl. intros z Hz.
        eapply Qcle_trans; eauto.
Qed.

Lemma mapM_Ok_inv {A B : Type} (f : A -> result B) (l : list A) (r : list B) :
  mapM f l = Ok r -> Forall2 (fun x y => f x = Ok y) l r.
Proof.
  revert r. induction l as [|x l IH]; simpl; intros r H.
  - inversion H. constructor.
  - destruct (f x) eqn:Ef; simpl in H; try discriminate.
    destruct (mapM f l) eqn:El; simpl in H; try discriminate.
    inversion H; subst. constructor; auto.
Qed.

Lemma mapM_Ok_intro {A B : Type} (f : A -> result B) (g : A -> B) (l : list A) :
  (forall x, In x l -> f x = Ok (g x)) -> mapM f l = Ok (map g l).
Proof.
  induction l as [|x l IH]; simpl; intros H; [reflexivity|].
  rewrite (H x) by now left. simpl. rewrite IH by auto. reflexivity.
Qed.

Lemma Forall2_In_l {A B : Type} (R : A -> B -> Prop) (l : list A)
  (r : list B) (x : A) :
  Forall2 R l r -> In x l -> exists y, In y r /\ R x y.
Proof.
  induction 1 as [|a b l r Hab _ IH]; simpl; [tauto|].
  intros [->|Hin].
  - exists b. auto.
  - destruct (IH Hin) as (y & Hy & HR). exists y. auto.
Qed.

Lemma list_remove_split (x : Z) (l1 l2 : list Z) :
  ~ In x l1 -> list_remove x (l1 ++ x :: l2) = Ok (l1 ++ l2).
Proof.
  induction l1 as [|y l1 IH]; simpl; intros Hn.
  - now rewrite Z.eqb_refl.
  - destruct (Z.eqb_spec y x) as [->|Hne]; [tauto|].
    rewrite IH by tauto. reflexivity.
Qed.

(** ** Selection of the advertiser who leaves *)

Lemma lowest_dropout_first_minimum
  (self : GeneralizedEnglishAuction) (st : state) (a : Z) (p : Qc) :
  lowest_dropout self (active_advertisers st) (history st) = Ok (a, p) ->
  exists l1 l2,
    active_advertisers st = l1 ++ a :: l2
    /\ round_price self st a = Ok p
    /\ (forall b, In b l1 -> exists q, round_price self st b = Ok q /\ (p < q)%Qc)
    /\ (forall b, In b l2 -> exists q, round_price self st b = Ok q /\ (p <= q)%Qc).
Proof.
  unfold lowest_dropout, dropout_prices. intros H.
  match type of H with (bind (mapM ?f _) _ = _) => set (body := f) in * end.
  destruct (mapM body (active_advertisers st)) as [dps| |] eqn:Hdps;
    simpl in H; try discriminate.
  apply mapM_Ok_inv in Hdps.
  assert (Hbody : forall b y, body b = Ok y ->
                    round_price self st b = Ok (snd y) /\ fst y = b).
  { intros b y Hb. unfold body, round_price in *.
    destruct (getitem (values self) b); simpl in *; try discriminate.
    destruct (equilibrium_dropout_price _ _ _ _); simpl in *; try discriminate.
    inversion Hb; subst. now split. }
  destruct dps as [|x dps]; [discriminate H|].
  destruct (sort_by_price_head x dps)
    as (d1 & y & d2 & rest & Hsplit & Hsort & Hlt & Hle).
  rewrite Hsort in H. inversion H; subst y; clear H.
  rewrite Hsplit in Hdps.
  apply Forall2_app_inv_r in Hdps as (l1 & l2' & H1 & H2 & Hact).
  inversion H2 as [|a' y' l2 d2' Ha H2' E1 E2]; subst.
  destruct (Hbody _ _ Ha) as [Hp Hfst]. simpl in Hp, Hfst. subst a'.
  exists l1, l2. repeat split; auto.
  - intros b Hb.
    destruct (Forall2_In_l _ _ _ _ H1 Hb) as (y & Hy & Hby).
    destruct (Hbody _ _ Hby) as [Hq _]. exists (snd y). split; auto.
    rewrite Forall_forall in Hlt. exact (Hlt _ Hy).
  - intros b Hb.
    destruct (Forall2_In_l _ _ _ _ H2' Hb) as (y & Hy & Hby).
    destruct (Hbody _ _ Hby) as [Hq _]. exists (snd y). split; auto.
    rewrite Forall_forall in Hle. exact (Hle _ Hy).
Qed.

(** What one round, of either phase, does to the active set and to the
    history. *)
Lemma round_removes_lowest
  (self : GeneralizedEnglishAuction) (st st' : state) :
  excess_round self st = Ok st' \/ allocation_round self st = Ok st' ->
  exists a p,
    lowest_dropout self (active_advertisers st) (history st) = Ok (a, p)
    /\ list_remove a (active_advertisers st) = Ok (active_advertisers st')
    /\ history st' = history st ++ [p].
Proof.
  intros [H|H]; [unfold excess_round in H | unfold allocation_round in H];
    destruct (lowest_dropout self (active_advertisers st) (history st))
      as [[a p]| |]; simpl in H; try discriminate;
    exists a, p.
  - destruct (setitem (prices st) a 0%Qc); simpl in H; try discriminate.
    destruct (list_remove a (active_advertisers st)); simpl in H;
      try discriminate.
    inversion H; subst; auto.
  - destruct (setitem (allocation st) _ a); simpl in H; try discriminate.
    destruct (last_or_zero (history st)); simpl in H; try discriminate.
    destruct (setitem (prices st) a _); simpl in H; try discriminate.
    destruct (list_remove a (active_advertisers st)); simpl in H;
      try discriminate.
    inversion H; subst; auto.
Qed.

(** C6.  In a round of either phase the advertiser removed from the active
    set has the minimum of the drop-out prices computed in that round for
    the active advertisers, and is the first such advertiser in the active
    set: every advertiser before it has a strictly higher price, every one
    after it a price at least as high. *)
Theorem removed_advertiser_has_first_minimum_price
  (self : GeneralizedEnglishAuction) (st st' : state) :
  excess_round self st = Ok st' \/ allocation_round self st = Ok st' ->
  exists a p before after,
    active_advertisers st = before ++ a :: after
    /\ active_advertisers st' = before ++ after
    /\ round_price self st a = Ok p
    /\ (forall b, In b (active_advertisers st) ->
          exists q, round_price self st b = Ok q /\ (p <= q)%Qc)
    /\ (forall b, In b before ->
          exists q, round_price self st b = Ok q /\ (p < q)%Qc).
Proof.
  intros H.
  destruct (round_removes_lowest self st st' H) as (a & p & Hlow & Hrem & _).
  destruct (lowest_dropout_first_minimum self st a p Hlow)
    as (l1 & l2 & Hact & Hp & Hbefore & Hafter).
  assert (Hnotin : ~ In a l1).
  { intros Hin. destruct (Hbefore a Hin) as (q & Hq & Hlt).
    rewrite Hp in Hq. inversion Hq; subst q.
    exact (Qclt_not_eq _ _ Hlt eq_refl). }
  exists a, p, l1, l2. repeat split; auto.
  - rewrite Hact, list_remove_split in Hrem by assumption. now inversion Hrem.
  - intros b Hb. rewrite Hact in Hb. apply in_app_or in Hb as [Hb|[Hb|Hb]].
    + destruct (Hbefore b Hb) as (q & Hq & Hlt). exists q. split; auto.
      now apply Qclt_le_weak.
    + subst b. exists p. split; auto. apply Qcle_refl.
    + exact (Hafter b Hb).
Qed.

(** ** More on Python lists *)

Lemma length_update {A : Type} (l : list A) (n : nat) (v : A) :
  length (update l n v) = length l.
Proof.
  revert n. induction l as [|x l IH]; intros [|n]; simpl; auto.
Qed.

Lemma nth_update_eq {A : Type} (l : list A) (n : nat) (v d : A) :
  (n < length l)%nat -> nth n (update l n v) d = v.
Proof.
  revert n. induction l as [|x l IH]; intros [|n]; simpl; intros H;
    try lia; auto. apply IH. lia.
Qed.

Lemma nth_update_neq {A : Type} (l : list A) (n m : nat) (v d : A) :
  n <> m -> nth m (update l n v) d = nth m l d.
Proof.
  revert n m. induction l as [|x l IH]; intros [|n] [|m]; simpl; intros H;
    try congruence; auto.
Qed.

Lemma len_update {A : Type} (l : list A) (n : nat) (v : A) :
  len (update l n v) = len l.
Proof. unfold len. now rewrite length_update. Qed.

Lemma setitem_Ok_inv {A : Type} (l l' : list A) (i : Z) (v : A) :
  setitem l i v = Ok l' ->
  0 <= norm_index l i < len l /\ l' = update l (Z.to_nat (norm_index l i)) v.
Proof.
  unfold setitem.
  destruct (Z.leb_spec 0 (norm_index l i)) as [Hlo|Hlo];
    destruct (Z.ltb_spec (norm_index l i) (len l)) as [Hhi|Hhi]; simpl;
    intros E; try discriminate.
  inversion E. split; [lia | reflexivity].
Qed.

Lemma setitem_nonneg {A : Type} (l : list A) (i : Z) (v : A) :
  0 <= i < len l -> setitem l i v = Ok (update l (Z.to_nat i) v).
Proof.
  intros Hi. unfold setitem, norm_index.
  destruct (Z.ltb_spec i 0); [lia|].
  destruct (Z.leb_spec 0 i); [|lia].
  destruct (Z.ltb_spec i (len l)); [|lia]. reflexivity.
Qed.

Lemma setitem_len {A : Type} (l l' : list A) (i : Z) (v : A) :
  setitem l i v = Ok l' -> len l' = len l.
Proof.
  intros H. apply setitem_Ok_inv in H as [_ ->]. apply len_update.
Qed.

Lemma norm_index_nonneg {A : Type} (l : list A) (i : Z) :
  0 <= i -> norm_index l i = i.
Proof. intros H. unfold norm_index. destruct (Z.ltb_spec i 0); lia. Qed.

Lemma getitem_setitem_same {A : Type} (l l' : list A) (i : Z) (v : A) :
  0 <= i -> setitem l i v = Ok l' -> getitem l' i = Ok v.
Proof.
  intros Hi H. apply setitem_Ok_inv in H as [Hr ->].
  rewrite norm_index_nonneg in * by assumption.
  rewrite (getitem_nonneg _ _ v) by (rewrite len_update; lia).
  rewrite nth_update_eq; [reflexivity|]. unfold len in Hr. lia.
Qed.

Lemma getitem_setitem_other {A : Type} (l l' : list A) (i j : Z) (v : A) :
  0 <= i -> 0 <= j -> i <> j -> setitem l i v = Ok l' ->
  getitem l' j = getitem l j.
Proof.
  intros Hi Hj Hne H. apply setitem_Ok_inv in H as [Hr ->].
  rewrite norm_index_nonneg in * by assumption.
  unfold getitem. rewrite len_update, !norm_index_nonneg by assumption.
  destruct ((0 <=? j) && (j <? len l)); [|reflexivity].
  assert (E : nth_error (update l (Z.to_nat i) v) (Z.to_nat j)
              = nth_error l (Z.to_nat j)).
  { assert (Hn : Z.to_nat i <> Z.to_nat j) by lia.
    revert Hn. generalize (Z.to_nat i) (Z.to_nat j). clear.
    induction l as [|x l IH]; intros [|n] [|m]; simpl; intros H;
      try congruence; auto. }
  now rewrite E.
Qed.

Lemma length_range (a b : Z) : length (range a b) = Z.to_nat (b - a).
Proof. unfold range. now rewrite length_map, length_seq. Qed.

Lemma len_range (a b : Z) : a <= b -> len (range a b) = b - a.
Proof. intros H. unfold len. rewrite length_range. lia. Qed.

Lemma in_range (a b x : Z) : In x (range a b) <-> a <= x < b.
Proof.
  unfold range. rewrite in_map_iff. split.
  - intros (k & <- & Hk). apply in_seq in Hk. lia.
  - intros H. exists (Z.to_nat (x - a)). split; [lia|].
    apply in_seq. lia.
Qed.

Lemma NoDup_range (a b : Z) : NoDup (range a b).
Proof.
  unfold range. apply Finite.Injective_map_NoDup.
  - intros x y H. lia.
  - apply seq_NoDup.
Qed.

Lemma nth_range (a b : Z) (k : nat) (d : Z) :
  (k < Z.to_nat (b - a))%nat -> nth k (range a b) d = a + Z.of_nat k.
Proof.
  intros H. unfold range.
  rewrite (nth_indep _ d (a + Z.of_nat 0))
    by (rewrite length_map, length_seq; lia).
  rewrite (map_nth (fun k => a + Z.of_nat k)), seq_nth by lia.
  reflexivity.
Qed.

Lemma range_cons (a b : Z) : a < b -> range a b = a :: range (a + 1) b.
Proof.
  intros H. unfold range.
  replace (Z.to_nat (b - a)) with (S (Z.to_nat (b - (a + 1)))) by lia.
  simpl. f_equal; [lia|].
  rewrite <- seq_shift, map_map. apply map_ext. intros k. lia.
Qed.

Lemma range_empty (a b : Z) : b <= a -> range a b = [].
Proof.
  intros H. unfold range. now replace (Z.to_nat (b - a)) with O by lia.
Qed.

Lemma len_replicate {A : Type} (v : A) (n : Z) :
  0 <= n -> len (replicate v n) = n.
Proof. intros H. unfold len, replicate. rewrite repeat_length. lia. Qed.

Lemma nth_replicate {A : Type} (v d : A) (n : Z) (k : nat) :
  (k < Z.to_nat n)%nat -> nth k (replicate v n) d = v.
Proof.
  intros H. unfold replicate. apply nth_repeat_lt. exact H.
Qed.

Lemma list_remove_Ok_inv (x : Z) (l l' : list Z) :
  list_remove x l = Ok l' ->
  exists l1 l2, l = l1 ++ x :: l2 /\ l' = l1 ++ l2.
Proof.
  revert l'. induction l as [|y l IH]; simpl; intros l' H; [discriminate|].
  destruct (Z.eqb_spec y x) as [->|Hne].
  - inversion H; subst. now exists [], l'.
  - destruct (list_remove x l) as [l0| |]; simpl in H; try discriminate.
    inversion H; subst. destruct (IH l0 eq_refl) as (l1 & l2 & -> & ->).
    now exists (y :: l1), l2.
Qed.

Lemma list_remove_in (x : Z) (l : list Z) :
  In x l -> exists l', list_remove x l = Ok l'.
Proof.
  induction l as [|y l IH]; simpl; [tauto|]. intros H.
  destruct (Z.eqb_spec y x) as [->|Hne]; [eauto|].
  destruct IH as (l' & ->); [tauto|]. simpl. eauto.
Qed.

(** ** Loops *)

Lemma while_Ok_reaches cond body (fuel : nat) (st st' : state) :
  while cond body fuel st = Ok st' ->
  reaches cond body st st' /\ cond st' = false.
Proof.
  revert st. induction fuel as [|fuel IH]; intros st; simpl;
    destruct (cond st) eqn:Hc; intros H; try discriminate.
  - inversion H; subst. auto.
  - destruct (body st) as [s1| |] eqn:Hb; simpl in H; try discriminate.
    destruct (IH _ H). eauto.
  - inversion H; subst. auto.
Qed.

Lemma reaches_invariant cond body (P : state -> Prop) (st st' : state) :
  (forall s s', P s -> cond s = true -> body s = Ok s' -> P s') ->
  reaches cond body st st' -> P st -> P st'.
Proof. intros Hstep. induction 1; eauto. Qed.

Lemma reaches_trans cond body (s1 s2 s3 : state) :
  reaches cond body s1 s2 -> reaches cond body s2 s3 ->
  reaches cond body s1 s3.
Proof. induction 1; eauto. Qed.

(** The loop is deterministic: every state it passes through leads to its
    exit state. *)
Lemma reaches_exit cond body (st s st' : state) :
  reaches cond body st s -> reaches cond body st st' -> cond st' = false ->
  reaches cond body s st'.
Proof.
  induction 1 as [|s0 s1 s2 Hc Hb _ IH]; intros Hexit Hf; [assumption|].
  inversion Hexit; subst; [congruence|].
  apply IH; [|assumption]. congruence.
Qed.

Lemma while_returns cond body (P : state -> Prop) :
  (forall s, P s -> cond s = true ->
     exists s', body s = Ok s' /\ P s' /\
                (length (active_advertisers s')
                 < length (active_advertisers s))%nat) ->
  forall (fuel : nat) (st : state),
    P st -> (length (active_advertisers st) < fuel)%nat ->
    exists st', while cond body fuel st = Ok st'.
Proof.
  intros Hstep. induction fuel as [|fuel IH]; intros st HP Hfuel; [lia|].
  simpl. destruct (cond st) eqn:Hc; [|eauto].
  destruct (Hstep st HP Hc) as (s' & -> & HP' & Hlt). simpl.
  apply IH; [assumption | lia].
Qed.

Lemma while_never_out_of_fuel cond body :
  (forall s s', body s = Ok s' ->
     (length (active_advertisers s') < length (active_advertisers s))%nat) ->
  (forall s, body s <> OutOfFuel) ->
  forall (fuel : nat) (st : state),
    (length (active_advertisers st) < fuel)%nat ->
    while cond body fuel st <> OutOfFuel.
Proof.
  intros Hdec Hbody. induction fuel as [|fuel IH]; intros st Hfuel; [lia|].
  simpl. destruct (cond st); [|discriminate].
  destruct (body st) as [s'| |] eqn:Hb; simpl; try discriminate.
  - apply IH. specialize (Hdec _ _ Hb). lia.
  - now apply Hbody in Hb.
Qed.

(** ** One round, step by step *)

Lemma lowest_dropout_split
  (self : GeneralizedEnglishAuction) (st : state) (a : Z) (p : Qc) :
  lowest_dropout self (active_advertisers st) (history st) = Ok (a, p) ->
  exists l1 l2,
    active_advertisers st = l1 ++ a :: l2 /\ ~ In a l1
    /\ list_remove a (active_advertisers st) = Ok (l1 ++ l2).
Proof.
  intros Hlow.
  destruct (lowest_dropout_first_minimum self st a p Hlow)
    as (l1 & l2 & Hact & Hp & Hbefore & _).
  assert (Hnotin : ~ In a l1).
  { intros Hin. destruct (Hbefore a Hin) as (q & Hq & Hlt).
    rewrite Hp in Hq. inversion Hq; subst q.
    exact (Qclt_not_eq _ _ Hlt eq_refl). }
  exists l1, l2. repeat split; auto.
  rewrite Hact. now apply list_remove_split.
Qed.

Lemma excess_round_Ok_inv
  (self : GeneralizedEnglishAuction) (st st' : state) :
  excess_round self st = Ok st' ->
  exists a p l1 l2,
    lowest_dropout self (active_advertisers st) (history st) = Ok (a, p)
    /\ active_advertisers st = l1 ++ a :: l2 /\ ~ In a l1
    /\ active_advertisers st' = l1 ++ l2
    /\ history st' = history st ++ [p]
    /\ allocation st' = allocation st
    /\ next_slot_to_fill st' = next_slot_to_fill st
    /\ setitem (prices st) a 0%Qc = Ok (prices st').
Proof.
  unfold excess_round. intros H.
  destruct (lowest_dropout self (active_advertisers st) (history st))
    as [[a p]| |] eqn:Hlow; simpl in H; try discriminate.
  destruct (lowest_dropout_split self st a p Hlow) as (l1 & l2 & Hact & Hn & Hrem).
  rewrite Hrem in H.
  destruct (setitem (prices st) a 0%Qc) eqn:Hset; simpl in H; try discriminate.
  inversion H; subst; simpl. exists a, p, l1, l2. repeat split; auto.
Qed.

Lemma allocation_round_Ok_inv
  (self : GeneralizedEnglishAuction) (st st' : state) :
  allocation_round self st = Ok st' ->
  exists a p l1 l2,
    lowest_dropout self (active_advertisers st) (history st) = Ok (a, p)
    /\ active_advertisers st = l1 ++ a :: l2 /\ ~ In a l1
    /\ active_advertisers st' = l1 ++ l2
    /\ history st' = history st ++ [p]
    /\ setitem (allocation st) (next_slot_to_fill st) a = Ok (allocation st')
    /\ next_slot_to_fill st' = next_slot_to_fill st - 1
    /\ setitem (prices st) a (last (history st) 0%Qc) = Ok (prices st').
Proof.
  unfold allocation_round. intros H.
  destruct (lowest_dropout self (active_advertisers st) (history st))
    as [[a p]| |] eqn:Hlow; simpl in H; try discriminate.
  destruct (lowest_dropout_split self st a p Hlow) as (l1 & l2 & Hact & Hn & Hrem).
  rewrite Hrem, last_or_zero_last in H.
  destruct (setitem (allocation st) _ a) eqn:Hal; simpl in H; try discriminate.
  destruct (setitem (prices st) a _) eqn:Hset; simpl in H; try discriminate.
  inversion H; subst; simpl. exists a, p, l1, l2. repeat split; auto.
Qed.

Lemma lowest_dropout_succeeds
  (self : GeneralizedEnglishAuction) (st : state) (a_i a_prev : Qc) :
  active_advertisers st <> [] ->
  (forall a, In a (active_advertisers st) -> 0 <= a < n_advertisers self) ->
  dropout_ctrs self (len (active_advertisers st)) = Ok (a_i, a_prev) ->
  a_prev <> 0%Qc ->
  exists a p,
    lowest_dropout self (active_advertisers st) (history st) = Ok (a, p).
Proof.
  intros Hne Hrange Hctrs Hprev. unfold lowest_dropout, dropout_prices.
  erewrite mapM_Ok_intro with
    (g := fun adv =>
            (adv, price_formula a_i a_prev (last (history st) 0%Qc)
                                (nth (Z.to_nat adv) (values self) 0%Qc))).
  - simpl. destruct (active_advertisers st) as [|x l]; [congruence|].
    simpl map.
    match goal with |- context [sort_by_price (?y :: ?r)] =>
      destruct (sort_by_price_head y r) as (_ & [a p] & _ & rest & _ & -> & _)
    end.
    exists a, p. reflexivity.
  - intros adv Hadv. specialize (Hrange adv Hadv).
    rewrite (getitem_nonneg _ _ 0%Qc) by (unfold n_advertisers in Hrange; lia).
    simpl. unfold equilibrium_dropout_price.
    rewrite last_or_zero_last, Hctrs. simpl.
    now rewrite truediv_nonzero.
Qed.

(** ** Invariants of the clock *)

Section Clock.

Variable self : GeneralizedEnglishAuction.

Lemma round_inv_initial : round_inv self (initial_state self).
Proof.
  split; simpl.
  - apply NoDup_range.
  - intros a Ha. now apply in_range in Ha.
  - apply len_replicate, len_nonneg.
Qed.

Lemma round_inv_shrink (st st' : state) (a : Z) (l1 l2 : list Z) (v : Qc) :
  round_inv self st ->
  active_advertisers st = l1 ++ a :: l2 ->
  active_advertisers st' = l1 ++ l2 ->
  setitem (prices st) a v = Ok (prices st') ->
  round_inv self st' /\ ~ In a (active_advertisers st') /\ 0 <= a
  /\ getitem (prices st') a = Ok v.
Proof.
  intros [Hnd Hr Hp] Hact Hact' Hset. rewrite Hact in Hnd, Hr.
  assert (Ha : 0 <= a < n_advertisers self)
    by (apply Hr, in_or_app; right; now left).
  split; [split|repeat split].
  - rewrite Hact'. eapply NoDup_remove_1; eauto.
  - rewrite Hact'. intros b Hb. apply Hr.
    apply in_app_or in Hb as [Hb|Hb]; apply in_or_app; simpl; auto.
  - now rewrite (setitem_len _ _ _ _ Hset).
  - rewrite Hact'. eapply NoDup_remove_2; eauto.
  - lia.
  - eapply getitem_setitem_same; [lia | eassumption].
Qed.

Lemma round_inv_excess (st st' : state) :
  round_inv self st -> excess_cond self st = true ->
  excess_round self st = Ok st' -> round_inv self st'.
Proof.
  intros Hinv _ H.
  destruct (excess_round_Ok_inv self st st' H)
    as (a & p & l1 & l2 & _ & Hact & _ & Hact' & _ & _ & _ & Hset).
  eapply round_inv_shrink; eauto.
Qed.

Lemma round_inv_allocation (st st' : state) :
  round_inv self st -> allocation_cond st = true ->
  allocation_round self st = Ok st' -> round_inv self st'.
Proof.
  intros Hinv _ H.
  destruct (allocation_round_Ok_inv self st st' H)
    as (a & p & l1 & l2 & _ & Hact & _ & Hact' & _ & _ & _ & Hset).
  eapply round_inv_shrink; eauto.
Qed.

Lemma settled_allocation (a : Z) (v : Qc) (st st' : state) :
  0 <= a -> settled self a v st -> allocation_cond st = true ->
  allocation_round self st = Ok st' -> settled self a v st'.
Proof.
  intros Ha (Hinv & Hout & Hv) Hc H.
  pose proof (round_inv_allocation st st' Hinv Hc H) as Hinv'.
  destruct (allocation_round_Ok_inv self st st' H)
    as (b & p & l1 & l2 & _ & Hact & _ & Hact' & _ & _ & _ & Hset).
  assert (Hb : In b (active_advertisers st))
    by (rewrite Hact; apply in_or_app; right; now left).
  split; [exact Hinv'|split].
  - rewrite Hact'. rewrite Hact in Hout. intros Hin. apply Hout.
    apply in_app_or in Hin as [Hin|Hin]; apply in_or_app; simpl; auto.
  - rewrite <- Hv. eapply getitem_setitem_other; [| |
      |eassumption]; try lia.
    + apply (inv_range self _ Hinv) in Hb. lia.
    + intros ->. contradiction.
Qed.

Lemma final_assignment_Ok_inv (st st' : state) :
  final_assignment st = Ok st' ->
  (st' = st
   /\ (active_advertisers st = [] \/ next_slot_to_fill st < 0))
  \/ (exists a rest,
        active_advertisers st = a :: rest
        /\ 0 <= next_slot_to_fill st
        /\ setitem (allocation st) 0 a = Ok (allocation st')
        /\ setitem (prices st) a (last (history st) 0%Qc) = Ok (prices st')
        /\ history st' = history st).
Proof.
  unfold final_assignment. destruct (active_advertisers st) as [|a rest] eqn:E.
  - intros H. inversion H. auto.
  - rewrite Z.geb_leb. destruct (Z.leb_spec 0 (next_slot_to_fill st)) as [Hs|Hs].
    + change (getitem (a :: rest) 0) with (Ok a). simpl bind.
      rewrite last_or_zero_last. intros H.
      destruct (setitem (allocation st) 0 a) eqn:Hal; simpl in H;
        try discriminate.
      destruct (setitem (prices st) a _) eqn:Hpr; simpl in H;
        try discriminate.
      inversion H; subst; simpl. right. exists a, rest.
      repeat split; auto.
    + intros H. inversion H; subst. left. split; [reflexivity | right; lia].
Qed.

Lemma run_auction_Ok_inv (alloc : list Z) (pr hist : list Qc) :
  run_auction self = Ok (alloc, pr, hist) ->
  exists st1 st2 st3,
    excess_phase self = Ok st1
    /\ reaches (excess_cond self) (excess_round self) (initial_state self) st1
    /\ excess_cond self st1 = false
    /\ allocation_phase self = Ok st2
    /\ reaches allocation_cond (allocation_round self) st1 st2
    /\ allocation_cond st2 = false
    /\ final_assignment st2 = Ok st3
    /\ alloc = allocation st3 /\ pr = prices st3 /\ hist = history st3.
Proof.
  unfold run_auction, allocation_phase. intros H.
  destruct (excess_phase self) as [st1| |] eqn:H1; cbn [bind] in H;
    try discriminate.
  destruct (while allocation_cond _ _ st1) as [st2| |] eqn:H2; cbn [bind] in H;
    try discriminate.
  destruct (final_assignment st2) as [st3| |] eqn:H3; cbn [bind] in H;
    try discriminate.
  inversion H; subst.
  destruct (while_Ok_reaches _ _ _ _ _ H1) as [R1 C1].
  destruct (while_Ok_reaches _ _ _ _ _ H2) as [R2 C2].
  exists st1, st2, st3. simpl. repeat split; auto.
Qed.

Lemma settled_final (a : Z) (v : Qc) (st st' : state) :
  0 <= a -> settled self a v st -> final_assignment st = Ok st' ->
  getitem (prices st') a = Ok v.
Proof.
  intros Ha (Hinv & Hout & Hv) H.
  destruct (final_assignment_Ok_inv st st' H)
    as [[-> _]|(b & rest & Hact & _ & _ & Hset & _)]; [assumption|].
  assert (Hb : In b (active_advertisers st)) by (rewrite Hact; now left).
  rewrite <- Hv. eapply getitem_setitem_other; [| | |eassumption]; try lia.
  - apply (inv_range self _ Hinv) in Hb. lia.
  - intros ->. contradiction.
Qed.

(** C3.  In a run of [run_auction] that returns [(allocation, prices,
    history)]: every round of the allocation phase removes an advertiser
    whose final per-click price is the last entry the history had when that
    round began (0 when it was empty); and a single advertiser remaining
    after that phase, with a slot still unfilled, is at slot index 0 and
    pays the last entry of the final history (0 when it is empty). *)
Theorem allocation_phase_prices (alloc : list Z) (pr hist : list Qc) :
  run_auction self = Ok (alloc, pr, hist) ->
  (forall st1 s,
      excess_phase self = Ok st1 ->
      reaches allocation_cond (allocation_round self) st1 s ->
      allocation_cond s = true ->
      exists a p s',
        lowest_dropout self (active_advertisers s) (history s) = Ok (a, p)
        /\ allocation_round self s = Ok s'
        /\ list_remove a (active_advertisers s) = Ok (active_advertisers s')
        /\ getitem pr a = Ok (last (history s) 0%Qc))
  /\ (forall st2 a,
         allocation_phase self = Ok st2 ->
         active_advertisers st2 = [a] ->
         0 <= next_slot_to_fill st2 ->
         getitem alloc 0 = Ok a /\ getitem pr a = Ok (last hist 0%Qc)).
Proof.
  intros Hrun.
  destruct (run_auction_Ok_inv _ _ _ Hrun)
    as (st1 & st2 & st3 & H1 & R1 & _ & H2 & R2 & C2 & H3 & -> & -> & ->).
  assert (Hinv1 : round_inv self st1).
  { eapply reaches_invariant; [|exact R1|exact round_inv_initial].
    intros; eapply round_inv_excess; eauto. }
  split.
  - intros st1' s E Rs Cs. rewrite H1 in E. inversion E; subst st1'.
    assert (Hinv : round_inv self s).
    { eapply reaches_invariant; [|exact Rs|exact Hinv1].
      intros; eapply round_inv_allocation; eauto. }
    pose proof (reaches_exit _ _ _ _ _ Rs R2 C2) as Rexit.
    inversion Rexit as [|s0 s' s0' _ Hround Rrest]; subst; [congruence|].
    destruct (allocation_round_Ok_inv self s s' Hround)
      as (a & p & l1 & l2 & Hlow & Hact & Hn & Hact' & _ & _ & _ & Hset).
    destruct (round_inv_shrink s s' a l1 l2 _ Hinv Hact Hact' Hset)
      as (Hinv' & Hout & Ha & Hget).
    exists a, p, s'. repeat split; auto.
    + rewrite Hact, Hact'. now apply list_remove_split.
    + eapply settled_final; [exact Ha| |exact H3].
      eapply (reaches_invariant _ _ (settled self a (last (history s) 0%Qc)));
        [|exact Rrest|].
      * intros; eapply settled_allocation; eauto.
      * split; [exact Hinv'|split; assumption].
  - intros st2' a E Hact Hslot. rewrite H2 in E. inversion E; subst st2'.
    destruct (final_assignment_Ok_inv st2 st3 H3)
      as [[_ [Hempty|Hneg]]|(b & rest & Hact' & _ & Hal & Hset & Hh)];
      [congruence | lia |].
    rewrite Hact in Hact'. inversion Hact'; subst b rest.
    assert (Hinv2 : round_inv self st2).
    { eapply reaches_invariant; [|exact R2|exact Hinv1].
      intros; eapply round_inv_allocation; eauto. }
    assert (Ha : 0 <= a).
    { apply (inv_range self _ Hinv2 a). rewrite Hact. now left. }
    split.
    + eapply getitem_setitem_same; [lia | eassumption].
    + rewrite Hh. eapply getitem_setitem_same; eassumption.
Qed.

End Clock.

(** ** Which rounds succeed *)

Lemma nonzero_ctrs_of_valid (self : GeneralizedEnglishAuction) (k : Z) :
  valid_instance self -> 0 <= k <= n_slots self - 2 -> ctr self k <> 0%Qc.
Proof.
  intros V Hk Hz. apply (valid_no_adjacent_zeros self V k); try lia.
  split; [assumption|]. apply Qcle_antisym.
  - rewrite <- Hz. apply (valid_descending self V). lia.
  - pose proof (valid_nonneg self V) as Hnn. rewrite Forall_forall in Hnn.
    apply Hnn. unfold ctr. apply nth_In.
    pose proof (valid_len self V) as Hlen. unfold len in Hlen. lia.
Qed.

Lemma dropout_ctrs_saturated (self : GeneralizedEnglishAuction) (i : Z) :
  len (ctrs self) = n_slots self + 1 -> 2 <= n_slots self ->
  n_slots self < i ->
  dropout_ctrs self i =
    Ok (if i =? n_slots self + 1 then ctr self (n_slots self)
        else ctr self (n_slots self - 1),
        ctr self (n_slots self - 2)).
Proof.
  intros Hlen Hn Hi. unfold dropout_ctrs, ctr.
  destruct (Z.ltb_spec (i - 1) (len (ctrs self) - 1)); [lia|].
  rewrite (getitem_neg _ (-3) 0%Qc) by lia.
  replace (len (ctrs self) + -3) with (n_slots self - 2) by lia.
  destruct (Z.eqb_spec i (n_slots self + 1)) as [->|Hne].
  - destruct (Z.ltb_spec (n_slots self + 1 - 1) (len (ctrs self))); [|lia].
    rewrite (getitem_nonneg _ _ 0%Qc) by lia.
    now replace (n_slots self + 1 - 1) with (n_slots self) by lia.
  - destruct (Z.ltb_spec (i - 1) (len (ctrs self))); [lia|].
    rewrite (getitem_neg _ (-2) 0%Qc) by lia.
    now replace (len (ctrs self) + -2) with (n_slots self - 1) by lia.
Qed.

Section Progress.

Variable self : GeneralizedEnglishAuction.

Lemma excess_round_succeeds (st : state) (a_i a_prev : Qc) :
  round_inv self st -> active_advertisers st <> [] ->
  dropout_ctrs self (len (active_advertisers st)) = Ok (a_i, a_prev) ->
  a_prev <> 0%Qc ->
  exists st', excess_round self st = Ok st'.
Proof.
  intros Hinv Hne Hctrs Hprev.
  destruct (lowest_dropout_succeeds self st a_i a_prev Hne
              (inv_range self st Hinv) Hctrs Hprev) as (a & p & Hlow).
  destruct (lowest_dropout_split self st a p Hlow)
    as (l1 & l2 & Hact & _ & Hrem).
  assert (Ha : 0 <= a < len (prices st)).
  { rewrite (inv_prices self st Hinv). apply (inv_range self st Hinv).
    rewrite Hact. apply in_or_app. right. now left. }
  unfold excess_round. rewrite Hlow. cbn [bind].
  rewrite setitem_nonneg by assumption. cbn [bind].
  rewrite Hrem. cbn [bind]. eauto.
Qed.

Lemma allocation_round_succeeds (st : state) (a_i a_prev : Qc) :
  round_inv self st -> active_advertisers st <> [] ->
  dropout_ctrs self (len (active_advertisers st)) = Ok (a_i, a_prev) ->
  a_prev <> 0%Qc ->
  0 <= next_slot_to_fill st < len (allocation st) ->
  exists st', allocation_round self st = Ok st'.
Proof.
  intros Hinv Hne Hctrs Hprev Hslot.
  destruct (lowest_dropout_succeeds self st a_i a_prev Hne
              (inv_range self st Hinv) Hctrs Hprev) as (a & p & Hlow).
  destruct (lowest_dropout_split self st a p Hlow)
    as (l1 & l2 & Hact & _ & Hrem).
  assert (Ha : 0 <= a < len (prices st)).
  { rewrite (inv_prices self st Hinv). apply (inv_range self st Hinv).
    rewrite Hact. apply in_or_app. right. now left. }
  unfold allocation_round. rewrite Hlow. cbn [bind].
  rewrite setitem_nonneg by assumption. cbn [bind].
  rewrite last_or_zero_last. cbn [bind].
  rewrite setitem_nonneg by assumption. cbn [bind].
  rewrite Hrem. cbn [bind]. eauto.
Qed.

Lemma excess_inv_initial : excess_inv self (initial_state self).
Proof.
  pose proof (len_range 0 (n_advertisers self) (len_nonneg _)) as Hlen.
  split; simpl; auto using round_inv_initial.
  - right. lia.
  - rewrite Hlen. change (len (@nil Qc)) with 0. lia.
Qed.

Lemma excess_inv_round (st st' : state) :
  excess_inv self st -> excess_cond self st = true ->
  excess_round self st = Ok st' -> excess_inv self st'.
Proof.
  intros [Hr Hal Hns Hact Hh] Hc H.
  pose proof (round_inv_excess self st st' Hr Hc H) as Hr'.
  destruct (excess_round_Ok_inv self st st' H)
    as (a & p & l1 & l2 & _ & E & _ & E' & Eh & Eal & Ens & _).
  unfold excess_cond in Hc. apply Z.gtb_lt in Hc.
  rewrite E in *. rewrite len_app, len_cons in *.
  split; auto; try congruence.
  - left. rewrite E', len_app. lia.
  - rewrite Eh, E', !len_app. unfold len at 2. simpl. lia.
Qed.

End Progress.

Section AllocationPhase.

Variable self : GeneralizedEnglishAuction.

Lemma nth_replicate_same {A : Type} (v : A) (n : Z) (k : nat) :
  nth k (replicate v n) v = v.
Proof.
  unfold replicate. generalize (Z.to_nat n). intros c. revert k.
  induction c as [|c IH]; intros [|k]; simpl; auto.
Qed.

Lemma allocation_inv_start (st : state) :
  1 <= n_slots self -> 1 <= n_advertisers self ->
  excess_inv self st -> excess_cond self st = false ->
  allocation_inv self (Z.min (n_advertisers self) (n_slots self)) st.
Proof.
  intros Hn Ha [Hr Hal Hns Hact Hh] Hc.
  unfold excess_cond in Hc. rewrite Z.gtb_ltb in Hc. apply Z.ltb_ge in Hc.
  pose proof (len_nonneg (history st)).
  split; auto; try lia.
  - rewrite Hal. apply len_replicate. lia.
  - intros k. left. rewrite Hal. apply nth_replicate_same.
  - intros j k _ _. rewrite Hal. apply nth_replicate_same.
  - intros k _. rewrite Hal. apply nth_replicate_same.
Qed.

Lemma allocation_inv_round (m : Z) (st st' : state) :
  allocation_inv self m st -> allocation_cond st = true ->
  allocation_round self st = Ok st' -> allocation_inv self m st'.
Proof.
  intros [Hr Hlen Hm Hnext Hact Hent Hdis Hfree Htaken Hh] Hc H.
  pose proof (round_inv_allocation self st st' Hr Hc H) as Hr'.
  destruct (allocation_round_Ok_inv self st st' H)
    as (a & p & l1 & l2 & _ & E & Hn & E' & Eh & Eal & Ens & Epr).
  destruct (round_inv_shrink self st st' a l1 l2 _ Hr E E' Epr)
    as (_ & Hout & Ha0 & _).
  assert (Hain : In a (active_advertisers st))
    by (rewrite E; apply in_or_app; right; now left).
  pose proof (inv_range self st Hr a Hain) as Harange.
  assert (Hsub : forall b, In b (active_advertisers st') ->
                           In b (active_advertisers st)).
  { intros b. rewrite E, E'. intros Hb.
    apply in_app_or in Hb as [Hb|Hb]; apply in_or_app; simpl; auto. }
  unfold allocation_cond in Hc. apply andb_prop in Hc as [Hc1 Hc2].
  apply Z.gtb_lt in Hc1. rewrite Z.geb_leb in Hc2. apply Z.leb_le in Hc2.
  apply setitem_Ok_inv in Eal as [Hslot Eal].
  rewrite norm_index_nonneg in Hslot, Eal by assumption.
  set (n := Z.to_nat (next_slot_to_fill st)) in *.
  assert (Hnlt : (n < length (allocation st))%nat)
    by (unfold len in Hslot; lia).
  assert (Hnth : forall k,
             nth k (allocation st') (-1)
             = if Nat.eq_dec k n then a else nth k (allocation st) (-1)).
  { intros k. rewrite Eal. destruct (Nat.eq_dec k n) as [->|Hk].
    - now apply nth_update_eq.
    - apply nth_update_neq. congruence. }
  assert (Hlen' : len (active_advertisers st')
                  = len (active_advertisers st) - 1).
  { rewrite E, E', !len_app, len_cons. lia. }
  split; auto.
  - rewrite Eal, len_update. exact Hlen.
  - rewrite Ens, Hnext, Hlen'. lia.
  - lia.
  - intros k. rewrite Hnth. destruct (Nat.eq_dec k n).
    + right. split; assumption.
    + destruct (Hent k) as [Hk|[Hk1 Hk2]]; [now left|right].
      split; auto.
  - intros j k Hjk. rewrite !Hnth.
    destruct (Nat.eq_dec j n), (Nat.eq_dec k n); try lia.
    + intros Heq. exfalso.
      destruct (Hent k) as [Hk|[_ Hk]]; [lia|]. rewrite <- Heq in Hk. tauto.
    + intros Heq. exfalso.
      destruct (Hent j) as [Hj|[_ Hj]]; [lia|]. rewrite Heq in Hj. tauto.
    + now apply Hdis.
  - intros k Hk. rewrite Hnth.
    destruct (Nat.eq_dec (Z.to_nat k) n); [lia|]. apply Hfree. lia.
  - intros k Hk. rewrite Hnth.
    destruct (Nat.eq_dec (Z.to_nat k) n); [lia|]. apply Htaken. lia.
  - rewrite Eh, len_app, Hlen'. change (len [p]) with 1. lia.
Qed.

Lemma allocation_inv_exit (m : Z) (st : state) :
  allocation_inv self m st -> allocation_cond st = false ->
  exists a, active_advertisers st = [a]
            /\ next_slot_to_fill st = n_slots self - m.
Proof.
  intros [Hr Hlen Hm Hnext Hact Hent Hdis Hfree Htaken Hh] Hc.
  unfold allocation_cond in Hc. apply andb_false_iff in Hc.
  rewrite Z.gtb_ltb, Z.geb_leb, Z.ltb_ge, Z.leb_gt in Hc.
  assert (Hone : len (active_advertisers st) = 1) by lia.
  destruct (active_advertisers st) as [|a [|b l]];
    unfold len in Hone; simpl in Hone; try lia.
  exists a. split; [reflexivity|]. rewrite Hnext. unfold len. simpl. lia.
Qed.

End AllocationPhase.

Section Run.

Variable self : GeneralizedEnglishAuction.
Hypothesis Hslots : 1 <= n_slots self.
Hypothesis Hadvertisers : 1 <= n_advertisers self.

(** What a returning run looks like at the end of its allocation phase. *)
Lemma run_auction_Ok_allocation_inv (alloc : list Z) (pr hist : list Qc) :
  run_auction self = Ok (alloc, pr, hist) ->
  exists st2 st3 a,
    allocation_inv self (Z.min (n_advertisers self) (n_slots self)) st2
    /\ active_advertisers st2 = [a]
    /\ next_slot_to_fill st2
       = n_slots self - Z.min (n_advertisers self) (n_slots self)
    /\ setitem (allocation st2) 0 a = Ok (allocation st3)
    /\ history st3 = history st2
    /\ alloc = allocation st3 /\ pr = prices st3 /\ hist = history st3.
Proof.
  intros Hrun.
  destruct (run_auction_Ok_inv self _ _ _ Hrun)
    as (st1 & st2 & st3 & _ & R1 & C1 & _ & R2 & C2 & H3 & -> & -> & ->).
  assert (I1 : excess_inv self st1).
  { eapply reaches_invariant; [|exact R1|apply excess_inv_initial].
    intros; eapply excess_inv_round; eauto. }
  pose proof (allocation_inv_start self st1 Hslots Hadvertisers I1 C1) as I1'.
  assert (I2 : allocation_inv self
                 (Z.min (n_advertisers self) (n_slots self)) st2).
  { eapply reaches_invariant; [|exact R2|exact I1'].
    intros; eapply allocation_inv_round; eauto. }
  destruct (allocation_inv_exit self _ st2 I2 C2) as (a & Hact & Hnext).
  destruct (final_assignment_Ok_inv st2 st3 H3)
    as [[_ [Hempty|Hneg]]|(b & rest & Hact' & _ & Hal & _ & Hh)];
    [congruence | lia |].
  rewrite Hact in Hact'. inversion Hact'; subst b rest.
  exists st2, st3, a.
  split; [exact I2|]. repeat split; auto.
Qed.

Lemma run_auction_history_length (alloc : list Z) (pr hist : list Qc) :
  run_auction self = Ok (alloc, pr, hist) ->
  len hist = n_advertisers self - 1.
Proof.
  intros Hrun.
  destruct (run_auction_Ok_allocation_inv _ _ _ Hrun)
    as (st2 & st3 & a & I2 & Hact & _ & _ & Hh & _ & _ & ->).
  pose proof (al_history self _ st2 I2) as H. rewrite Hact in H.
  rewrite Hh. change (len [a]) with 1 in H. lia.
Qed.

(** Where a run puts the advertisers.  In the allocation a run returns, no
    advertiser is at two slots and every slot holds one advertiser id or
    the sentinel -1.  With fewer advertisers than slots the slots left
    unassigned are those with index 1 to [n_slots - n_advertisers]: the
    code fills from the last index upwards and the survivor takes
    index 0.  With at least as many advertisers as slots no slot is left
    unassigned. *)
Theorem allocation_is_injective_and_fills_from_the_bottom
  (alloc : list Z) (pr hist : list Qc) :
  run_auction self = Ok (alloc, pr, hist) ->
  len alloc = n_slots self
  /\ (forall j k, j <> k -> nth j alloc (-1) = nth k alloc (-1) ->
                  nth j alloc (-1) = -1)
  /\ (forall k, nth k alloc (-1) = -1
                \/ 0 <= nth k alloc (-1) < n_advertisers self)
  /\ (forall k, 0 <= k < n_slots self ->
                (nth (Z.to_nat k) alloc (-1) = -1
                 <-> 1 <= k <= n_slots self - n_advertisers self)).
Proof.
  intros Hrun.
  destruct (run_auction_Ok_allocation_inv _ _ _ Hrun)
    as (st2 & st3 & a & I2 & Hact & Hnext & Hset & _ & -> & _ & _).
  destruct I2 as [Hr Hlen Hm _ _ Hent Hdis Hfree Htaken _].
  assert (Ha : 0 <= a < n_advertisers self)
    by (apply (inv_range self st2 Hr); rewrite Hact; now left).
  apply setitem_Ok_inv in Hset as [Hzero Hset].
  rewrite norm_index_nonneg in Hzero, Hset by lia. simpl in Hset.
  assert (Hpos : (0 < length (allocation st2))%nat)
    by (unfold len in Hzero; lia).
  assert (Hnth : forall k,
             nth k (allocation st3) (-1)
             = if Nat.eq_dec k 0 then a else nth k (allocation st2) (-1)).
  { intros k. rewrite Hset. destruct (Nat.eq_dec k 0) as [->|Hk].
    - now apply nth_update_eq.
    - apply nth_update_neq. congruence. }
  assert (Hina : In a (active_advertisers st2)) by (rewrite Hact; now left).
  split; [|split; [|split]].
  - rewrite Hset, len_update. exact Hlen.
  - intros j k Hjk. rewrite !Hnth.
    destruct (Nat.eq_dec j 0), (Nat.eq_dec k 0); try lia.
    + intros Heq. exfalso.
      destruct (Hent k) as [Hk|[_ Hk]]; [lia|]. rewrite <- Heq in Hk. tauto.
    + intros Heq. exfalso.
      destruct (Hent j) as [Hj|[_ Hj]]; [lia|]. rewrite Heq in Hj. tauto.
    + now apply Hdis.
  - intros k. rewrite Hnth. destruct (Nat.eq_dec k 0); [now right|].
    destruct (Hent k) as [Hk|[Hk _]]; auto.
  - intros k Hrange. rewrite Hnth.
    destruct (Nat.eq_dec (Z.to_nat k) 0) as [Hk|Hk]; split; try lia.
    + intros Heq.
      destruct (Z.le_gt_cases k (next_slot_to_fill st2)) as [Hle|Hgt]; [lia|].
      exfalso. apply (Htaken k); [lia | assumption].
    + intros Hk'. apply Hfree. lia.
Qed.

End Run.

(** ** Termination *)

Lemma round_shrinks (self : GeneralizedEnglishAuction) (st st' : state) :
  excess_round self st = Ok st' \/ allocation_round self st = Ok st' ->
  (length (active_advertisers st') < length (active_advertisers st))%nat.
Proof.
  intros H. destruct (round_removes_lowest self st st' H) as (a & p & _ & Hrem & _).
  destruct (list_remove_Ok_inv _ _ _ Hrem) as (l1 & l2 & -> & ->).
  rewrite !length_app. simpl. lia.
Qed.

Lemma bind_not_out_of_fuel {A B : Type} (m : result A) (k : A -> result B) :
  m <> OutOfFuel -> (forall a, k a <> OutOfFuel) -> bind m k <> OutOfFuel.
Proof. destruct m; simpl; auto. discriminate. Qed.

Lemma getitem_not_out_of_fuel {A : Type} (l : list A) (i : Z) :
  getitem l i <> OutOfFuel.
Proof.
  unfold getitem. destruct (_ && _); [|discriminate].
  destruct (nth_error _ _); discriminate.
Qed.

Lemma setitem_not_out_of_fuel {A : Type} (l : list A) (i : Z) (v : A) :
  setitem l i v <> OutOfFuel.
Proof. unfold setitem. destruct (_ && _); discriminate. Qed.

Lemma list_remove_not_out_of_fuel (x : Z) (l : list Z) :
  list_remove x l <> OutOfFuel.
Proof.
  induction l as [|y l IH]; simpl; [discriminate|].
  destruct (y =? x); [discriminate|].
  apply bind_not_out_of_fuel; [assumption | discriminate].
Qed.

Lemma last_or_zero_not_out_of_fuel (h : list Qc) : last_or_zero h <> OutOfFuel.
Proof. rewrite last_or_zero_last. discriminate. Qed.

Lemma mapM_not_out_of_fuel {A B : Type} (f : A -> result B) (l : list A) :
  (forall x, f x <> OutOfFuel) -> mapM f l <> OutOfFuel.
Proof.
  intros Hf. induction l as [|x l IH]; simpl; [discriminate|].
  apply bind_not_out_of_fuel; [apply Hf|]. intros y.
  apply bind_not_out_of_fuel; [assumption | discriminate].
Qed.

Lemma equilibrium_dropout_price_not_out_of_fuel
  (self : GeneralizedEnglishAuction) (i : Z) (h : list Qc) (s : Qc) :
  equilibrium_dropout_price self i h s <> OutOfFuel.
Proof.
  unfold equilibrium_dropout_price, dropout_ctrs, truediv.
  repeat (apply bind_not_out_of_fuel; [|intros]);
    try apply last_or_zero_not_out_of_fuel;
    repeat match goal with
           | |- (if ?c then _ else _) <> _ => destruct c
           | |- (let '(_, _) := ?x in _) <> _ => destruct x
           | |- bind _ _ <> _ => apply bind_not_out_of_fuel; [|intros]
           end;
    try apply getitem_not_out_of_fuel; try discriminate.
Qed.

Lemma lowest_dropout_not_out_of_fuel
  (self : GeneralizedEnglishAuction) (active : list Z) (h : list Qc) :
  lowest_dropout self active h <> OutOfFuel.
Proof.
  unfold lowest_dropout, dropout_prices.
  apply bind_not_out_of_fuel; [|intros; apply getitem_not_out_of_fuel].
  apply mapM_not_out_of_fuel. intros adv.
  apply bind_not_out_of_fuel; [apply getitem_not_out_of_fuel|]. intros v.
  apply bind_not_out_of_fuel;
    [apply equilibrium_dropout_price_not_out_of_fuel | discriminate].
Qed.

Lemma excess_round_not_out_of_fuel
  (self : GeneralizedEnglishAuction) (st : state) :
  excess_round self st <> OutOfFuel.
Proof.
  unfold excess_round.
  apply bind_not_out_of_fuel; [apply lowest_dropout_not_out_of_fuel|].
  intros [a p].
  apply bind_not_out_of_fuel; [apply setitem_not_out_of_fuel|]. intros.
  apply bind_not_out_of_fuel; [apply list_remove_not_out_of_fuel|].
  discriminate.
Qed.

Lemma allocation_round_not_out_of_fuel
  (self : GeneralizedEnglishAuction) (st : state) :
  allocation_round self st <> OutOfFuel.
Proof.
  unfold allocation_round.
  apply bind_not_out_of_fuel; [apply lowest_dropout_not_out_of_fuel|].
  intros [a p].
  apply bind_not_out_of_fuel; [apply setitem_not_out_of_fuel|]. intros.
  apply bind_not_out_of_fuel; [apply last_or_zero_not_out_of_fuel|]. intros.
  apply bind_not_out_of_fuel; [apply setitem_not_out_of_fuel|]. intros.
  apply bind_not_out_of_fuel; [apply list_remove_not_out_of_fuel|].
  discriminate.
Qed.

Lemma reaches_excess_shrinks (self : GeneralizedEnglishAuction)
  (st st' : state) :
  reaches (excess_cond self) (excess_round self) st st' ->
  (length (active_advertisers st') <= length (active_advertisers st))%nat.
Proof.
  induction 1 as [|s s' s'' _ Hb _ IH]; [lia|].
  pose proof (round_shrinks self s s' (or_introl Hb)). lia.
Qed.

(** The fuel of the model is never the reason a run stops: whatever the
    instance, [run_auction] returns or raises. *)
Lemma run_auction_never_out_of_fuel (self : GeneralizedEnglishAuction) :
  run_auction self <> OutOfFuel.
Proof.
  assert (Hinit : (length (active_advertisers (initial_state self))
                   < rounds_fuel self)%nat).
  { simpl. rewrite length_range. unfold rounds_fuel, n_advertisers, len. lia. }
  unfold run_auction, allocation_phase.
  apply bind_not_out_of_fuel.
  - destruct (excess_phase self) as [st1| |] eqn:H1; cbn [bind];
      try discriminate.
    + apply while_never_out_of_fuel.
      * intros s s' H. apply (round_shrinks self). now right.
      * apply allocation_round_not_out_of_fuel.
      * destruct (while_Ok_reaches _ _ _ _ _ H1) as [R _].
        apply reaches_excess_shrinks in R. lia.
    + exfalso. revert H1. apply while_never_out_of_fuel; auto.
      * intros s s' H. apply (round_shrinks self). now left.
      * apply excess_round_not_out_of_fuel.
  - intros st. apply bind_not_out_of_fuel; [|discriminate].
    unfold final_assignment. destruct (active_advertisers st); [discriminate|].
    destruct (_ >=? _); [|discriminate].
    apply bind_not_out_of_fuel; [apply getitem_not_out_of_fuel|]. intros.
    apply bind_not_out_of_fuel; [apply setitem_not_out_of_fuel|]. intros.
    apply bind_not_out_of_fuel; [apply last_or_zero_not_out_of_fuel|]. intros.
    apply bind_not_out_of_fuel; [apply setitem_not_out_of_fuel|]. intros.
    discriminate.
Qed.

(** ** Runs that return *)

Section Returns.

Variable self : GeneralizedEnglishAuction.
Hypothesis V : valid_instance self.

Lemma valid_has_advertiser : 1 <= n_advertisers self.
Proof.
  pose proof (valid_values self V) as H. unfold n_advertisers, len.
  destruct (values self); [inversion H | simpl; lia].
Qed.

Lemma excess_round_progress (st : state) :
  2 <= n_slots self \/ n_advertisers self <= n_slots self ->
  excess_inv self st -> excess_cond self st = true ->
  exists st', excess_round self st = Ok st' /\ excess_inv self st'
              /\ (length (active_advertisers st')
                  < length (active_advertisers st))%nat.
Proof.
  intros Hcase I Hc. pose proof Hc as Hc'.
  unfold excess_cond in Hc'. apply Z.gtb_lt in Hc'.
  pose proof (ex_history self st I) as Hh.
  pose proof (len_nonneg (history st)).
  pose proof (valid_n_slots self V).
  assert (Hn : 2 <= n_slots self) by lia.
  assert (Hne : active_advertisers st <> []).
  { intros E. rewrite E in Hc'. change (len (@nil Z)) with 0 in Hc'. lia. }
  assert (Hnz : ctr self (n_slots self - 2) <> 0%Qc)
    by (apply nonzero_ctrs_of_valid; [assumption | lia]).
  destruct (excess_round_succeeds self st _ _ (ex_round self st I) Hne
              (dropout_ctrs_saturated self _ (valid_len self V) Hn Hc') Hnz)
    as (st' & Hround).
  exists st'. split; [assumption|]. split.
  - eapply excess_inv_round; eauto.
  - apply (round_shrinks self). now left.
Qed.

Lemma allocation_round_progress (m : Z) (st : state) :
  allocation_inv self m st -> allocation_cond st = true ->
  exists st', allocation_round self st = Ok st' /\ allocation_inv self m st'
              /\ (length (active_advertisers st')
                  < length (active_advertisers st))%nat.
Proof.
  intros I Hc. pose proof Hc as Hc'.
  unfold allocation_cond in Hc'. apply andb_prop in Hc' as [Hc1 Hc2].
  apply Z.gtb_lt in Hc1. rewrite Z.geb_leb in Hc2. apply Z.leb_le in Hc2.
  pose proof (al_active self m st I) as Hact.
  pose proof (al_m self m st I) as Hm.
  pose proof (al_next self m st I) as Hnext.
  assert (Hi : 2 <= len (active_advertisers st) <= n_slots self) by lia.
  assert (Hne : active_advertisers st <> []).
  { intros E. rewrite E in Hc1. change (len (@nil Z)) with 0 in Hc1. lia. }
  assert (Hnz : ctr self (len (active_advertisers st) - 2) <> 0%Qc)
    by (apply nonzero_ctrs_of_valid; [assumption | lia]).
  assert (Hslot : 0 <= next_slot_to_fill st < len (allocation st))
    by (rewrite (al_len self m st I); lia).
  destruct (allocation_round_succeeds self st _ _ (al_round self m st I) Hne
              (dropout_ctrs_in_range self _ (valid_len self V) Hi) Hnz Hslot)
    as (st' & Hround).
  exists st'. split; [assumption|]. split.
  - eapply allocation_inv_round; eauto.
  - apply (round_shrinks self). now right.
Qed.

Lemma run_auction_returns :
  2 <= n_slots self \/ n_advertisers self <= n_slots self ->
  exists alloc pr hist, run_auction self = Ok (alloc, pr, hist).
Proof.
  intros Hcase.
  pose proof (valid_n_slots self V) as Hslots.
  pose proof valid_has_advertiser as Hadv.
  assert (Hinit : (length (active_advertisers (initial_state self))
                   < rounds_fuel self)%nat).
  { simpl. rewrite length_range. unfold rounds_fuel, n_advertisers, len. lia. }
  destruct (while_returns (excess_cond self) (excess_round self)
              (excess_inv self) (fun s => excess_round_progress s Hcase)
              (rounds_fuel self) (initial_state self)
              (excess_inv_initial self) Hinit) as (st1 & H1).
  destruct (while_Ok_reaches _ _ _ _ _ H1) as [R1 C1].
  assert (I1 : excess_inv self st1).
  { eapply reaches_invariant; [|exact R1|apply excess_inv_initial].
    intros; eapply excess_inv_round; eauto. }
  pose proof (allocation_inv_start self st1 Hslots Hadv I1 C1) as I1'.
  set (m := Z.min (n_advertisers self) (n_slots self)) in *.
  assert (Hfuel : (length (active_advertisers st1) < rounds_fuel self)%nat).
  { apply reaches_excess_shrinks in R1. lia. }
  destruct (while_returns allocation_cond (allocation_round self)
              (allocation_inv self m) (allocation_round_progress m)
              (rounds_fuel self) st1 I1' Hfuel) as (st2 & H2).
  destruct (while_Ok_reaches _ _ _ _ _ H2) as [R2 C2].
  assert (I2 : allocation_inv self m st2).
  { eapply reaches_invariant; [|exact R2|exact I1'].
    intros; eapply allocation_inv_round; eauto. }
  destruct (allocation_inv_exit self m st2 I2 C2) as (a & Hact & Hnext).
  assert (Ha : 0 <= a < n_advertisers self).
  { apply (inv_range self st2 (al_round self m st2 I2)). rewrite Hact.
    now left. }
  unfold run_auction, allocation_phase. fold (excess_phase self) in H1.
  unfold excess_phase in *. rewrite H1. cbn [bind]. rewrite H2. cbn [bind].
  unfold final_assignment. rewrite Hact.
  destruct (Z.geb_spec (next_slot_to_fill st2) 0) as [_|Hneg]; [|lia].
  change (getitem [a] 0) with (Ok a). cbn [bind].
  rewrite setitem_nonneg by (rewrite (al_len self m st2 I2); lia).
  cbn [bind]. rewrite last_or_zero_last. cbn [bind].
  rewrite setitem_nonneg
    by (rewrite (inv_prices self st2 (al_round self m st2 I2)); lia).
  cbn [bind]. eauto.
Qed.

End Returns.

(** ** Validity of the concrete instances *)

Ltac small_index k :=
  match goal with
  | H : _ <= k < _ |- _ => simpl in H
  | H : k + 1 < _ |- _ => simpl in H
  end;
  first [ assert (k = 0) by lia | assert (k = 0 \/ k = 1) by lia
        | assert (k = 0 \/ k = 1 \/ k = 2) by lia ];
  repeat match goal with H : _ \/ _ |- _ => destruct H end; subst k.

Ltac valid_by_evaluation :=
  split;
  [ simpl; lia
  | reflexivity
  | repeat (apply Forall_cons; [qc_order|]); apply Forall_nil
  | let k := fresh "k" in intros k ?; small_index k; qc_order
  | qc_order
  | let k := fresh "k" in let H := fresh in
    intros k ? ? [H _]; try (simpl in *; lia); small_index k;
    revert H; qc_order
  | apply Exists_cons_hd; qc_order ].

Lemma single_slot_valid : valid_instance single_slot.
Proof. valid_by_evaluation. Qed.

Lemma two_slots_valid : valid_instance two_slots.
Proof. valid_by_evaluation. Qed.

Lemma three_slots_valid : valid_instance three_slots.
Proof. valid_by_evaluation. Qed.

(** ** Runs of valid instances *)

(** C2, refuted as stated.  [single_slot] is valid and its run raises
    [IndexError]: with two advertisers for one slot the price formula reads
    [ctrs[-3]] of a two-element list.  [two_slots] is valid and with four
    advertisers active (candidate slot index 3, outside the slot range) the
    formula reads [alpha_i = ctrs[-2] = 1/2] and [alpha_prev = ctrs[-3] = 1],
    while the last two entries of its rates are [1/2] and [0]. *)
Lemma single_slot_run_raises_and_ctrs_saturate_higher :
  valid_instance single_slot
  /\ run_auction single_slot = Raise IndexError
  /\ valid_instance two_slots
  /\ dropout_ctrs two_slots 4 = Ok (half, 1%Qc)
  /\ skipn 1 (ctrs two_slots) = [half; 0%Qc].
Proof.
  split; [exact single_slot_valid|].
  split; [vm_compute; reflexivity|].
  split; [exact two_slots_valid|].
  split; reflexivity.
Qed.

(** C2, amended.  For a valid instance with at least two slots, or with no
    more advertisers than slots, [run_auction] returns.  With at least two
    slots and [i] advertisers active, [i > n_slots] (candidate slot index
    [i - 1] outside the slot range), the price formula reads
    [alpha_prev = ctrs[n_slots - 2]], the third entry from the end, and
    [alpha_i = ctrs[n_slots - 1]], the second from the end, except that
    [alpha_i] is the closing entry [ctrs[n_slots]] when [i = n_slots + 1]. *)
Theorem run_auction_returns_and_ctrs_saturate
  (self : GeneralizedEnglishAuction) :
  valid_instance self ->
  2 <= n_slots self \/ n_advertisers self <= n_slots self ->
  (exists alloc pr hist, run_auction self = Ok (alloc, pr, hist))
  /\ (2 <= n_slots self ->
      forall i, n_slots self < i ->
        dropout_ctrs self i =
          Ok (if i =? n_slots self + 1 then ctr self (n_slots self)
              else ctr self (n_slots self - 1),
              ctr self (n_slots self - 2))).
Proof.
  intros V Hcase. split.
  - now apply run_auction_returns.
  - intros Hn i Hi. apply dropout_ctrs_saturated; auto.
    exact (valid_len self V).
Qed.

Lemma run_auction_returns_and_ctrs_saturate_two_slots :
  (exists alloc pr hist, run_auction two_slots = Ok (alloc, pr, hist))
  /\ (2 <= n_slots two_slots ->
      forall i, n_slots two_slots < i ->
        dropout_ctrs two_slots i =
          Ok (if i =? n_slots two_slots + 1
              then ctr two_slots (n_slots two_slots)
              else ctr two_slots (n_slots two_slots - 1),
              ctr two_slots (n_slots two_slots - 2))).
Proof.
  apply (run_auction_returns_and_ctrs_saturate two_slots).
  - valid_by_evaluation.
  - left. simpl. lia.
Defined.

(** C5, at the failing input.  [single_slot] is valid and has two
    advertisers; its run enters the first elimination round and that round
    raises [IndexError], so no history of length 1 is returned. *)
Lemma single_slot_first_round_raises :
  valid_instance single_slot
  /\ n_advertisers single_slot = 2
  /\ excess_cond single_slot (initial_state single_slot) = true
  /\ excess_round single_slot (initial_state single_slot) = Raise IndexError
  /\ run_auction single_slot = Raise IndexError.
Proof.
  split; [exact single_slot_valid|].
  repeat split; vm_compute; reflexivity.
Qed.

(** Where the run returns, the history has the documented length. *)
Lemma history_length_of_valid_run (self : GeneralizedEnglishAuction) :
  valid_instance self ->
  2 <= n_slots self \/ n_advertisers self <= n_slots self ->
  exists alloc pr hist,
    run_auction self = Ok (alloc, pr, hist)
    /\ len hist = n_advertisers self - 1.
Proof.
  intros V Hcase.
  destruct (run_auction_returns self V Hcase) as (alloc & pr & hist & H).
  exists alloc, pr, hist. split; [assumption|].
  eapply run_auction_history_length; eauto.
  - exact (valid_n_slots self V).
  - now apply valid_has_advertiser.
Qed.

(** With a single slot, every instance with two or more advertisers
    fails in its first round. *)
Lemma single_slot_excess_raises (self : GeneralizedEnglishAuction) :
  n_slots self = 1 -> len (ctrs self) = 2 -> 2 <= n_advertisers self ->
  run_auction self = Raise IndexError.
Proof.
  intros Hn Hlen Hadv.
  assert (Hctrs : dropout_ctrs self (n_advertisers self) = Raise IndexError).
  { unfold dropout_ctrs.
    assert (E : exists x,
               (if n_advertisers self - 1 <? len (ctrs self)
                then getitem (ctrs self) (n_advertisers self - 1)
                else getitem (ctrs self) (-2)) = Ok x).
    { destruct (Z.ltb_spec (n_advertisers self - 1) (len (ctrs self))).
      - rewrite (getitem_nonneg _ _ 0%Qc) by lia. eauto.
      - rewrite (getitem_neg _ _ 0%Qc) by lia. eauto. }
    destruct E as (x & E).
    rewrite E. cbn [bind].
    destruct (Z.ltb_spec (n_advertisers self - 1) (len (ctrs self) - 1));
      [lia|].
    rewrite getitem_out by lia. reflexivity. }
  unfold run_auction, allocation_phase, excess_phase, rounds_fuel.
  cbn [while]. unfold excess_cond at 1. cbn [initial_state active_advertisers].
  rewrite len_range by (unfold n_advertisers; apply len_nonneg).
  rewrite Z.sub_0_r.
  destruct (Z.gtb_spec (n_advertisers self) (n_slots self)) as [_|]; [|lia].
  unfold excess_round, lowest_dropout, dropout_prices.
  cbn [initial_state active_advertisers history].
  rewrite (range_cons 0) by lia. cbn [mapM].
  rewrite (getitem_nonneg _ 0 0%Qc) by (unfold n_advertisers in Hadv; lia).
  cbn [bind]. unfold equilibrium_dropout_price. cbn [last_or_zero bind].
  replace (len (0 :: range (0 + 1) (n_advertisers self)))
    with (n_advertisers self)
    by (rewrite len_cons, len_range by lia; lia).
  rewrite Hctrs. reflexivity.
Qed.

(** C7, a defect of [run_auction].  [three_slots] is valid and has three
    slots and two advertisers.  In the one round of its allocation phase
    two advertisers are active, and the leaver's drop-out price is that of
    position [i - 1 = 1], the position the source gives the advertiser who
    leaves ("With i advertisers remaining, the next to drop out gets
    position i-1"): it is computed from [ctrs[1]] and [ctrs[0]].  The round
    then stores the leaver, advertiser 0, at slot index [n_slots - 1 = 2].
    The run returns the allocation [[1; -1; 0]]: slot 1 is unassigned and
    slot 2, whose index is not below the number of advertisers, is
    assigned. *)
Lemma three_slots_fills_last_slot :
  valid_instance three_slots
  /\ n_slots three_slots = 3
  /\ n_advertisers three_slots = 2
  /\ lowest_dropout three_slots [0; 1] []
     = Ok (0, price_formula (ctr three_slots 1) (ctr three_slots 0)
                            0%Qc (Q2Qc 1))
  /\ run_auction three_slots = Ok ([1; -1; 0], [0%Qc; half], [half]).
Proof.
  split; [exact three_slots_valid|]. do 2 (split; [reflexivity|]).
  split.
  - destruct (lowest_dropout three_slots [0; 1] []) as [[a p]| |] eqn:E;
      vm_compute in E; try discriminate E.
    inversion E; subst. do 2 apply f_equal. qc_order.
  - destruct (run_auction three_slots) as [[[alloc pr] hist]| |] eqn:E;
      vm_compute in E; try discriminate E.
    inversion E; subst.
    assert (Eq : forall (a : list Z) (p p' h h' : list Qc),
               p = p' -> h = h' -> Ok (a, p, h) = Ok (a, p', h'))
      by (intros; subst; reflexivity).
    apply Eq; qc_list.
Qed.

(** ** The theorems at concrete instances *)

Lemma equilibrium_dropout_price_formula_two_slots :
  equilibrium_dropout_price two_slots 2 [half] (Q2Qc 3) =
    if Qc_eqb (ctr two_slots (2 - 2)) 0 then Raise ZeroDivisionError
    else Ok (price_formula (ctr two_slots (2 - 1)) (ctr two_slots (2 - 2))
                           (last [half] 0%Qc) (Q2Qc 3)).
Proof.
  apply (equilibrium_dropout_price_formula two_slots 2 [half] (Q2Qc 3)).
  - reflexivity.
  - simpl. lia.
Defined.

Lemma removed_advertiser_has_first_minimum_price_two_slots :
  exists st',
    excess_round two_slots (initial_state two_slots) = Ok st'
    /\ exists a p before after,
         active_advertisers (initial_state two_slots) = before ++ a :: after
         /\ active_advertisers st' = before ++ after
         /\ round_price two_slots (initial_state two_slots) a = Ok p
         /\ (forall b, In b (active_advertisers (initial_state two_slots)) ->
               exists q, round_price two_slots (initial_state two_slots) b
                         = Ok q /\ (p <= q)%Qc)
         /\ (forall b, In b before ->
               exists q, round_price two_slots (initial_state two_slots) b
                         = Ok q /\ (p < q)%Qc).
Proof.
  destruct (excess_round two_slots (initial_state two_slots)) as [st'| |] eqn:E;
    [|vm_compute in E; discriminate E ..].
  exists st'. split; [reflexivity|].
  apply (removed_advertiser_has_first_minimum_price two_slots
           (initial_state two_slots) st').
  left. exact E.
Defined.

Lemma allocation_phase_prices_two_slots :
  exists alloc pr hist,
    run_auction two_slots = Ok (alloc, pr, hist)
    /\ (forall st1 s,
           excess_phase two_slots = Ok st1 ->
           reaches allocation_cond (allocation_round two_slots) st1 s ->
           allocation_cond s = true ->
           exists a p s',
             lowest_dropout two_slots (active_advertisers s) (history s)
             = Ok (a, p)
             /\ allocation_round two_slots s = Ok s'
             /\ list_remove a (active_advertisers s)
                = Ok (active_advertisers s')
             /\ getitem pr a = Ok (last (history s) 0%Qc))
    /\ (forall st2 a,
           allocation_phase two_slots = Ok st2 ->
           active_advertisers st2 = [a] ->
           0 <= next_slot_to_fill st2 ->
           getitem alloc 0 = Ok a /\ getitem pr a = Ok (last hist 0%Qc)).
Proof.
  destruct (run_auction two_slots) as [[[alloc pr] hist]| |] eqn:E;
    [|vm_compute in E; discriminate E ..].
  exists alloc, pr, hist. split; [reflexivity|].
  apply (allocation_phase_prices two_slots alloc pr hist E).
Defined.

Lemma allocation_is_injective_and_fills_from_the_bottom_three_slots :
  exists alloc pr hist,
    run_auction three_slots = Ok (alloc, pr, hist)
    /\ len alloc = n_slots three_slots
    /\ (forall j k, j <> k -> nth j alloc (-1) = nth k alloc (-1) ->
                    nth j alloc (-1) = -1)
    /\ (forall k, nth k alloc (-1) = -1
                  \/ 0 <= nth k alloc (-1) < n_advertisers three_slots)
    /\ (forall k, 0 <= k < n_slots three_slots ->
                  (nth (Z.to_nat k) alloc (-1) = -1
                   <-> 1 <= k <= n_slots three_slots
                                 - n_advertisers three_slots)).
Proof.
  destruct (run_auction three_slots) as [[[alloc pr] hist]| |] eqn:E;
    [|vm_compute in E; discriminate E ..].
  exists alloc, pr, hist. split; [reflexivity|].
  apply (allocation_is_injective_and_fills_from_the_bottom
           three_slots ltac:(simpl; lia) ltac:(vm_compute; discriminate)
           alloc pr hist E).
Defined.

(** ** Sorting *)

Section SortedLists.

Context {A : Type} (R : A -> A -> Prop).
Hypothesis R_trans : forall x y z, R x y -> R y z -> R x z.
Hypothesis R_antisym : forall x y, R x y -> R y x -> x = y.

Lemma Sorted_strongly (l : list A) : Sorted R l -> StronglySorted R l.
Proof.
  induction 1 as [|x l Hs IH Hhd]; constructor; auto.
  clear Hs. induction IH as [|y l Hy IH' Hall]; constructor.
  - now inversion Hhd.
  - inversion Hhd; subst. eapply Forall_impl; [|exact Hall].
    intros z Hz. eapply R_trans; eauto.
Qed.

(** A list has at most one sorted rearrangement. *)
Lemma sorted_rearrangement_unique (l1 l2 : list A) :
  Sorted R l1 -> Sorted R l2 -> Permutation l1 l2 -> l1 = l2.
Proof.
  intros H1 H2. apply Sorted_strongly in H1, H2. revert l2 H2.
  induction H1 as [|x l1 Hs1 IH Hall1]; intros l2 H2 Hp.
  - apply Permutation_nil in Hp. now subst.
  - destruct H2 as [|y l2 Hs2 Hall2].
    + apply Permutation_sym, Permutation_nil in Hp. discriminate.
    + assert (E : x = y).
      { assert (Hx : In x (y :: l2))
          by (eapply Permutation_in; [exact Hp | now left]).
        assert (Hy : In y (x :: l1))
          by (eapply Permutation_in;
              [apply Permutation_sym; exact Hp | now left]).
        destruct Hx as [Hx|Hx]; [congruence|].
        destruct Hy as [Hy|Hy]; [congruence|].
        rewrite Forall_forall in Hall1, Hall2.
        apply R_antisym; auto. }
      subst y. f_equal. apply IH; auto.
      eapply Permutation_cons_inv; eauto.
Qed.

End SortedLists.

Lemma Sorted_map {A B : Type} (f : A -> B) (R : B -> B -> Prop) (l : list A) :
  Sorted (fun x y => R (f x) (f y)) l -> Sorted R (map f l).
Proof.
  induction 1 as [|x l Hs IH Hhd]; simpl; constructor; auto.
  destruct Hhd; simpl; constructor; auto.
Qed.

Lemma insert_by_price_perm (x : Z * Qc) (l : list (Z * Qc)) :
  Permutation (insert_by_price x l) (x :: l).
Proof.
  induction l as [|y l IH]; simpl; [reflexivity|].
  destruct (Qc_ltb (snd y) (snd x)); [|reflexivity].
  rewrite IH. apply perm_swap.
Qed.

Lemma sort_by_price_perm (l : list (Z * Qc)) :
  Permutation (sort_by_price l) l.
Proof.
  induction l as [|x l IH]; simpl; [reflexivity|].
  rewrite insert_by_price_perm. now constructor.
Qed.

Lemma insert_by_price_sorted (x : Z * Qc) (l : list (Z * Qc)) :
  Sorted by_price l -> Sorted by_price (insert_by_price x l).
Proof.
  induction 1 as [|y l Hs IH Hhd]; simpl.
  - repeat constructor.
  - destruct (Qc_ltb (snd y) (snd x)) eqn:E.
    + apply Qc_ltb_true_iff, Qclt_le_weak in E. constructor; [assumption|].
      destruct l as [|z l]; simpl in *.
      * constructor. exact E.
      * destruct (Qc_ltb (snd z) (snd x)); constructor; auto.
        now inversion Hhd.
    + apply Qc_ltb_false_iff in E. repeat constructor; auto.
Qed.

Lemma sort_by_price_sorted (l : list (Z * Qc)) :
  Sorted by_price (sort_by_price l).
Proof.
  induction l as [|x l IH]; simpl; [constructor|].
  now apply insert_by_price_sorted.
Qed.

(** ** Two sorts with the contract of [np.argsort] *)

Lemma length_range_len {A : Type} (a : list A) :
  length (range 0 (len a)) = length a.
Proof. rewrite length_range. unfold len. lia. Qed.

Lemma map_fst_combine {A B : Type} (l1 : list A) (l2 : list B) :
  length l1 = length l2 -> map fst (combine l1 l2) = l1.
Proof.
  revert l2. induction l1 as [|x l1 IH]; intros [|y l2]; simpl; intros H;
    try discriminate; [reflexivity|].
  f_equal. apply IH. lia.
Qed.

Lemma map_snd_combine {A B : Type} (l1 : list A) (l2 : list B) :
  length l1 = length l2 -> map snd (combine l1 l2) = l2.
Proof.
  revert l2. induction l1 as [|x l1 IH]; intros [|y l2]; simpl; intros H;
    try discriminate; [reflexivity|].
  f_equal. apply IH. lia.
Qed.

Lemma map_fst_enumerate (a : list Qc) :
  map fst (enumerate a) = range 0 (len a).
Proof. apply map_fst_combine, length_range_len. Qed.

Lemma enumerate_keys (a : list Qc) (x : Z * Qc) :
  In x (enumerate a) -> snd x = nth (Z.to_nat (fst x)) a 0%Qc.
Proof.
  intros Hin. apply (In_nth _ _ (0, 0%Qc)) in Hin as (n & Hn & <-).
  unfold enumerate in *.
  rewrite length_combine, length_range_len, Nat.min_id in Hn.
  rewrite combine_nth by apply length_range_len. simpl.
  rewrite nth_range by (unfold len; lia). f_equal. lia.
Qed.

Lemma pick_of_keys (a : list Qc) (l : list (Z * Qc)) :
  (forall x, In x l -> snd x = nth (Z.to_nat (fst x)) a 0%Qc) ->
  pick a (map fst l) = map snd l.
Proof.
  intros H. unfold pick. rewrite map_map. apply map_ext_in.
  intros x Hx. symmetry. now apply H.
Qed.

Lemma argsort_of_rearrangement_perm (a : list Qc) (l : list (Z * Qc)) :
  Permutation l (enumerate a) ->
  Permutation (map fst (sort_by_price l)) (range 0 (len a)).
Proof.
  intros H. rewrite <- map_fst_enumerate. apply Permutation_map.
  now rewrite sort_by_price_perm.
Qed.

Lemma argsort_of_rearrangement_sorted (a : list Qc) (l : list (Z * Qc)) :
  Permutation l (enumerate a) ->
  Sorted Qcle (pick a (map fst (sort_by_price l))).
Proof.
  intros H. rewrite pick_of_keys.
  - apply Sorted_map. apply sort_by_price_sorted.
  - intros x Hx. apply enumerate_keys.
    eapply Permutation_in; [|exact Hx]. now rewrite sort_by_price_perm.
Qed.

Definition stable_sort : ArgSort := {|
  argsort := argsort_stable;
  argsort_perm a := argsort_of_rearrangement_perm a _ (Permutation_refl _);
  argsort_sorted a := argsort_of_rearrangement_sorted a _ (Permutation_refl _)
|}.





(** ** Sums over a range of indices *)

Lemma np_sum_app (l1 l2 : list Qc) :
  np_sum (l1 ++ l2) = (np_sum l1 + np_sum l2)%Qc.
Proof.
  induction l1 as [|x l1 IH]; simpl; [ring|]. rewrite IH. ring.
Qed.

Lemma map_seq_from {B : Type} (f : nat -> B) (s n : nat) :
  map f (seq s n) = map (fun k => f (s + k)%nat) (seq 0 n).
Proof.
  revert f s. induction n as [|n IH]; intros f s; simpl; [reflexivity|].
  rewrite Nat.add_0_r. f_equal.
  rewrite (IH f (S s)), (IH (fun k => f (s + k)%nat) 1%nat).
  apply map_ext. intros k. f_equal. lia.
Qed.

Lemma range_split (a m b : Z) :
  a <= m <= b -> range a b = range a m ++ range m b.
Proof.
  intros H. unfold range.
  replace (Z.to_nat (b - a)) with (Z.to_nat (m - a) + Z.to_nat (b - m))%nat
    by lia.
  rewrite seq_app, map_app. f_equal.
  rewrite map_seq_from. apply map_ext. intros k. lia.
Qed.

Lemma sum_range_empty (f : Z -> Qc) (a b : Z) :
  b <= a -> sum_range f a b = 0%Qc.
Proof. intros H. unfold sum_range. now rewrite range_empty. Qed.

Lemma sum_range_first (f : Z -> Qc) (a b : Z) :
  a < b -> sum_range f a b = (f a + sum_range f (a + 1) b)%Qc.
Proof. intros H. unfold sum_range. now rewrite range_cons. Qed.

Lemma sum_range_split (f : Z -> Qc) (a m b : Z) :
  a <= m <= b -> sum_range f a b = (sum_range f a m + sum_range f m b)%Qc.
Proof.
  intros H. unfold sum_range.
  now rewrite (range_split a m b), map_app, np_sum_app.
Qed.

Lemma sum_range_last (f : Z -> Qc) (a b : Z) :
  a <= b -> sum_range f a (b + 1) = (sum_range f a b + f b)%Qc.
Proof.
  intros H. rewrite (sum_range_split f a b (b + 1)) by lia. f_equal.
  rewrite sum_range_first, sum_range_empty by lia. ring.
Qed.

Lemma sum_range_ext (f g : Z -> Qc) (a b : Z) :
  (forall j, a <= j < b -> f j = g j) -> sum_range f a b = sum_range g a b.
Proof.
  intros H. unfold sum_range. f_equal. apply map_ext_in.
  intros j Hj. apply H. now apply in_range.
Qed.

Lemma sum_range_shift (f : Z -> Qc) (a b : Z) :
  sum_range f (a + 1) (b + 1) = sum_range (fun j => f (j + 1)) a b.
Proof.
  unfold sum_range, range. rewrite !map_map.
  replace (b + 1 - (a + 1)) with (b - a) by lia. f_equal.
  apply map_ext. intros k. f_equal. lia.
Qed.

Lemma sum_range_minus (f g : Z -> Qc) (a b : Z) :
  sum_range (fun j => f j - g j)%Qc a b
  = (sum_range f a b - sum_range g a b)%Qc.
Proof.
  unfold sum_range. induction (range a b) as [|j l IH]; simpl; [ring|].
  rewrite IH. ring.
Qed.

(** A loop that adds [g j] to an accumulator, for [j] in a list. *)
Lemma foldM_accumulates {B : Type} (step : Qc -> B -> result Qc)
  (g : B -> Qc) (l : list B) (acc : Qc) :
  (forall x j, In j l -> step x j = Ok (x + g j)%Qc) ->
  foldM step l acc = Ok (acc + np_sum (map g l))%Qc.
Proof.
  revert acc. induction l as [|j l IH]; simpl; intros acc H.
  - f_equal. ring.
  - rewrite H by now left. simpl. rewrite IH by auto. f_equal. ring.
Qed.

(** ** The closed-form VCG prices *)

Lemma foldM_app {A B : Type} (f : A -> B -> result A) (l1 l2 : list B) (a : A) :
  foldM f (l1 ++ l2) a = (a' <- foldM f l1 a ;; foldM f l2 a').
Proof.
  revert a. induction l1 as [|x l1 IH]; simpl; intros a; [reflexivity|].
  destruct (f a x); simpl; auto.
Qed.

Section Ranking.

Variable n : Z.
Variable rank : list Z.
Hypothesis rank_perm : Permutation rank (range 0 n).
Hypothesis n_nonneg : 0 <= n.

Lemma len_rank : len rank = n.
Proof.
  unfold len. rewrite (Permutation_length rank_perm), length_range. lia.
Qed.

Lemma rank_at_range (i : Z) : 0 <= i < n -> 0 <= rank_at rank i < n.
Proof.
  intros Hi. apply in_range. eapply Permutation_in; [exact rank_perm|].
  apply nth_In. pose proof len_rank as H. unfold len in H. lia.
Qed.

Lemma rank_at_injective (i j : Z) :
  0 <= i < n -> 0 <= j < n -> rank_at rank i = rank_at rank j -> i = j.
Proof.
  intros Hi Hj E. pose proof len_rank as H. unfold len in H.
  assert (Hnd : NoDup rank).
  { eapply Permutation_NoDup; [apply Permutation_sym; exact rank_perm|].
    apply NoDup_range. }
  rewrite NoDup_nth in Hnd. unfold rank_at in E.
  apply Hnd in E; lia.
Qed.

Lemma getitem_rank (i : Z) :
  0 <= i < n -> getitem rank i = Ok (rank_at rank i).
Proof.
  intros Hi. apply getitem_nonneg. now rewrite len_rank.
Qed.

(** Writing [g i] at position [rank[i]] for the first [m] ranks. *)
Lemma foldM_scatter (f : Z -> result Qc) (g : Z -> Qc) (acc : list Qc)
  (m : nat) :
  Z.of_nat m <= n -> len acc = n ->
  (forall i, 0 <= i < Z.of_nat m -> f i = Ok (g i)) ->
  exists acc',
    foldM (fun ps i =>
             adv <- getitem rank i ;; price <- f i ;; setitem ps adv price)
          (range 0 (Z.of_nat m)) acc = Ok acc'
    /\ len acc' = n
    /\ (forall i, 0 <= i < Z.of_nat m ->
                  nth (Z.to_nat (rank_at rank i)) acc' 0%Qc = g i)
    /\ (forall i, Z.of_nat m <= i < n ->
                  nth (Z.to_nat (rank_at rank i)) acc' 0%Qc
                  = nth (Z.to_nat (rank_at rank i)) acc 0%Qc).
Proof.
  intros Hm Hlen. induction m as [|m IH]; intros Hf.
  - exists acc. simpl. repeat split; auto. intros i Hi. lia.
  - destruct IH as (acc1 & Hfold & Hlen1 & Hdone & Hrest); [lia| |].
    { intros i Hi. apply Hf. lia. }
    pose proof (rank_at_range (Z.of_nat m) ltac:(lia)) as Hr.
    rewrite (range_split 0 (Z.of_nat m) (Z.of_nat (S m))) by lia.
    rewrite foldM_app, Hfold. cbn [bind].
    rewrite (range_cons (Z.of_nat m)), range_empty by lia. cbn [foldM].
    rewrite getitem_rank by lia. cbn [bind].
    rewrite Hf by lia. cbn [bind].
    rewrite setitem_nonneg by lia. cbn [bind].
    eexists. split; [reflexivity|]. split; [now rewrite len_update|].
    split.
    + intros i Hi. destruct (Z.eq_dec i (Z.of_nat m)) as [->|Hne].
      * apply nth_update_eq. unfold len in Hlen1. lia.
      * rewrite nth_update_neq; [apply Hdone; lia|].
        intros E. apply Hne. symmetry.
        pose proof (rank_at_range i ltac:(lia)).
        apply rank_at_injective; lia.
    + intros i Hi. rewrite nth_update_neq; [apply Hrest; lia|].
      intros E. assert (Z.of_nat m = i); [|lia].
      pose proof (rank_at_range i ltac:(lia)).
      apply rank_at_injective; lia.
Qed.

End Ranking.

Lemma vcg_price_closed_form (self : GeneralizedEnglishAuction)
  (rank : list Z) (i : Z) :
  len (ctrs self) = n_slots self + 1 ->
  Permutation rank (range 0 (n_advertisers self)) ->
  0 <= i < n_slots self ->
  vcg_price self rank i = Ok (closed_form_price self rank i).
Proof.
  intros Hlen Hperm Hi.
  pose proof (len_rank _ _ Hperm (len_nonneg _)) as Hlr.
  unfold vcg_price, closed_form_price, externality, sum_range.
  replace (Z.min (n_slots self) (len rank - 1) + 1)
    with (Z.min (n_slots self + 1) (len rank)) by lia.
  rewrite foldM_accumulates with
    (g := fun j => ((ctr self (j - 1) - ctr self j)
                    * value_of self (rank_at rank j))%Qc).
  - cbn [bind]. rewrite (getitem_nonneg _ _ 0%Qc) by lia. cbn [bind].
    fold (ctr self i). destruct (Qc_ltb 0 (ctr self i)) eqn:E; [|reflexivity].
    apply Qc_ltb_true_iff in E. rewrite truediv_nonzero.
    + f_equal. f_equal. ring.
    + intros Hz. rewrite Hz in E. exact (Qclt_not_eq _ _ E eq_refl).
  - intros x j Hj. apply in_range in Hj.
    pose proof (rank_at_range _ _ Hperm (len_nonneg _) j ltac:(lia)) as Hr.
    rewrite (getitem_rank _ _ Hperm (len_nonneg _)) by lia. cbn [bind].
    rewrite (getitem_nonneg _ (j - 1) 0%Qc) by lia. cbn [bind].
    rewrite (getitem_nonneg _ j 0%Qc) by lia. cbn [bind].
    rewrite (getitem_nonneg _ _ 0%Qc) by (unfold n_advertisers in Hr; lia).
    reflexivity.
Qed.

Lemma Qcopp_zero : (- 0 = 0)%Qc.
Proof. ring. Qed.

Lemma nth_map_opp (l : list Qc) (k : nat) :
  nth k (map Qcopp l) 0%Qc = (- nth k l 0)%Qc.
Proof.
  transitivity (nth k (map Qcopp l) (- 0)%Qc).
  - now rewrite Qcopp_zero.
  - apply map_nth.
Qed.

Lemma length_pick (a : list Qc) (idx : list Z) :
  length (pick a idx) = length idx.
Proof. apply length_map. Qed.

Lemma pick_nth (a : list Qc) (idx : list Z) (k : nat) :
  (k < length idx)%nat ->
  nth k (pick a idx) 0%Qc = nth (Z.to_nat (nth k idx 0)) a 0%Qc.
Proof.
  intros Hk. unfold pick.
  rewrite (nth_indep _ 0%Qc (nth (Z.to_nat 0) a 0%Qc))
    by now rewrite length_map.
  apply (map_nth (fun i => nth (Z.to_nat i) a 0%Qc)).
Qed.

Lemma StronglySorted_nth {A : Type} (R : A -> A -> Prop) (l : list A)
  (d : A) (i j : nat) :
  StronglySorted R l -> (i < j < length l)%nat -> R (nth i l d) (nth j l d).
Proof.
  intros H. revert i j. induction H as [|x l Hs IH Hall]; simpl; intros i j Hij;
    [lia|].
  destruct j as [|j]; [lia|]. destruct i as [|i].
  - rewrite Forall_forall in Hall. apply Hall, nth_In. lia.
  - apply IH. lia.
Qed.

(** Along the ranking of [np.argsort(-values)] the values do not increase. *)
Lemma ranking_descends `{ArgSort} (self : GeneralizedEnglishAuction) (i j : Z) :
  0 <= i <= j -> j < n_advertisers self ->
  (value_of self (rank_at (argsort (map Qcopp (values self))) j)
   <= value_of self (rank_at (argsort (map Qcopp (values self))) i))%Qc.
Proof.
  intros Hij Hj. set (rank := argsort (map Qcopp (values self))).
  assert (Hperm : Permutation rank (range 0 (n_advertisers self))).
  { unfold rank. rewrite argsort_perm. unfold n_advertisers, len.
    now rewrite length_map. }
  pose proof (len_rank _ _ Hperm (len_nonneg _)) as Hlr. unfold len in Hlr.
  destruct (Z.eq_dec i j) as [->|Hne]; [apply Qcle_refl|].
  pose proof (argsort_sorted (map Qcopp (values self))) as Hs.
  fold rank in Hs.
  apply (Sorted_strongly _ Qcle_trans) in Hs.
  pose proof (StronglySorted_nth _ _ 0%Qc (Z.to_nat i) (Z.to_nat j) Hs) as Hle.
  rewrite length_pick in Hle. specialize (Hle ltac:(lia)).
  rewrite !pick_nth in Hle by lia.
  rewrite !nth_map_opp in Hle.
  apply Qcopp_le_compat in Hle. rewrite !Qcopp_involutive in Hle.
  exact Hle.
Qed.

Lemma argsort_values_perm `{ArgSort} (self : GeneralizedEnglishAuction) :
  Permutation (argsort (map Qcopp (values self)))
              (range 0 (n_advertisers self)).
Proof.
  rewrite argsort_perm. unfold n_advertisers, len. now rewrite length_map.
Qed.

(** The outer loop: each rank below [n_slots] writes its price into the
    cell of its advertiser, the other cells keep their 0. *)
Lemma calculate_vcg_payments_by_rank `{ArgSort}
  (self : GeneralizedEnglishAuction) :
  len (ctrs self) = n_slots self + 1 ->
  let rank := argsort (map Qcopp (values self)) in
  exists vcg,
    calculate_vcg_payments self = Ok vcg
    /\ len vcg = n_advertisers self
    /\ forall i, 0 <= i < n_advertisers self ->
         getitem vcg (rank_at rank i) =
           Ok (if i <? n_slots self then closed_form_price self rank i
               else 0%Qc).
Proof.
  intros Hlen rank.
  pose proof (argsort_values_perm self) as Hperm. fold rank in Hperm.
  pose proof (len_nonneg (values self)) as Hn. fold (n_advertisers self) in Hn.
  pose proof (len_nonneg (ctrs self)) as Hc.
  pose proof (len_rank _ _ Hperm Hn) as Hlr.
  set (m := Z.min (n_slots self) (n_advertisers self)).
  destruct (foldM_scatter _ rank Hperm Hn (vcg_price self rank)
              (closed_form_price self rank)
              (replicate 0%Qc (n_advertisers self)) (Z.to_nat m))
    as (vcg & Hfold & Hlv & Hdone & Hrest).
  - lia.
  - now apply len_replicate.
  - intros i Hi. apply vcg_price_closed_form; auto. lia.
  - exists vcg. split; [|split; [exact Hlv|]].
    + unfold calculate_vcg_payments. fold rank. rewrite Hlr. fold m.
      replace (range 0 m) with (range 0 (Z.of_nat (Z.to_nat m)));
        [exact Hfold|]. unfold range. do 2 f_equal. lia.
    + intros i Hi. pose proof (rank_at_range _ _ Hperm Hn i Hi) as Hr.
      rewrite (getitem_nonneg _ _ 0%Qc) by lia. f_equal.
      destruct (Z.ltb_spec i (n_slots self)).
      * apply Hdone. lia.
      * rewrite Hrest by lia. apply nth_replicate_same.
Qed.


(** ** Rankings without ties *)

Lemma pick_range (a : list Qc) : pick a (range 0 (len a)) = a.
Proof.
  apply (nth_ext _ _ 0%Qc 0%Qc).
  - now rewrite length_pick, length_range_len.
  - intros k Hk. rewrite length_pick, length_range_len in Hk.
    rewrite pick_nth by now rewrite length_range_len.
    rewrite nth_range by (unfold len; lia). f_equal. lia.
Qed.

Lemma pick_perm (a : list Qc) (idx : list Z) :
  Permutation idx (range 0 (len a)) -> Permutation (pick a idx) a.
Proof.
  intros H. rewrite <- (pick_range a) at 2. now apply Permutation_map.
Qed.

Lemma pick_injective (a : list Qc) (idx1 idx2 : list Z) :
  NoDup a ->
  Forall (fun i => 0 <= i < len a) idx1 ->
  Forall (fun i => 0 <= i < len a) idx2 ->
  pick a idx1 = pick a idx2 -> idx1 = idx2.
Proof.
  intros Hnd H1. revert idx2.
  induction H1 as [|i idx1 Hi _ IH]; intros idx2 H2 E;
    destruct H2 as [|j idx2 Hj H2]; simpl in E; try discriminate;
    [reflexivity|].
  inversion E as [[Eh Et]]. f_equal; [|now apply IH].
  rewrite NoDup_nth in Hnd. unfold len in *.
  apply Hnd in Eh; lia.
Qed.

(** When the keys are pairwise distinct, [np.argsort] has one possible
    result. *)
Lemma argsort_unique_without_ties (S1 S2 : ArgSort) (a : list Qc) :
  NoDup a -> @argsort S1 a = @argsort S2 a.
Proof.
  intros Hnd.
  assert (Hr : forall S : ArgSort,
             Forall (fun i => 0 <= i < len a) (@argsort S a)).
  { intros S. apply Forall_forall. intros i Hi. apply in_range.
    eapply Permutation_in; [apply argsort_perm | exact Hi]. }
  apply (pick_injective a); auto.
  apply (sorted_rearrangement_unique Qcle Qcle_trans Qcle_antisym).
  - apply argsort_sorted.
  - apply argsort_sorted.
  - rewrite !pick_perm by apply argsort_perm. reflexivity.
Qed.

(** ** The VCG prices on concrete instances *)



Lemma known_scenario_no_ties : NoDup (map Qcopp (values known_scenario)).
Proof.
  repeat constructor; simpl; intros H;
    repeat match goal with H : _ \/ _ |- _ => destruct H end;
    try contradiction;
    match goal with H : @eq Qc _ _ |- _ => revert H; qc_order end.
Qed.

(** The documented scenario in exact arithmetic: the prices are 18/5, 2
    and 0, whatever [np.argsort] does with ties (there are none). *)
Lemma known_scenario_exact_prices `{ArgSort} :
  calculate_vcg_payments known_scenario
  = Ok [Q2Qc (36 # 10); Q2Qc 2; 0%Qc]
  /\ Q2Qc (36 # 10)
     = (((1 - Q2Qc (6 # 10)) * Q2Qc 6 + (Q2Qc (6 # 10) - 0) * Q2Qc 2) / 1)%Qc.
Proof.
  split; [|qc_order].
  unfold calculate_vcg_payments.
  rewrite (argsort_unique_without_ties _ stable_sort)
    by exact known_scenario_no_ties.
  match goal with |- ?lhs = _ => destruct lhs as [vcg| |] eqn:E end;
    vm_compute in E; try discriminate E.
  inversion E; subst. f_equal; qc_list.
Qed.

(** C9, refuted as stated.  In the documented scenario, computed in
    doubles as the program does, the highest-value advertiser is
    advertiser 0 and its per-click price is neither the double 2.4 nor the
    value of [(1.0 - 0.6) * 6 / 1.0], which is 2.4000000000000004. *)
Lemma known_scenario_price_is_not_2_4 :
  Binary64.np_argsort
    (map PrimFloat.opp (Binary64.values known_scenario_doubles)) = [0; 1; 2]
  /\ exists vcg p,
       Binary64.calculate_vcg_payments known_scenario_doubles = Ok vcg
       /\ getitem vcg 0 = Ok p
       /\ PrimFloat.eqb p 2.4%float = false
       /\ PrimFloat.eqb p ((1.0 - 0.6) * 6 / 1.0)%float = false
       /\ ((1.0 - 0.6) * 6 / 1.0 = 2.4000000000000004)%float.
Proof.
  split; [reflexivity|].
  exists [3.6000000000000005; 2; 0]%float, 3.6000000000000005%float.
  repeat split; reflexivity.
Qed.

(** C9, amended.  In the documented scenario [calculate_vcg_payments]
    returns the doubles 3.6000000000000005, 2.0 and 0.  The price of the
    highest-value advertiser has two terms: it is the value in doubles of
    [(0 + (1.0 - 0.6) * 6 + (0.6 - 0) * 2) / 1.0], which in exact
    arithmetic is 3.6. *)
Theorem known_scenario_prices :
  Binary64.calculate_vcg_payments known_scenario_doubles
  = Ok [3.6000000000000005; 2; 0]%float
  /\ ((0 + (1.0 - 0.6) * 6 + (0.6 - 0) * 2) / 1.0
      = 3.6000000000000005)%float
  /\ PrimFloat.eqb 3.6000000000000005 3.6 = false.
Proof. repeat split; reflexivity. Qed.

(** ** The counterfactual payments of [simulate_auctions] *)

Lemma descending_trans (x y z : Qc) :
  descending x y -> descending y z -> descending x z.
Proof. unfold descending. intros. eapply Qcle_trans; eauto. Qed.

Lemma descending_antisym (x y : Qc) :
  descending x y -> descending y x -> x = y.
Proof. unfold descending. intros. now apply Qcle_antisym. Qed.

Lemma insert_asc_perm (x : Qc) (l : list Qc) :
  Permutation (insert_asc x l) (x :: l).
Proof.
  induction l as [|y l IH]; simpl; [reflexivity|].
  destruct (Qc_ltb y x); [|reflexivity].
  rewrite IH. apply perm_swap.
Qed.

Lemma np_sort_perm (l : list Qc) : Permutation (np_sort l) l.
Proof.
  induction l as [|x l IH]; simpl; [reflexivity|].
  rewrite insert_asc_perm. now constructor.
Qed.

Lemma insert_asc_sorted (x : Qc) (l : list Qc) :
  Sorted Qcle l -> Sorted Qcle (insert_asc x l).
Proof.
  induction 1 as [|y l Hs IH Hhd]; simpl.
  - repeat constructor.
  - destruct (Qc_ltb y x) eqn:E.
    + apply Qc_ltb_true_iff, Qclt_le_weak in E. constructor; [assumption|].
      destruct l as [|z l]; simpl in *.
      * constructor. exact E.
      * destruct (Qc_ltb z x); constructor; auto. now inversion Hhd.
    + apply Qc_ltb_false_iff in E. repeat constructor; auto.
Qed.

Lemma np_sort_sorted (l : list Qc) : Sorted Qcle (np_sort l).
Proof.
  induction l as [|x l IH]; simpl; [constructor|].
  now apply insert_asc_sorted.
Qed.

Lemma StronglySorted_snoc {A : Type} (R : A -> A -> Prop) (l : list A) (x : A) :
  StronglySorted R l -> Forall (fun y => R y x) l ->
  StronglySorted R (l ++ [x]).
Proof.
  induction 1 as [|y l Hs IH Hall]; simpl; intros Hx.
  - repeat constructor.
  - inversion Hx; subst. constructor; auto.
    apply Forall_app. split; auto.
Qed.

Lemma rev_ascending_is_descending (l : list Qc) :
  Sorted Qcle l -> Sorted descending (rev l).
Proof.
  intros H. apply (Sorted_strongly _ Qcle_trans) in H.
  apply StronglySorted_Sorted.
  induction H as [|x l Hs IH Hall]; simpl; [constructor|].
  apply StronglySorted_snoc; [assumption|].
  apply Forall_rev. exact Hall.
Qed.

Lemma remove_nth_sorted {A : Type} (R : A -> A -> Prop) (l : list A) (k : nat) :
  StronglySorted R l -> StronglySorted R (remove_nth l k).
Proof.
  intros H. revert k. induction H as [|x l Hs IH Hall]; intros [|k]; simpl;
    try constructor; auto.
  rewrite Forall_forall in *. intros y Hy. apply Hall.
  clear - Hy. revert k Hy. induction l as [|z l IHl]; intros [|k]; simpl;
    intros Hy; auto.
  destruct Hy as [Hy|Hy]; eauto.
Qed.

(** Sorting a descending list and reversing the result gives it back. *)
Lemma sort_then_reverse_descending (l : list Qc) :
  Sorted descending l -> rev (np_sort l) = l.
Proof.
  intros H.
  apply (sorted_rearrangement_unique descending descending_trans
           descending_antisym).
  - apply rev_ascending_is_descending, np_sort_sorted.
  - exact H.
  - rewrite <- Permutation_rev. apply np_sort_perm.
Qed.

Lemma map_opp_ascending_is_descending (l : list Qc) :
  Sorted Qcle (map Qcopp l) -> Sorted descending l.
Proof.
  induction l as [|x l IH]; simpl; intros H; [constructor|].
  inversion H as [|? ? Hs Hhd]; subst. constructor; auto.
  destruct l as [|y l]; simpl in *; constructor.
  inversion Hhd as [|? ? Hle]; subst. unfold descending.
  apply Qcopp_le_compat in Hle. now rewrite !Qcopp_involutive in Hle.
Qed.

Lemma length_remove_nth {A : Type} (l : list A) (k : nat) :
  (k < length l)%nat -> length (remove_nth l k) = (length l - 1)%nat.
Proof.
  revert k. induction l as [|x l IH]; intros [|k]; simpl; intros H; try lia.
  rewrite IH by lia. lia.
Qed.

Lemma nth_remove_nth {A : Type} (l : list A) (k j : nat) (d : A) :
  nth j (remove_nth l k) d = if (j <? k)%nat then nth j l d else nth (S j) l d.
Proof.
  revert k j. induction l as [|x l IH]; intros [|k] [|j]; simpl; auto.
  - now destruct (_ <? _)%nat.
  - rewrite IH. reflexivity.
Qed.

(** The sum of the elementwise product of two arrays of equal length. *)
Lemma dot_as_sum_range (c v : list Qc) :
  length c = length v ->
  np_sum (map (fun p => (fst p * snd p)%Qc) (combine c v))
  = sum_range (fun k => nth (Z.to_nat k) c 0 * nth (Z.to_nat k) v 0)%Qc
              0 (len c).
Proof.
  revert v. induction c as [|x c IH]; intros [|y v] Hlen; simpl in Hlen;
    try discriminate; [reflexivity|].
  pose proof (len_nonneg c).
  rewrite len_cons, sum_range_first, sum_range_shift by lia.
  cbn [map combine np_sum fold_right fst snd]. fold (np_sum).
  change (fold_right Qcplus 0%Qc ?l) with (np_sum l).
  rewrite IH by lia. f_equal.
  apply sum_range_ext. intros j Hj.
  replace (Z.to_nat (j + 1)) with (S (Z.to_nat j)) by lia. reflexivity.
Qed.

(** The externality of rank [i], two ways: what the others gain when [i]
    is deleted, and the telescoping sum of the closed form.  [c] are the
    slot rates, [C] the same followed by 0, [sv] the values by rank. *)
Lemma externality_identity (c C sv : Z -> Qc) (i n : Z) :
  0 <= i < n ->
  (forall k, 0 <= k < n -> C k = c k) -> C n = 0%Qc ->
  Qcminus
    (sum_range (fun k => Qcmult (c k) (if k <? i then sv k else sv (k + 1)))
               0 n)
    (Qcminus (sum_range (fun k => Qcmult (c k) (sv k)) 0 n)
             (Qcmult (c i) (sv i)))
  = sum_range (fun j => Qcmult (Qcminus (C (j - 1)) (C j)) (sv j))
              (i + 1) (n + 1).
Proof.
  intros Hi HC HCn.
  rewrite (sum_range_split _ 0 i n) by lia.
  rewrite (sum_range_split (fun k => Qcmult (c k) (sv k)) 0 i n) by lia.
  rewrite (sum_range_first (fun k => Qcmult (c k) (sv k)) i n) by lia.
  rewrite (sum_range_ext _ (fun k => Qcmult (c k) (sv k)) 0 i).
  2:{ intros k Hk. destruct (Z.ltb_spec k i); [reflexivity|lia]. }
  rewrite (sum_range_ext _ (fun k => Qcmult (c k) (sv (k + 1))) i n).
  2:{ intros k Hk. destruct (Z.ltb_spec k i); [lia|reflexivity]. }
  rewrite (sum_range_ext
             (fun j => Qcmult (Qcminus (C (j - 1)) (C j)) (sv j))
             (fun j => Qcminus (Qcmult (C (j - 1)) (sv j))
                               (Qcmult (C j) (sv j)))).
  2:{ intros j Hj. ring. }
  rewrite (sum_range_minus (fun j => Qcmult (C (j - 1)) (sv j))
             (fun j => Qcmult (C j) (sv j))).
  rewrite (sum_range_shift (fun j => Qcmult (C (j - 1)) (sv j))).
  rewrite (sum_range_last (fun j => Qcmult (C j) (sv j))) by lia.
  rewrite (sum_range_ext
             (fun j => Qcmult (C (j + 1 - 1)) (sv (j + 1)))
             (fun k => Qcmult (c k) (sv (k + 1))) i n).
  2:{ intros k Hk. replace (k + 1 - 1) with k by lia. now rewrite HC by lia. }
  rewrite (sum_range_ext (fun j => Qcmult (C j) (sv j))
             (fun k => Qcmult (c k) (sv k)) (i + 1) n).
  2:{ intros k Hk. now rewrite HC by lia. }
  rewrite HCn. ring.
Qed.

Lemma np_delete_nonneg (a : list Qc) (i : Z) :
  0 <= i < len a -> np_delete a i = Ok (remove_nth a (Z.to_nat i)).
Proof.
  intros Hi. unfold np_delete. rewrite norm_index_nonneg by lia.
  destruct (Z.leb_spec 0 i); [|lia].
  destruct (Z.ltb_spec i (len a)); [|lia]. reflexivity.
Qed.

Lemma slice_to_nonneg {A : Type} (l : list A) (n : Z) :
  0 <= n -> slice_to l n = firstn (Z.to_nat n) l.
Proof.
  intros Hn. unfold slice_to. destruct (Z.ltb_spec n 0); [lia|reflexivity].
Qed.

Lemma np_mul_same_length (a b : list Qc) :
  len a = len b ->
  np_mul a b = Ok (map (fun p => (fst p * snd p)%Qc) (combine a b)).
Proof. intros H. unfold np_mul. now rewrite H, Z.eqb_refl. Qed.

Lemma getitem_map_range {B : Type} (g : Z -> B) (n i : Z) :
  0 <= i < n -> getitem (map g (range 0 n)) i = Ok (g i).
Proof.
  intros Hi.
  rewrite (getitem_nonneg _ _ (g 0))
    by (unfold len; rewrite length_map, length_range; lia).
  rewrite map_nth, nth_range by lia. f_equal. f_equal. lia.
Qed.

Lemma np_take_pick (a : list Qc) (idx : list Z) :
  Forall (fun i => 0 <= i < len a) idx -> np_take a idx = Ok (pick a idx).
Proof.
  intros H. unfold np_take, pick. apply mapM_Ok_intro.
  intros i Hi. rewrite Forall_forall in H.
  now apply getitem_nonneg, H.
Qed.

Section Counterfactual.

Context `{ArgSort}.

Variable n : Z.
Variables cs vals : list Qc.
Hypothesis cs_len : len cs = n.
Hypothesis cs_positive : Forall (fun c => 0 < c)%Qc cs.
Hypothesis more_advertisers : n < len vals.

Let self : GeneralizedEnglishAuction :=
  {| n_slots := n; ctrs := cs ++ [0%Qc]; values := vals |}.
Let rank : list Z := argsort (map Qcopp vals).
Let sv : list Qc := pick vals rank.

Lemma rank_is_permutation : Permutation rank (range 0 (len vals)).
Proof.
  unfold rank. rewrite argsort_perm. unfold len. now rewrite length_map.
Qed.

Lemma rank_in_range : Forall (fun i => 0 <= i < len vals) rank.
Proof.
  apply Forall_forall. intros i Hi. apply in_range.
  eapply Permutation_in; [apply rank_is_permutation | exact Hi].
Qed.

Lemma len_sv : len sv = len vals.
Proof.
  unfold sv, len. rewrite length_pick.
  pose proof (len_rank _ _ rank_is_permutation (len_nonneg _)) as Hl.
  unfold len in Hl. lia.
Qed.

Lemma sv_descending : Sorted descending sv.
Proof.
  apply map_opp_ascending_is_descending.
  pose proof (argsort_sorted (map Qcopp vals)) as Hs. fold rank in Hs.
  replace (map Qcopp sv) with (pick (map Qcopp vals) rank); [exact Hs|].
  unfold sv, pick. rewrite map_map. apply map_ext.
  intros i. apply nth_map_opp.
Qed.

Lemma cs_nonzero (i : Z) : 0 <= i < n -> nth (Z.to_nat i) cs 0%Qc <> 0%Qc.
Proof.
  intros Hi Hz. rewrite Forall_forall in cs_positive.
  assert (Hin : In (nth (Z.to_nat i) cs 0%Qc) cs)
    by (apply nth_In; unfold len in cs_len; lia).
  apply cs_positive in Hin. rewrite Hz in Hin.
  exact (Qclt_not_eq _ _ Hin eq_refl).
Qed.

Lemma vcg_payments_counterfactual :
  vcg_payments n cs vals = Ok (map (counterfactual_payment n cs sv) (range 0 n)).
Proof.
  pose proof (len_nonneg cs) as Hn. rewrite cs_len in Hn.
  pose proof len_sv as Hsv.
  unfold vcg_payments. fold rank.
  rewrite np_take_pick by apply rank_in_range. fold sv. cbn [bind].
  apply mapM_Ok_intro. intros i Hi. apply in_range in Hi.
  rewrite np_delete_nonneg by lia. cbn [bind].
  rewrite sort_then_reverse_descending.
  2:{ apply StronglySorted_Sorted, remove_nth_sorted.
      apply (Sorted_strongly _ descending_trans), sv_descending. }
  rewrite !slice_to_nonneg by lia.
  assert (Hcs : firstn (Z.to_nat n) cs = cs)
    by (apply firstn_all2; unfold len in cs_len; lia).
  rewrite Hcs.
  assert (Hl1 : length (firstn (Z.to_nat n) sv) = length cs).
  { rewrite length_firstn. unfold len in *. lia. }
  assert (Hl2 : length (firstn (Z.to_nat n)
                          (remove_nth sv (Z.to_nat i))) = length cs).
  { rewrite length_firstn, length_remove_nth; unfold len in *; lia. }
  rewrite !np_mul_same_length by (unfold len; lia). cbn [bind].
  rewrite (getitem_nonneg cs i 0%Qc) by lia. cbn [bind].
  rewrite (getitem_nonneg _ i 0%Qc) by (unfold len in *; lia). cbn [bind].
  rewrite truediv_nonzero by now apply cs_nonzero.
  f_equal. unfold counterfactual_payment. f_equal.
  rewrite !dot_as_sum_range by lia. rewrite cs_len.
  rewrite nth_firstn.
  destruct (Nat.ltb_spec (Z.to_nat i) (Z.to_nat n)); [|lia].
  f_equal; [|f_equal]; apply sum_range_ext; intros k Hk; f_equal.
  - rewrite nth_firstn, nth_remove_nth.
    destruct (Nat.ltb_spec (Z.to_nat k) (Z.to_nat n)); [|lia].
    destruct (Nat.ltb_spec (Z.to_nat k) (Z.to_nat i));
      destruct (Z.ltb_spec k i); try lia; [reflexivity|].
    f_equal. lia.
  - rewrite nth_firstn.
    destruct (Nat.ltb_spec (Z.to_nat k) (Z.to_nat n)); [reflexivity|lia].
Qed.

Lemma closed_form_is_counterfactual (i : Z) :
  0 <= i < n -> closed_form_price self rank i = counterfactual_payment n cs sv i.
Proof.
  intros Hi. unfold closed_form_price, counterfactual_payment.
  pose proof (len_rank _ _ rank_is_permutation (len_nonneg _)) as Hlr.
  assert (Hctr : forall k, 0 <= k < n ->
                   ctr self k = nth (Z.to_nat k) cs 0%Qc).
  { intros k Hk. unfold ctr, self. simpl. apply app_nth1.
    unfold len in cs_len. lia. }
  assert (Hlast : ctr self n = 0%Qc).
  { unfold ctr, self. simpl. rewrite app_nth2 by (unfold len in cs_len; lia).
    replace (Z.to_nat n - length cs)%nat with 0%nat
      by (unfold len in cs_len; lia). reflexivity. }
  rewrite Hctr by lia.
  assert (Hpos : (0 < nth (Z.to_nat i) cs 0)%Qc).
  { rewrite Forall_forall in cs_positive. apply cs_positive, nth_In.
    unfold len in cs_len. lia. }
  apply Qc_ltb_true_iff in Hpos. rewrite Hpos. f_equal.
  unfold externality. rewrite Hlr.
  replace (Z.min (n_slots self) (len vals - 1)) with n by (simpl; lia).
  rewrite externality_identity
    with (C := ctr self) (sv := fun k => nth (Z.to_nat k) sv 0%Qc);
    auto.
  apply sum_range_ext. intros j Hj. f_equal.
  unfold value_of, rank_at, sv. simpl. symmetry. apply pick_nth.
  unfold len in *. lia.
Qed.

End Counterfactual.

(** C10, amended: the equality holds in exact arithmetic.  With more
    advertisers than slots and strictly positive slot rates [cs], and with
    every operation read over the rationals, the closed-form price
    [calculate_vcg_payments] gives (on the rates [cs] followed by 0) to the
    advertiser at rank [i < n_slots] equals the counterfactual payment
    [simulate_auctions] computes for slot [i]: the value the others obtain
    without that advertiser, minus what they obtain with it, per click of
    slot [i].  Neither distinct nor positive values nor descending rates
    are needed.  In doubles the two computations round differently. *)
Theorem closed_form_vcg_equals_counterfactual `{ArgSort}
  (n : Z) (cs vals : list Qc) :
  len cs = n -> Forall (fun c => 0 < c)%Qc cs -> n < len vals ->
  let rank := argsort (map Qcopp vals) in
  exists closed counterfactual,
    calculate_vcg_payments
      {| n_slots := n; ctrs := cs ++ [0%Qc]; values := vals |} = Ok closed
    /\ vcg_payments n cs vals = Ok counterfactual
    /\ forall i, 0 <= i < n ->
         exists p, getitem counterfactual i = Ok p
                   /\ getitem closed (rank_at rank i) = Ok p.
Proof.
  intros Hlen Hpos Hmore rank.
  set (self := {| n_slots := n; ctrs := cs ++ [0%Qc]; values := vals |}).
  assert (Hlen' : len (ctrs self) = n_slots self + 1).
  { simpl. rewrite len_app, Hlen. reflexivity. }
  destruct (calculate_vcg_payments_by_rank self Hlen')
    as (closed & Hclosed & _ & Hget).
  exists closed,
    (map (counterfactual_payment n cs (pick vals rank)) (range 0 n)).
  split; [exact Hclosed|].
  split; [now apply vcg_payments_counterfactual|].
  intros i Hi. exists (counterfactual_payment n cs (pick vals rank) i).
  split; [now apply getitem_map_range|].
  fold rank in Hget. rewrite Hget by (simpl; unfold n_advertisers; simpl; lia).
  simpl n_slots. destruct (Z.ltb_spec i n); [|lia]. f_equal.
  now apply closed_form_is_counterfactual.
Qed.

Lemma closed_form_vcg_equals_counterfactual_five_advertisers :
  let rank := @argsort stable_sort (map Qcopp five_values) in
  exists closed counterfactual,
    @calculate_vcg_payments stable_sort
      {| n_slots := 3; ctrs := three_slot_rates ++ [0%Qc];
         values := five_values |} = Ok closed
    /\ @vcg_payments stable_sort 3 three_slot_rates five_values
       = Ok counterfactual
    /\ forall i, 0 <= i < 3 ->
         exists p, getitem counterfactual i = Ok p
                   /\ getitem closed (rank_at rank i) = Ok p.
Proof.
  apply (@closed_form_vcg_equals_counterfactual stable_sort 3
           three_slot_rates five_values).
  - reflexivity.
  - repeat (apply Forall_cons; [qc_order|]). apply Forall_nil.
  - reflexivity.
Defined.

(** C10, refuted as stated.  Three slots with the rates 0.8, 0.5 and 0.3
    and five advertisers with the values 3, 9, 4, 7 and 1, computed in
    doubles as the program does.  The advertisers at ranks 0, 1 and 2 are
    1, 3 and 2; their closed-form prices are 4.75, 3.4 and 3, and the
    counterfactual payments of slots 0, 1 and 2 are 4.7500000000000018,
    3.4000000000000021 and 3.0000000000000013: no slot has the two equal.
    With the values 1e16, 3, 2, 1 and 0.5 the sums of the counterfactual
    payment lose the small values: slot 1 is charged -2 where the closed
    form gives 1.4. *)
Lemma closed_form_differs_from_counterfactual_in_doubles :
  (Binary64.np_argsort (map PrimFloat.opp five_values_doubles)
   = [1; 3; 2; 0; 4]
   /\ Binary64.calculate_vcg_payments
        (closed_form_instance five_values_doubles)
      = Ok [0; 4.75; 3; 3.4; 0]%float
   /\ Binary64.vcg_payments 3 three_slot_rates_doubles five_values_doubles
      = Ok [4.7500000000000018; 3.4000000000000021;
            3.0000000000000013]%float
   /\ PrimFloat.eqb 4.75 4.7500000000000018 = false
   /\ PrimFloat.eqb 3.4 3.4000000000000021 = false
   /\ PrimFloat.eqb 3 3.0000000000000013 = false)
  /\ (Binary64.np_argsort (map PrimFloat.opp wide_values_doubles)
      = [0; 1; 2; 3; 4]
      /\ Binary64.calculate_vcg_payments
           (closed_form_instance wide_values_doubles)
         = Ok [2.0000000000000004; 1.4; 1; 0; 0]%float
      /\ Binary64.vcg_payments 3 three_slot_rates_doubles
           wide_values_doubles
         = Ok [0.87500000000000022; -2; 0]%float).
Proof. repeat split; reflexivity. Qed.

(** The two computations on that instance in exact arithmetic: 19/4, 17/5
    and 3 for the three slots, given to advertisers 1, 3 and 2. *)
Lemma five_advertisers_payments :
  @vcg_payments stable_sort 3 three_slot_rates five_values
  = Ok [Q2Qc (19 # 4); Q2Qc (17 # 5); Q2Qc 3]
  /\ @calculate_vcg_payments stable_sort
       {| n_slots := 3; ctrs := three_slot_rates ++ [0%Qc];
          values := five_values |}
     = Ok [0%Qc; Q2Qc (19 # 4); Q2Qc 3; Q2Qc (17 # 5); 0%Qc].
Proof.
  split.
  - destruct (@vcg_payments stable_sort 3 three_slot_rates five_values)
      as [r| |] eqn:E; vm_compute in E; try discriminate E.
    inversion E; subst. f_equal; qc_list.
  - match goal with |- ?lhs = _ => destruct lhs as [r| |] eqn:E end;
      vm_compute in E; try discriminate E.
    inversion E; subst. f_equal; qc_list.
Qed.

(** * Further properties of the code *)

(** ** Edge cases of [run_auction] *)

(** What a successful construction establishes. *)
Lemma init_Ok_inv (n : Z) (cs vs : list Qc) (self : GeneralizedEnglishAuction) :
  init n cs vs = Ok self ->
  self = {| n_slots := n; ctrs := cs; values := vs |}
  /\ len cs = n + 1 /\ 0 <= n /\ ctr self n = 0%Qc.
Proof.
  unfold init. destruct (Z.eqb_spec (len cs) (n + 1)) as [Hlen|]; [|discriminate].
  destruct cs as [|c cs]; [discriminate|].
  rewrite (getitem_last (c :: cs) 0%Qc) by discriminate. cbn [bind].
  destruct (Qc_eqb (last (c :: cs) 0%Qc) 0) eqn:E; [|discriminate].
  intros H. inversion H; subst self. apply Qc_eqb_true_iff in E.
  pose proof (len_cons c cs) as Hc. pose proof (len_nonneg cs).
  split; [reflexivity|]. split; [exact Hlen|]. split; [lia|].
  unfold ctr. cbn [ctrs]. transitivity (last (c :: cs) 0%Qc); [|exact E].
  replace (Z.to_nat n) with (length (c :: cs) - 1)%nat
    by (unfold len in *; simpl; lia).
  destruct (@exists_last _ (c :: cs) ltac:(discriminate)) as (l & x & ->).
  rewrite last_last, length_app. simpl.
  replace (length l + 1 - 1)%nat with (length l) by lia.
  apply nth_middle.
Qed.

(** An object built with no values runs: every slot stays unassigned and
    there are no prices and no history. *)
Theorem run_auction_without_advertisers
  (n : Z) (cs : list Qc) (self : GeneralizedEnglishAuction) :
  init n cs [] = Ok self ->
  run_auction self = Ok (replicate (-1) n, [], []).
Proof.
  intros Hinit.
  destruct (init_Ok_inv _ _ _ _ Hinit) as (-> & Hlen & Hn & _).
  unfold run_auction, allocation_phase, excess_phase, rounds_fuel.
  cbn [values length while]. unfold excess_cond.
  cbn [initial_state active_advertisers n_slots].
  change (n_advertisers {| n_slots := n; ctrs := cs; values := [] |}) with 0.
  change (range 0 0) with (@nil Z). change (len (@nil Z)) with 0.
  destruct (Z.gtb_spec 0 n); [lia|]. reflexivity.
Qed.

(** A single advertiser and at least one slot: no round is played, the
    advertiser takes slot 0 at price 0, whatever the rates are. *)
Theorem run_auction_single_advertiser
  (self : GeneralizedEnglishAuction) (v : Qc) :
  values self = [v] -> 1 <= n_slots self ->
  run_auction self = Ok (0 :: replicate (-1) (n_slots self - 1), [0%Qc], []).
Proof.
  intros Hv Hn.
  unfold run_auction, allocation_phase, excess_phase, rounds_fuel.
  rewrite Hv. cbn [length while]. unfold excess_cond.
  unfold initial_state, n_advertisers. rewrite Hv.
  cbn [active_advertisers]. change (len [v]) with 1.
  change (range 0 1) with [0]. change (len [0]) with 1.
  destruct (Z.gtb_spec 1 (n_slots self)); [lia|]. cbn [bind while].
  unfold allocation_cond. cbn [active_advertisers].
  change (len [0]) with 1. change (1 >? 1) with false. cbn [andb bind].
  unfold final_assignment.
  cbn [active_advertisers next_slot_to_fill allocation prices history].
  destruct (Z.geb_spec (n_slots self - 1) 0) as [_|]; [|lia].
  change (getitem [0] 0) with (Ok 0). cbn [bind].
  rewrite setitem_nonneg by (rewrite len_replicate; lia). cbn [bind].
  change (last_or_zero []) with (Ok 0%Qc). cbn [bind].
  change (replicate 0%Qc 1) with [0%Qc].
  change (setitem [0%Qc] 0 0%Qc) with (Ok [0%Qc]). cbn [bind].
  cbn [allocation prices history]. do 3 f_equal.
  unfold replicate.
  replace (Z.to_nat (n_slots self)) with (S (Z.to_nat (n_slots self - 1)))
    by lia.
  reflexivity.
Qed.

Lemma while_exit cond body (fuel : nat) (st : state) :
  cond st = false -> while cond body fuel st = Ok st.
Proof. intros H. destruct fuel; simpl; now rewrite H. Qed.

Lemma while_round cond body (fuel : nat) (st : state) :
  cond st = true ->
  while cond body (S fuel) st = bind (body st) (while cond body fuel).
Proof. intros H. simpl. now rewrite H. Qed.

Lemma len_initial_active (self : GeneralizedEnglishAuction) :
  len (active_advertisers (initial_state self)) = n_advertisers self.
Proof.
  cbn [initial_state active_advertisers].
  rewrite len_range by apply len_nonneg. lia.
Qed.

(** The first price of a round decides whether the round raises. *)
Lemma lowest_dropout_raises (self : GeneralizedEnglishAuction)
  (a : Z) (rest : list Z) (h : list Qc) (e : error) :
  0 <= a < n_advertisers self ->
  (forall v, equilibrium_dropout_price self (len (a :: rest)) h v = Raise e) ->
  lowest_dropout self (a :: rest) h = Raise e.
Proof.
  intros Ha Hp. unfold lowest_dropout, dropout_prices. cbn [mapM].
  rewrite (getitem_nonneg _ a 0%Qc) by (unfold n_advertisers in Ha; lia).
  cbn [bind]. now rewrite Hp.
Qed.

(** A zero rate right above the slot the first leaver would take stops the
    run: with [2 <= n_advertisers <= n_slots] and
    [ctrs[n_advertisers - 2] = 0] the first round divides by zero. *)
Theorem run_auction_divides_by_zero_rate
  (self : GeneralizedEnglishAuction) :
  len (ctrs self) = n_slots self + 1 ->
  2 <= n_advertisers self <= n_slots self ->
  ctr self (n_advertisers self - 2) = 0%Qc ->
  run_auction self = Raise ZeroDivisionError.
Proof.
  intros Hlen Hadv Hz.
  pose proof (len_initial_active self) as Hact.
  assert (Hex : excess_cond self (initial_state self) = false).
  { unfold excess_cond. rewrite Hact.
    destruct (Z.gtb_spec (n_advertisers self) (n_slots self)); [lia|easy]. }
  assert (Hal : allocation_cond (initial_state self) = true).
  { unfold allocation_cond. rewrite Hact. cbn [initial_state next_slot_to_fill].
    destruct (Z.gtb_spec (n_advertisers self) 1); [|lia].
    destruct (Z.geb_spec (n_slots self - 1) 0); [easy|lia]. }
  assert (Hround : allocation_round self (initial_state self)
                   = Raise ZeroDivisionError).
  { unfold allocation_round.
    cbn [initial_state active_advertisers history] in *.
    rewrite (range_cons 0) in * by lia.
    rewrite lowest_dropout_raises with (e := ZeroDivisionError);
      [reflexivity | lia |].
    intros v. unfold equilibrium_dropout_price. cbn [last_or_zero bind].
    rewrite Hact, dropout_ctrs_in_range by lia. cbn [bind].
    unfold truediv. rewrite Hz. reflexivity. }
  unfold run_auction, allocation_phase, excess_phase, rounds_fuel.
  rewrite while_exit by exact Hex. cbn [bind].
  rewrite while_round by exact Hal. rewrite Hround. reflexivity.
Qed.

(** ** Order facts on rationals *)

Lemma Qcmult_nonneg (x y : Qc) : (0 <= x -> 0 <= y -> 0 <= x * y)%Qc.
Proof.
  intros Hx Hy. rewrite <- (Qcmult_0_l y). now apply Qcmult_le_compat_r.
Qed.

Lemma Qcle_by_difference (x y : Qc) : (0 <= y - x -> x <= y)%Qc.
Proof. unfold Qcminus. apply Qcle_minus_iff. Qed.

Lemma Qcdifference_nonneg (x y : Qc) : (x <= y -> 0 <= y - x)%Qc.
Proof. unfold Qcminus. apply Qcle_minus_iff. Qed.

Lemma Qclt_by_difference (x y : Qc) : (0 < y - x -> x < y)%Qc.
Proof. unfold Qcminus. apply Qclt_minus_iff. Qed.

Lemma Qcdifference_pos (x y : Qc) : (x < y -> 0 < y - x)%Qc.
Proof. unfold Qcminus. apply Qclt_minus_iff. Qed.

Lemma Qcpos_nonzero (x : Qc) : (0 < x)%Qc -> x <> 0%Qc.
Proof. intros H E. rewrite E in H. exact (Qclt_not_eq _ _ H eq_refl). Qed.

Lemma Qcdiv_mult_cancel (x y : Qc) : y <> 0%Qc -> (x / y * y = x)%Qc.
Proof. intros H. rewrite Qcmult_comm. now apply Qcmult_div_r. Qed.

Lemma Qcdiv_nonneg (x y : Qc) : (0 <= x -> 0 < y -> 0 <= x / y)%Qc.
Proof.
  intros Hx Hy. apply (Qcmult_lt_0_le_reg_r _ _ y Hy).
  rewrite Qcmult_0_l, Qcdiv_mult_cancel by now apply Qcpos_nonzero.
  exact Hx.
Qed.

Lemma Qcdiv_le_of_le_mult (x y z : Qc) :
  (0 < y -> x <= z * y -> x / y <= z)%Qc.
Proof.
  intros Hy H. apply (Qcmult_lt_0_le_reg_r _ _ y Hy).
  now rewrite Qcdiv_mult_cancel by now apply Qcpos_nonzero.
Qed.

Lemma Qcdiv_lt_one (x y : Qc) : (0 < y -> x < y -> x / y < 1)%Qc.
Proof.
  intros Hy H. apply Qcnot_le_lt. intros Hle.
  apply (Qcmult_le_compat_r _ _ y) in Hle; [|now apply Qclt_le_weak].
  rewrite Qcmult_1_l, Qcdiv_mult_cancel in Hle by now apply Qcpos_nonzero.
  exact (Qclt_not_le _ _ H Hle).
Qed.

(** ** The drop-out price as a function of the value *)

Lemma equilibrium_dropout_price_value (self : GeneralizedEnglishAuction)
  (i : Z) (h : list Qc) (s a_i a_prev : Qc) :
  dropout_ctrs self i = Ok (a_i, a_prev) -> a_prev <> 0%Qc ->
  equilibrium_dropout_price self i h s
  = Ok (price_formula a_i a_prev (last h 0%Qc) s).
Proof.
  intros Hctrs Hnz. unfold equilibrium_dropout_price.
  rewrite last_or_zero_last, Hctrs. cbn [bind].
  now rewrite truediv_nonzero.
Qed.

Lemma price_formula_strictly_monotone (a_i a_prev b s s' : Qc) :
  (a_i < a_prev -> 0 < a_prev -> s < s' ->
   price_formula a_i a_prev b s < price_formula a_i a_prev b s')%Qc.
Proof.
  intros Hlt Hpos Hs. unfold price_formula.
  pose proof (Qcdiv_lt_one _ _ Hpos Hlt) as Hr1.
  apply Qcdifference_pos in Hs, Hr1. apply Qclt_by_difference.
  replace (s' - a_i / a_prev * (s' - b) - (s - a_i / a_prev * (s - b)))%Qc
    with ((s' - s) * (1 - a_i / a_prev))%Qc by ring.
  rewrite <- (Qcmult_0_l (1 - a_i / a_prev)).
  now apply Qcmult_lt_compat_r.
Qed.

(** The rates a valid instance hands to the formula inside the slot
    range. *)
Lemma valid_ctrs_in_range (self : GeneralizedEnglishAuction) (i : Z) :
  valid_instance self -> 2 <= i <= n_slots self ->
  dropout_ctrs self i = Ok (ctr self (i - 1), ctr self (i - 2))
  /\ (0 <= ctr self (i - 1))%Qc
  /\ (ctr self (i - 1) <= ctr self (i - 2))%Qc
  /\ (0 < ctr self (i - 2))%Qc.
Proof.
  intros V Hi. pose proof (valid_len self V) as Hlen.
  assert (Hnn : forall k, 0 <= k <= n_slots self -> (0 <= ctr self k)%Qc).
  { intros k Hk. pose proof (valid_nonneg self V) as H.
    rewrite Forall_forall in H. apply H, nth_In. unfold len in Hlen. lia. }
  split; [now apply dropout_ctrs_in_range|].
  split; [apply Hnn; lia|]. split.
  - replace (i - 1) with (i - 2 + 1) by lia.
    apply (valid_descending self V). lia.
  - destruct (Qcle_lt_or_eq _ _ (Hnn (i - 2) ltac:(lia))) as [H|H];
      [assumption|].
    exfalso. apply (nonzero_ctrs_of_valid self (i - 2) V); [lia|].
    now symmetry.
Qed.

(** With one advertiser more than there are slots, every advertiser's
    drop-out price is its own value, whatever the history: the formula reads
    the closing rate 0. *)
Theorem dropout_price_is_value_at_first_excess
  (self : GeneralizedEnglishAuction) (h : list Qc) (s : Qc) :
  len (ctrs self) = n_slots self + 1 -> ctr self (n_slots self) = 0%Qc ->
  2 <= n_slots self -> ctr self (n_slots self - 2) <> 0%Qc ->
  equilibrium_dropout_price self (n_slots self + 1) h s = Ok s.
Proof.
  intros Hlen Hlast Hn Hnz.
  rewrite (equilibrium_dropout_price_value self _ h s
             (ctr self (n_slots self)) (ctr self (n_slots self - 2))).
  - f_equal. unfold price_formula. rewrite Hlast. unfold Qcdiv. ring.
  - rewrite dropout_ctrs_saturated by lia.
    now rewrite Z.eqb_refl.
  - exact Hnz.
Qed.

(** ** Bounds on the VCG prices *)

Lemma sum_range_nonneg (f : Z -> Qc) (a b : Z) :
  (forall j, a <= j < b -> (0 <= f j)%Qc) -> (0 <= sum_range f a b)%Qc.
Proof.
  intros H. unfold sum_range.
  assert (Hall : Forall (fun x => 0 <= x)%Qc (map f (range a b))).
  { apply Forall_forall. intros x Hx. apply in_map_iff in Hx as (j & <- & Hj).
    apply H. now apply in_range. }
  induction Hall as [|x l Hx _ IH]; simpl; [apply Qcle_refl|].
  rewrite <- (Qcplus_0_l 0). now apply Qcplus_le_compat.
Qed.

Lemma sum_range_le (f g : Z -> Qc) (a b : Z) :
  (forall j, a <= j < b -> (f j <= g j)%Qc) ->
  (sum_range f a b <= sum_range g a b)%Qc.
Proof.
  intros H. apply Qcle_by_difference. rewrite <- sum_range_minus.
  apply sum_range_nonneg. intros j Hj. now apply Qcdifference_nonneg, H.
Qed.

Lemma sum_range_scale (f : Z -> Qc) (v : Qc) (a b : Z) :
  sum_range (fun j => f j * v)%Qc a b = (sum_range f a b * v)%Qc.
Proof.
  unfold sum_range. induction (range a b) as [|j l IH]; simpl; [ring|].
  rewrite IH. ring.
Qed.

(** A sum of successive differences collapses to the difference of its
    ends. *)
Lemma sum_range_telescopes (c : Z -> Qc) (a b : Z) :
  a <= b ->
  sum_range (fun j => Qcminus (c (j - 1)) (c j)) (a + 1) (b + 1)
  = (c a - c b)%Qc.
Proof.
  intros Hab. replace b with (a + Z.of_nat (Z.to_nat (b - a))) by lia.
  induction (Z.to_nat (b - a)) as [|k IH].
  - rewrite Z.add_0_r, sum_range_empty by lia. ring.
  - replace (a + Z.of_nat (S k) + 1) with (a + Z.of_nat k + 1 + 1) by lia.
    rewrite sum_range_last, IH by lia.
    replace (a + Z.of_nat k + 1 - 1) with (a + Z.of_nat k) by lia.
    replace (a + Z.of_nat (S k)) with (a + Z.of_nat k + 1) by lia. ring.
Qed.

Section VcgBounds.

Context `{ArgSort}.
Variable self : GeneralizedEnglishAuction.
Hypothesis ctrs_len : len (ctrs self) = n_slots self + 1.
Hypothesis ctrs_last : ctr self (n_slots self) = 0%Qc.
Hypothesis ctrs_descending :
  forall k, 0 <= k < n_slots self -> (ctr self (k + 1) <= ctr self k)%Qc.
Hypothesis values_nonneg : Forall (fun v => 0 <= v)%Qc (values self).

Let rank : list Z := argsort (map Qcopp (values self)).

Lemma ctr_nonneg (k : Z) : 0 <= k <= n_slots self -> (0 <= ctr self k)%Qc.
Proof.
  intros Hk.
  assert (Hd : forall d : nat,
             Z.of_nat d <= n_slots self ->
             (0 <= ctr self (n_slots self - Z.of_nat d))%Qc).
  { induction d as [|d IH]; intros Hd.
    - rewrite Z.sub_0_r, ctrs_last. apply Qcle_refl.
    - eapply Qcle_trans; [apply IH; lia|].
      replace (n_slots self - Z.of_nat d)
        with (n_slots self - Z.of_nat (S d) + 1) by lia.
      apply ctrs_descending. lia. }
  replace k with (n_slots self - Z.of_nat (Z.to_nat (n_slots self - k)))
    by lia.
  apply Hd. lia.
Qed.

Lemma value_of_nonneg (a : Z) : (0 <= value_of self a)%Qc.
Proof.
  unfold value_of.
  destruct (Nat.lt_ge_cases (Z.to_nat a) (length (values self))) as [Hlt|Hge].
  - rewrite Forall_forall in values_nonneg. now apply values_nonneg, nth_In.
  - rewrite nth_overflow by assumption. apply Qcle_refl.
Qed.

Lemma externality_nonneg (i : Z) :
  0 <= i -> (0 <= externality self rank i)%Qc.
Proof.
  intros Hi. unfold externality. apply sum_range_nonneg. intros j Hj.
  apply Qcmult_nonneg; [|apply value_of_nonneg].
  apply Qcdifference_nonneg.
  replace j with (j - 1 + 1) at 1 by lia. apply ctrs_descending. lia.
Qed.

Lemma externality_at_most_value (i : Z) :
  0 <= i < n_advertisers self ->
  (externality self rank i
   <= value_of self (rank_at rank i) * ctr self i)%Qc.
Proof.
  intros Hi. unfold externality.
  set (hi := Z.min (n_slots self) (len rank - 1)).
  pose proof (len_rank _ _ (argsort_values_perm self) (len_nonneg _)) as Hlr.
  fold rank in Hlr.
  destruct (Z.le_gt_cases i hi) as [Hle|Hgt].
  - eapply Qcle_trans.
    + apply (sum_range_le _ (fun j => (ctr self (j - 1) - ctr self j)
                                     * value_of self (rank_at rank i))%Qc).
      intros j Hj. rewrite !(Qcmult_comm (ctr self (j - 1) - ctr self j)).
      apply Qcmult_le_compat_r.
      * apply ranking_descends; lia.
      * apply Qcdifference_nonneg.
        replace j with (j - 1 + 1) at 1 by lia. apply ctrs_descending. lia.
    + rewrite sum_range_scale, sum_range_telescopes by lia.
      rewrite (Qcmult_comm (value_of self (rank_at rank i))).
      apply Qcmult_le_compat_r; [|apply value_of_nonneg].
      apply Qcle_by_difference.
      replace (ctr self i - (ctr self i - ctr self hi))%Qc
        with (ctr self hi) by ring.
      apply ctr_nonneg. lia.
  - rewrite sum_range_empty by lia.
    apply Qcmult_nonneg; [apply value_of_nonneg|].
    destruct (Z.le_gt_cases i (n_slots self)); [now apply ctr_nonneg; lia|].
    unfold ctr. rewrite nth_overflow; [apply Qcle_refl|].
    unfold len in ctrs_len. lia.
Qed.

Lemma closed_form_price_bounds (i : Z) :
  0 <= i < n_advertisers self ->
  (0 <= closed_form_price self rank i <= value_of self (rank_at rank i))%Qc.
Proof.
  intros Hi. unfold closed_form_price.
  destruct (Qc_ltb 0 (ctr self i)) eqn:E.
  - apply Qc_ltb_true_iff in E. split.
    + apply Qcdiv_nonneg; [apply externality_nonneg; lia | exact E].
    + apply Qcdiv_le_of_le_mult; [exact E|].
      now apply externality_at_most_value.
  - split; [apply Qcle_refl | apply value_of_nonneg].
Qed.

End VcgBounds.

Lemma rank_at_surjective (n : Z) (rank : list Z) (a : Z) :
  Permutation rank (range 0 n) -> 0 <= a < n ->
  exists i, 0 <= i < n /\ rank_at rank i = a.
Proof.
  intros Hperm Ha.
  assert (Hin : In a rank).
  { eapply Permutation_in; [apply Permutation_sym; exact Hperm|].
    now apply in_range. }
  apply (In_nth _ _ 0) in Hin as (k & Hk & Hnth).
  pose proof (Permutation_length Hperm) as Hl. rewrite length_range in Hl.
  exists (Z.of_nat k). split; [lia|].
  unfold rank_at. now rewrite Nat2Z.id.
Qed.

(** No VCG price is negative.  For an object with weakly descending rates
    that end in 0 and non-negative values, [calculate_vcg_payments] returns
    one price per advertiser and none of them is below 0. *)
Theorem vcg_prices_nonnegative `{ArgSort}
  (self : GeneralizedEnglishAuction) :
  len (ctrs self) = n_slots self + 1 ->
  ctr self (n_slots self) = 0%Qc ->
  (forall k, 0 <= k < n_slots self -> (ctr self (k + 1) <= ctr self k)%Qc) ->
  Forall (fun v => 0 <= v)%Qc (values self) ->
  exists vcg,
    calculate_vcg_payments self = Ok vcg
    /\ len vcg = n_advertisers self
    /\ forall a, 0 <= a < n_advertisers self ->
         exists p, getitem vcg a = Ok p /\ (0 <= p)%Qc.
Proof.
  intros Hlen Hlast Hdesc Hval.
  destruct (calculate_vcg_payments_by_rank self Hlen)
    as (vcg & Hvcg & Hl & Hget).
  exists vcg. split; [exact Hvcg|]. split; [exact Hl|]. intros a Ha.
  destruct (rank_at_surjective _ _ a (argsort_values_perm self) Ha)
    as (i & Hi & <-).
  eexists. split; [apply Hget; exact Hi|].
  destruct (Z.ltb_spec i (n_slots self)).
  - now apply closed_form_price_bounds.
  - apply Qcle_refl.
Qed.

(** ** The trial of [simulate_auctions] *)

Lemma np_mul_raises (a b : list Qc) (e : error) :
  np_mul a b = Raise e -> e = ValueError.
Proof.
  unfold np_mul. destruct (len a =? len b); [discriminate|].
  destruct a as [|x [|x' a]]; destruct b as [|y [|y' b]];
    try discriminate; now intros [= <-].
Qed.

Lemma np_mul_not_out_of_fuel (a b : list Qc) : np_mul a b <> OutOfFuel.
Proof.
  unfold np_mul. destruct (len a =? len b); [discriminate|].
  destruct a as [|x [|x' a]]; destruct b as [|y [|y' b]]; discriminate.
Qed.

Lemma np_sub_same_length (a b : list Qc) :
  len a = len b ->
  np_sub a b = Ok (map (fun p => (fst p - snd p)%Qc) (combine a b)).
Proof. intros H. unfold np_sub. now rewrite H, Z.eqb_refl. Qed.

Lemma np_sub_shape_mismatch (a b : list Qc) :
  2 <= len a -> 2 <= len b -> len a <> len b ->
  np_sub a b = Raise ValueError.
Proof.
  intros Ha Hb Hne. unfold np_sub.
  destruct (Z.eqb_spec (len a) (len b)); [contradiction|].
  destruct a as [|x [|x' a]]; destruct b as [|y [|y' b]];
    unfold len in *; simpl in *; try lia; reflexivity.
Qed.

Section Trial.

Context `{ArgSort}.
Variable n : Z.
Variable vals : list Qc.

Let rank : list Z := argsort (map Qcopp vals).
Let sv : list Qc := pick vals rank.

Lemma gsp_payments_value :
  gsp_payments n vals = Ok (map (next_bid vals sv) (range 0 n)).
Proof.
  unfold gsp_payments. fold rank.
  rewrite np_take_pick by apply rank_in_range. fold sv. cbn [bind].
  apply mapM_Ok_intro. intros i Hi. apply in_range in Hi.
  unfold next_bid. destruct (Z.ltb_spec (i + 1) (len vals)); [|reflexivity].
  apply getitem_nonneg. unfold sv, rank. rewrite len_sv. lia.
Qed.

(** With two or more advertisers but fewer than slots, the values and the
    GSP payments of the slots have different lengths and the trial stops
    with NumPy's shape error. *)
Lemma simulate_trial_shape_error (cs : list Qc) :
  2 <= len vals < n -> simulate_trial n cs vals = Raise ValueError.
Proof.
  intros Hk. unfold simulate_trial. fold rank.
  rewrite np_take_pick by apply rank_in_range. fold sv. cbn [bind].
  rewrite gsp_payments_value. cbn [bind].
  assert (Hsub : np_sub (slice_to sv n) (map (next_bid vals sv) (range 0 n))
                 = Raise ValueError).
  { pose proof (len_sv vals) as Hsv. fold rank sv in Hsv.
    apply np_sub_shape_mismatch; unfold len in *;
      rewrite ?slice_to_nonneg, ?length_firstn, ?length_map, ?length_range
        by lia; lia. }
  destruct (np_mul (slice_to cs n) (map (next_bid vals sv) (range 0 n)))
    as [w|e|] eqn:E; cbn [bind].
  - now rewrite Hsub.
  - now rewrite (np_mul_raises _ _ _ E).
  - now apply np_mul_not_out_of_fuel in E.
Qed.

End Trial.

Lemma nth_zip {A B C : Type} (f : A * B -> C) (l1 : list A) (l2 : list B)
  (k : nat) (d1 : A) (d2 : B) (d : C) :
  length l1 = length l2 -> (k < length l1)%nat ->
  nth k (map f (combine l1 l2)) d = f (nth k l1 d1, nth k l2 d2).
Proof.
  intros Hl Hk.
  rewrite (nth_indep _ d (f (d1, d2)))
    by (rewrite length_map, length_combine; lia).
  now rewrite map_nth, combine_nth.
Qed.

Lemma Forall_zip {A B C : Type} (P : C -> Prop) (f : A * B -> C)
  (l1 : list A) (l2 : list B) (d1 : A) (d2 : B) :
  length l1 = length l2 ->
  (forall k, (k < length l1)%nat -> P (f (nth k l1 d1, nth k l2 d2))) ->
  Forall P (map f (combine l1 l2)).
Proof.
  intros Hl H. apply Forall_forall. intros x Hx.
  apply (In_nth _ _ (f (d1, d2))) in Hx as (k & Hk & <-).
  rewrite length_map, length_combine in Hk.
  rewrite (nth_zip f l1 l2 k d1 d2) by lia. apply H. lia.
Qed.

Lemma nth_map_range {B : Type} (g : Z -> B) (n i : Z) (d : B) :
  0 <= i < n -> nth (Z.to_nat i) (map g (range 0 n)) d = g i.
Proof.
  intros Hi.
  rewrite (nth_indep _ d (g 0)) by (rewrite length_map, length_range; lia).
  rewrite map_nth, nth_range by lia. f_equal. lia.
Qed.

Lemma length_map_range {B : Type} (g : Z -> B) (n : Z) :
  length (map g (range 0 n)) = Z.to_nat n.
Proof. rewrite length_map, length_range. f_equal. lia. Qed.

Section GoodTrial.

Context `{ArgSort}.
Variable n : Z.
Variables cs vals : list Qc.
Hypothesis cs_len : len cs = n.
Hypothesis cs_positive : Forall (fun c => 0 < c)%Qc cs.
Hypothesis more_advertisers : n < len vals.

Let self : GeneralizedEnglishAuction :=
  {| n_slots := n; ctrs := cs ++ [0%Qc]; values := vals |}.
Let rank : list Z := argsort (map Qcopp vals).
Let sv : list Qc := pick vals rank.
Let gsp : list Qc := map (next_bid vals sv) (range 0 n).
Let vcg : list Qc := map (counterfactual_payment n cs sv) (range 0 n).
Let zip_mul (a b : list Qc) : list Qc :=
  map (fun p => (fst p * snd p)%Qc) (combine a b).
Let zip_sub (a b : list Qc) : list Qc :=
  map (fun p => (fst p - snd p)%Qc) (combine a b).

Lemma n_nonneg_of_len : 0 <= n.
Proof. rewrite <- cs_len. apply len_nonneg. Qed.

Lemma cs_nth_positive (k : Z) : 0 <= k < n -> (0 < nth (Z.to_nat k) cs 0)%Qc.
Proof.
  intros Hk. rewrite Forall_forall in cs_positive.
  apply cs_positive, nth_In. unfold len in cs_len. lia.
Qed.

Lemma sv_nth (k : Z) :
  0 <= k < len vals ->
  nth (Z.to_nat k) sv 0%Qc = value_of self (rank_at rank k).
Proof.
  intros Hk. unfold sv, value_of, rank_at, self. cbn [values].
  apply pick_nth.
  pose proof (len_rank _ _ (rank_is_permutation vals) (len_nonneg _)) as Hl.
  fold rank in Hl. unfold len in *. lia.
Qed.

Lemma next_bid_at_most_value (i : Z) :
  0 <= i < n -> (next_bid vals sv i <= nth (Z.to_nat i) sv 0)%Qc.
Proof.
  intros Hi. unfold next_bid.
  destruct (Z.ltb_spec (i + 1) (len vals)); [|lia].
  rewrite !sv_nth by lia.
  apply (ranking_descends self); [lia|].
  change (n_advertisers self) with (len vals). lia.
Qed.

Lemma simulate_trial_value :
  simulate_trial n cs vals =
    Ok {| slot_assign := slice_to rank n;
          trial_gsp_payments := gsp;
          trial_gsp_revenue := np_sum (zip_mul cs gsp);
          trial_gsp_utilities :=
            zip_mul cs (zip_sub (firstn (Z.to_nat n) sv) gsp);
          trial_vcg_payments := vcg;
          trial_vcg_revenue := np_sum (zip_mul cs vcg);
          trial_vcg_utilities :=
            zip_mul cs (zip_sub (firstn (Z.to_nat n) sv) vcg) |}.
Proof.
  pose proof n_nonneg_of_len as Hn.
  pose proof (len_sv vals) as Hsv. fold rank sv in Hsv.
  assert (Hcs : firstn (Z.to_nat n) cs = cs)
    by (apply firstn_all2; unfold len in cs_len; lia).
  assert (Hlf : length (firstn (Z.to_nat n) sv) = Z.to_nat n)
    by (rewrite length_firstn; unfold len in *; lia).
  assert (Hlc : length cs = Z.to_nat n) by (unfold len in cs_len; lia).
  unfold simulate_trial. fold rank.
  rewrite np_take_pick by apply rank_in_range. fold sv. cbn [bind].
  rewrite gsp_payments_value. fold rank sv gsp. cbn [bind].
  rewrite !slice_to_nonneg by lia. rewrite Hcs.
  rewrite (vcg_payments_counterfactual n cs vals cs_len cs_positive
             more_advertisers). fold rank sv vcg.
  assert (Hlg : length gsp = Z.to_nat n) by apply length_map_range.
  assert (Hlv : length vcg = Z.to_nat n) by apply length_map_range.
  rewrite (np_mul_same_length cs gsp) by (unfold len; lia). cbn [bind].
  rewrite (np_sub_same_length _ gsp) by (unfold len; lia). cbn [bind].
  rewrite np_mul_same_length
    by (unfold len; rewrite length_map, length_combine; lia).
  cbn [bind].
  rewrite (np_mul_same_length cs vcg) by (unfold len; lia). cbn [bind].
  rewrite (np_sub_same_length _ vcg) by (unfold len; lia). cbn [bind].
  rewrite np_mul_same_length
    by (unfold len; rewrite length_map, length_combine; lia).
  reflexivity.
Qed.

Lemma rank_entry_in_range (k : Z) :
  0 <= k < len vals -> 0 <= rank_at rank k < len vals.
Proof.
  intros Hk.
  pose proof (len_rank _ _ (rank_is_permutation vals) (len_nonneg _)) as Hl.
  fold rank in Hl.
  pose proof (rank_in_range vals) as Hall. fold rank in Hall.
  rewrite Forall_forall in Hall. apply Hall. unfold rank_at.
  apply nth_In. unfold len in *. lia.
Qed.

(** The GSP side of a trial.  With more advertisers than slots and positive
    slot rates the trial returns.  Slot [i] goes to the advertiser at rank
    [i] and pays the value of the advertiser at rank [i + 1], which is not
    above the value of the advertiser in the slot. *)
Theorem trial_gsp_payment_is_next_value :
  exists t,
    simulate_trial n cs vals = Ok t
    /\ forall i, 0 <= i < n ->
         exists pg v,
           getitem (slot_assign t) i
           = Ok (rank_at (argsort (map Qcopp vals)) i)
           /\ getitem (trial_gsp_payments t) i = Ok pg
           /\ getitem vals (rank_at (argsort (map Qcopp vals)) (i + 1))
              = Ok pg
           /\ getitem vals (rank_at (argsort (map Qcopp vals)) i) = Ok v
           /\ (pg <= v)%Qc.
Proof.
  eexists. split; [exact simulate_trial_value|].
  cbn [slot_assign trial_gsp_payments]. fold rank.
  pose proof n_nonneg_of_len as Hn.
  pose proof (len_rank _ _ (rank_is_permutation vals) (len_nonneg _)) as Hl.
  fold rank in Hl.
  intros i Hi.
  exists (next_bid vals sv i), (nth (Z.to_nat i) sv 0%Qc).
  split.
  { rewrite slice_to_nonneg by lia.
    rewrite (getitem_nonneg _ _ 0)
      by (unfold len in *; rewrite length_firstn; lia).
    rewrite nth_firstn. destruct (Nat.ltb_spec (Z.to_nat i) (Z.to_nat n));
      [reflexivity|lia]. }
  split; [now apply getitem_map_range|].
  split.
  { unfold next_bid. destruct (Z.ltb_spec (i + 1) (len vals)); [|lia].
    rewrite sv_nth by lia.
    rewrite (getitem_nonneg _ _ 0%Qc) by (apply rank_entry_in_range; lia).
    reflexivity. }
  split.
  { rewrite sv_nth by lia.
    rewrite (getitem_nonneg _ _ 0%Qc) by (apply rank_entry_in_range; lia).
    reflexivity. }
  now apply next_bid_at_most_value.
Qed.

(** In a trial with more advertisers than slots and positive slot rates no
    slot's advertiser has a negative utility under GSP. *)
Theorem trial_gsp_utilities_nonnegative :
  exists t,
    simulate_trial n cs vals = Ok t
    /\ Forall (fun u => 0 <= u)%Qc (trial_gsp_utilities t).
Proof.
  eexists. split; [exact simulate_trial_value|].
  cbn [trial_gsp_utilities].
  pose proof n_nonneg_of_len as Hn.
  pose proof (len_sv vals) as Hsv. fold rank sv in Hsv.
  assert (Hlc : length cs = Z.to_nat n) by (unfold len in cs_len; lia).
  assert (Hlf : length (firstn (Z.to_nat n) sv) = Z.to_nat n)
    by (rewrite length_firstn; unfold len in *; lia).
  assert (Hlg : length gsp = Z.to_nat n) by apply length_map_range.
  unfold zip_mul, zip_sub.
  apply (Forall_zip _ _ _ _ 0%Qc 0%Qc).
  - rewrite length_map, length_combine. lia.
  - intros k Hk. cbn [fst snd].
    rewrite (nth_zip _ _ _ k 0%Qc 0%Qc) by lia. cbn [fst snd].
    rewrite nth_firstn.
    destruct (Nat.ltb_spec k (Z.to_nat n)); [|lia].
    apply Qcmult_nonneg.
    + replace k with (Z.to_nat (Z.of_nat k)) by lia.
      apply Qclt_le_weak, cs_nth_positive. lia.
    + apply Qcdifference_nonneg.
      unfold gsp. replace k with (Z.to_nat (Z.of_nat k)) by lia.
      rewrite nth_map_range by lia.
      apply next_bid_at_most_value. lia.
Qed.

End GoodTrial.

(** ** The clock against the ranking by value *)

Lemma firstn_snoc {A : Type} (l : list A) (k : nat) (d : A) :
  (k < length l)%nat -> firstn (S k) l = firstn k l ++ [nth k l d].
Proof.
  revert k. induction l as [|x l IH]; intros k Hk; simpl in Hk; [lia|].
  destruct k as [|k]; [reflexivity|].
  cbn [firstn nth app]. f_equal. apply IH. lia.
Qed.

Lemma In_firstn_nth {A : Type} (l : list A) (k : nat) (x d : A) :
  In x (firstn k l) -> exists j, (j < k)%nat /\ (j < length l)%nat /\ nth j l d = x.
Proof.
  revert k. induction l as [|y l IH]; intros k Hin.
  - rewrite firstn_nil in Hin. destruct Hin.
  - destruct k as [|k]; [destruct Hin|]. destruct Hin as [E|Hin].
    + exists 0%nat. simpl. repeat split; auto; lia.
    + destruct (IH _ Hin) as (j & Hj & Hl & E). exists (S j). simpl.
      repeat split; auto; lia.
Qed.

Lemma nth_In_firstn {A : Type} (l : list A) (j k : nat) (d : A) :
  (j < k)%nat -> (j < length l)%nat -> In (nth j l d) (firstn k l).
Proof.
  revert j k. induction l as [|y l IH]; intros j k Hj Hl; simpl in Hl; [lia|].
  destruct k as [|k]; [lia|]. destruct j as [|j]; simpl; [now left|].
  right. apply IH; lia.
Qed.

Lemma value_of_injective (self : GeneralizedEnglishAuction) (a b : Z) :
  NoDup (values self) ->
  0 <= a < n_advertisers self -> 0 <= b < n_advertisers self ->
  value_of self a = value_of self b -> a = b.
Proof.
  intros Hnd Ha Hb E. unfold value_of, n_advertisers, len in *.
  assert (Z.to_nat a = Z.to_nat b); [|lia].
  apply (proj1 (NoDup_nth (values self) 0%Qc) Hnd); auto; lia.
Qed.

Lemma price_formula_at_zero_rate (a_prev b s : Qc) :
  price_formula 0 a_prev b s = s.
Proof. unfold price_formula, Qcdiv. ring. Qed.

Lemma round_price_value (self : GeneralizedEnglishAuction) (st : state)
  (b : Z) (a_i a_prev : Qc) :
  round_inv self st -> In b (active_advertisers st) ->
  dropout_ctrs self (len (active_advertisers st)) = Ok (a_i, a_prev) ->
  a_prev <> 0%Qc ->
  round_price self st b
  = Ok (price_formula a_i a_prev (last (history st) 0%Qc) (value_of self b)).
Proof.
  intros Hinv Hin Hc Hnz. unfold round_price.
  rewrite (getitem_nonneg _ _ 0%Qc) by (apply (inv_range _ _ Hinv); auto).
  cbn [bind]. now apply equilibrium_dropout_price_value.
Qed.

(** With rates that fall strictly from the position above, the advertiser
    who leaves has the lowest value among the active ones. *)
Lemma leaver_has_lowest_value (self : GeneralizedEnglishAuction) (st : state)
  (a : Z) (p a_i a_prev : Qc) :
  round_inv self st ->
  dropout_ctrs self (len (active_advertisers st)) = Ok (a_i, a_prev) ->
  (0 <= a_i)%Qc -> (a_i < a_prev)%Qc ->
  lowest_dropout self (active_advertisers st) (history st) = Ok (a, p) ->
  In a (active_advertisers st)
  /\ p = price_formula a_i a_prev (last (history st) 0%Qc) (value_of self a)
  /\ forall b, In b (active_advertisers st) ->
               (value_of self a <= value_of self b)%Qc.
Proof.
  intros Hinv Hc Hnn Hlt Hlow.
  assert (Hpos : (0 < a_prev)%Qc) by (eapply Qcle_lt_trans; eauto).
  assert (Hnz : a_prev <> 0%Qc) by now apply Qcpos_nonzero.
  destruct (lowest_dropout_first_minimum _ _ _ _ Hlow)
    as (l1 & l2 & Hact & Hp & H1 & H2).
  assert (Hina : In a (active_advertisers st)).
  { rewrite Hact. apply in_or_app. right. now left. }
  rewrite (round_price_value _ _ _ _ _ Hinv Hina Hc Hnz) in Hp.
  injection Hp as Hp. split; [exact Hina|]. split; [now symmetry|].
  intros b Hb.
  assert (Hq : exists q, round_price self st b = Ok q /\ (p <= q)%Qc).
  { rewrite Hact in Hb. apply in_app_or in Hb. destruct Hb as [Hb|[Hb|Hb]].
    - destruct (H1 _ Hb) as (q & Hq & Hpq). exists q. split; auto.
      now apply Qclt_le_weak.
    - subst b. exists p. split; [|apply Qcle_refl].
      rewrite (round_price_value _ _ _ _ _ Hinv Hina Hc Hnz). now f_equal.
    - now apply H2. }
  destruct Hq as (q & Hq & Hpq).
  rewrite (round_price_value _ _ _ _ _ Hinv Hb Hc Hnz) in Hq.
  injection Hq as Hq. subst p q.
  destruct (Qclt_le_dec (value_of self b) (value_of self a)) as [Hba|Hab];
    [|exact Hab].
  exfalso. apply (Qcle_not_lt _ _ Hpq).
  now apply price_formula_strictly_monotone.
Qed.

Section Equivalence.

Context `{ArgSort}.
Variable self : GeneralizedEnglishAuction.
Hypothesis V : valid_instance self.
Hypothesis strict : strictly_descending_rates self.
Hypothesis distinct : NoDup (values self).
Hypothesis size : 2 <= n_slots self \/ n_advertisers self <= n_slots self.

Let rank : list Z := argsort (map Qcopp (values self)).

Lemma rank_perm : Permutation rank (range 0 (n_advertisers self)).
Proof. apply argsort_values_perm. Qed.

Lemma n_advertisers_nonneg : 0 <= n_advertisers self.
Proof. apply len_nonneg. Qed.

Lemma length_rank : length rank = Z.to_nat (n_advertisers self).
Proof.
  pose proof (len_rank _ _ rank_perm n_advertisers_nonneg) as E.
  unfold len in E. lia.
Qed.

Lemma ctr_positive (k : Z) : 0 <= k < n_slots self -> (0 < ctr self k)%Qc.
Proof.
  intros Hk. apply Qcle_lt_trans with (ctr self (k + 1)); [|now apply strict].
  apply ctr_nonneg; [apply V|apply V|lia].
Qed.

Lemma strict_round_ctrs (i : Z) :
  2 <= i -> i <= n_slots self \/ 2 <= n_slots self ->
  exists a_i a_prev,
    dropout_ctrs self i = Ok (a_i, a_prev)
    /\ (0 <= a_i)%Qc /\ (a_i < a_prev)%Qc
    /\ (i = n_slots self + 1 -> a_i = 0%Qc)
    /\ (i <= n_slots self ->
        a_i = ctr self (i - 1) /\ a_prev = ctr self (i - 2)).
Proof.
  intros Hi Hsize. destruct (Z_le_gt_dec i (n_slots self)) as [Hle|Hgt].
  - destruct (valid_ctrs_in_range self i V) as (Hc & Hnn & _ & _); [lia|].
    exists (ctr self (i - 1)), (ctr self (i - 2)).
    split; [exact Hc|]. split; [exact Hnn|]. split; [|split; [lia|auto]].
    replace (i - 1) with (i - 2 + 1) by lia. apply strict. lia.
  - assert (Hs : 2 <= n_slots self) by lia.
    rewrite (dropout_ctrs_saturated self i (valid_len _ V) Hs) by lia.
    eexists _, _. split; [reflexivity|].
    destruct (Z.eqb_spec i (n_slots self + 1)) as [E|E].
    + rewrite (valid_last _ V). split; [apply Qcle_refl|].
      split; [apply ctr_positive; lia|]. split; [reflexivity|lia].
    + split; [apply Qclt_le_weak, ctr_positive; lia|].
      split; [|split; lia].
      replace (n_slots self - 1) with (n_slots self - 2 + 1) by lia.
      apply strict. lia.
Qed.

(** The advertiser who leaves is the lowest active rank. *)
Lemma leaver_is_lowest_rank (st : state) (a : Z) :
  ranked_inv self rank st ->
  In a (active_advertisers st) ->
  (forall b, In b (active_advertisers st) ->
             (value_of self a <= value_of self b)%Qc) ->
  1 <= len (active_advertisers st) <= n_advertisers self
  /\ a = rank_at rank (len (active_advertisers st) - 1).
Proof.
  intros [Hinv Hact _] Hin Hlow.
  set (k := length (active_advertisers st)) in *.
  assert (Hk : (k <= length rank)%nat).
  { pose proof (Permutation_length Hact) as E. fold k in E.
    rewrite length_firstn in E. lia. }
  assert (Hk1 : (1 <= k)%nat).
  { subst k. destruct (active_advertisers st); [destruct Hin|simpl; lia]. }
  rewrite length_rank in Hk.
  assert (Hlen : len (active_advertisers st) = Z.of_nat k) by reflexivity.
  split; [lia|]. rewrite Hlen.
  assert (Hlast : In (rank_at rank (Z.of_nat k - 1)) (active_advertisers st)).
  { apply (Permutation_in _ (Permutation_sym Hact)). unfold rank_at.
    apply nth_In_firstn; [lia|rewrite length_rank; lia]. }
  apply (Permutation_in _ Hact) in Hin.
  destruct (In_firstn_nth _ _ _ 0 Hin) as (j & Hj & Hjl & E).
  apply (value_of_injective self); auto.
  - apply (inv_range _ _ Hinv). apply (Permutation_in _ (Permutation_sym Hact)).
    exact Hin.
  - apply (inv_range _ _ Hinv), Hlast.
  - apply Qcle_antisym; [now apply Hlow|].
    rewrite <- E.
    replace (nth j rank 0) with (rank_at rank (Z.of_nat j))
      by (unfold rank_at; now rewrite Nat2Z.id).
    apply ranking_descends; lia.
Qed.

Lemma ranked_inv_round (st st' : state) (a : Z) (l1 l2 : list Z) (v : Qc) :
  ranked_inv self rank st ->
  active_advertisers st = l1 ++ a :: l2 ->
  active_advertisers st' = l1 ++ l2 ->
  1 <= len (active_advertisers st) <= n_advertisers self ->
  a = rank_at rank (len (active_advertisers st) - 1) ->
  setitem (prices st) a v = Ok (prices st') ->
  v = vcg_price_of_rank self rank (len (active_advertisers st) - 1) ->
  ranked_inv self rank st'.
Proof.
  intros [Hinv Hact Hpr] E E' Hk Ha Hset Hv.
  destruct (round_inv_shrink self st st' a l1 l2 v Hinv E E' Hset)
    as (Hinv' & _ & Ha0 & Hget).
  assert (Hlen : length (active_advertisers st)
                 = S (length (active_advertisers st'))).
  { rewrite E, E', !length_app. simpl. lia. }
  assert (Hlen' : len (active_advertisers st')
                  = len (active_advertisers st) - 1).
  { unfold len. lia. }
  split; [exact Hinv'| |].
  - rewrite Hlen in Hact.
    rewrite (firstn_snoc rank _ 0) in Hact by (rewrite length_rank; unfold len in Hk; lia).
    assert (Ea : nth (length (active_advertisers st')) rank 0 = a).
    { rewrite Ha. unfold rank_at. f_equal. unfold len. lia. }
    rewrite Ea, E in Hact. apply Permutation_app_inv in Hact.
    rewrite app_nil_r, <- E' in Hact. exact Hact.
  - intros j Hj. rewrite Hlen' in Hj.
    destruct (Z.eq_dec j (len (active_advertisers st) - 1)) as [->|Hne].
    + rewrite <- Ha, <- Hv. exact Hget.
    + rewrite (getitem_setitem_other (prices st) (prices st') a
                 (rank_at rank j) v Ha0); auto.
      * apply Hpr. lia.
      * apply (rank_at_range _ _ rank_perm n_advertisers_nonneg). lia.
      * rewrite Ha. intros Heq.
        apply (rank_at_injective _ _ rank_perm n_advertisers_nonneg) in Heq;
          lia.
Qed.

Lemma excess_ranked_initial : excess_ranked_inv self rank (initial_state self).
Proof.
  assert (Hl : len (active_advertisers (initial_state self))
               = n_advertisers self).
  { simpl. rewrite len_range; [lia|apply n_advertisers_nonneg]. }
  split; [apply excess_inv_initial| |reflexivity|lia].
  split; [apply round_inv_initial| |intros j Hj; lia].
  simpl. rewrite length_range, Z.sub_0_r, <- length_rank, firstn_all.
  apply Permutation_sym, rank_perm.
Qed.

Lemma excess_ranked_round (st st' : state) :
  excess_ranked_inv self rank st -> excess_cond self st = true ->
  excess_round self st = Ok st' -> excess_ranked_inv self rank st'.
Proof.
  intros [Hex Hrk Hfresh Hlast] Hcond Hround.
  pose proof (excess_inv_round _ _ _ Hex Hcond Hround) as Hex'.
  destruct (excess_round_Ok_inv _ _ _ Hround)
    as (a & p & l1 & l2 & Hlow & E & _ & E' & Hh & _ & _ & Hset).
  unfold excess_cond in Hcond. apply Z.gtb_lt in Hcond.
  pose proof (valid_n_slots _ V) as Hs.
  pose proof (ex_history _ _ Hex) as Hhist.
  pose proof (len_nonneg (history st)) as Hh0.
  destruct (strict_round_ctrs (len (active_advertisers st)))
    as (a_i & a_prev & Hc & Hnn & Hlt & Hzero & _); [lia|lia|].
  destruct (leaver_has_lowest_value _ _ _ _ _ _ (ex_round _ _ Hex) Hc Hnn Hlt Hlow)
    as (Hin & Hp & Hmin).
  destruct (leaver_is_lowest_rank _ _ Hrk Hin Hmin) as (Hk & Ha).
  assert (Hlen' : len (active_advertisers st')
                  = len (active_advertisers st) - 1).
  { unfold len. rewrite E, E', !length_app. simpl. lia. }
  split; [exact Hex'| |intros; lia|].
  - apply (ranked_inv_round st st' a l1 l2 0%Qc); auto.
    unfold vcg_price_of_rank.
    destruct (Z.ltb_spec (len (active_advertisers st) - 1) (n_slots self));
      [lia|reflexivity].
  - intros _ Hn. rewrite Hh, last_last, Hp, Hzero by lia.
    rewrite price_formula_at_zero_rate, Ha. do 2 f_equal. lia.
Qed.

Lemma closed_form_price_last_rank :
  n_advertisers self <= n_slots self ->
  closed_form_price self rank (n_advertisers self - 1) = 0%Qc.
Proof.
  intros Hn. unfold closed_form_price, externality.
  rewrite (len_rank _ _ rank_perm n_advertisers_nonneg).
  rewrite sum_range_empty by lia.
  destruct (Qc_ltb _ _); [|reflexivity]. unfold Qcdiv. ring.
Qed.

Lemma closed_form_price_last_slot :
  n_slots self < n_advertisers self ->
  closed_form_price self rank (n_slots self - 1)
  = value_of self (rank_at rank (n_slots self)).
Proof.
  intros Hn. pose proof (valid_n_slots _ V) as Hs.
  assert (Hpos : (0 < ctr self (n_slots self - 1))%Qc)
    by (apply ctr_positive; lia).
  unfold closed_form_price, externality.
  rewrite (proj2 (Qc_ltb_true_iff _ _) Hpos).
  rewrite (len_rank _ _ rank_perm n_advertisers_nonneg).
  replace (Z.min (n_slots self) (n_advertisers self - 1) + 1)
    with (n_slots self - 1 + 1 + 1) by lia.
  rewrite sum_range_first, sum_range_empty by lia.
  replace (n_slots self - 1 + 1) with (n_slots self) by lia.
  rewrite (valid_last _ V). field. now apply Qcpos_nonzero.
Qed.

(** The recurrence that ties the clock to the closed form: the drop-out
    price of rank [k - 1] at the VCG price of rank [k - 1] is the VCG price
    of rank [k - 2]. *)
Lemma closed_form_price_step (k : Z) :
  2 <= k <= n_slots self -> k <= n_advertisers self ->
  price_formula (ctr self (k - 1)) (ctr self (k - 2))
                (closed_form_price self rank (k - 1))
                (value_of self (rank_at rank (k - 1)))
  = closed_form_price self rank (k - 2).
Proof.
  intros Hk Hn.
  assert (Hp1 : (0 < ctr self (k - 1))%Qc) by (apply ctr_positive; lia).
  assert (Hp2 : (0 < ctr self (k - 2))%Qc) by (apply ctr_positive; lia).
  unfold closed_form_price, externality, price_formula.
  rewrite (proj2 (Qc_ltb_true_iff _ _) Hp1), (proj2 (Qc_ltb_true_iff _ _) Hp2).
  rewrite (len_rank _ _ rank_perm n_advertisers_nonneg).
  rewrite (sum_range_first _ (k - 2 + 1)) by lia.
  replace (k - 2 + 1 + 1) with (k - 1 + 1) by lia.
  replace (k - 2 + 1 - 1) with (k - 2) by lia.
  replace (k - 2 + 1) with (k - 1) by lia.
  field. split; now apply Qcpos_nonzero.
Qed.

Lemma allocation_ranked_start (st : state) :
  excess_ranked_inv self rank st -> excess_cond self st = false ->
  allocation_ranked_inv self rank
    (Z.min (n_advertisers self) (n_slots self)) st.
Proof.
  intros [Hex Hrk Hfresh Hlast] Hcond.
  pose proof (valid_n_slots _ V) as Hs.
  pose proof (valid_has_advertiser _ V) as Hn.
  pose proof (allocation_inv_start self st Hs Hn Hex Hcond) as Hal.
  unfold excess_cond in Hcond.
  assert (Hle : len (active_advertisers st) <= n_slots self).
  { destruct (Z.gtb_spec (len (active_advertisers st)) (n_slots self));
      [discriminate|lia]. }
  pose proof (ex_active _ _ Hex) as Hact.
  pose proof (ex_history _ _ Hex) as Hhist.
  pose proof (len_nonneg (history st)) as Hh0.
  split; [exact Hal|exact Hrk| |].
  - destruct (Z.eq_dec (len (active_advertisers st)) (n_advertisers self))
      as [E|E].
    + rewrite (Hfresh E), E. simpl. symmetry.
      apply closed_form_price_last_rank. lia.
    + assert (E' : len (active_advertisers st) = n_slots self) by lia.
      rewrite Hlast, E' by lia. symmetry.
      apply closed_form_price_last_slot. lia.
  - intros Hm j Hj. lia.
Qed.

Lemma allocation_ranked_round (m : Z) (st st' : state) :
  allocation_ranked_inv self rank m st -> allocation_cond st = true ->
  allocation_round self st = Ok st' -> allocation_ranked_inv self rank m st'.
Proof.
  intros [Hal Hrk Hlast Hslots] Hcond Hround.
  pose proof (allocation_inv_round _ _ _ _ Hal Hcond Hround) as Hal'.
  destruct (allocation_round_Ok_inv _ _ _ Hround)
    as (a & p & l1 & l2 & Hlow & E & _ & E' & Hh & Halloc & Hnext & Hset).
  unfold allocation_cond in Hcond. apply andb_prop in Hcond.
  destruct Hcond as [Hk2 Hnx]. apply Z.gtb_lt in Hk2. apply Z.geb_le in Hnx.
  pose proof (al_active _ _ _ Hal) as Hkm.
  pose proof (al_m _ _ _ Hal) as Hm.
  destruct (strict_round_ctrs (len (active_advertisers st)))
    as (a_i & a_prev & Hc & Hnn & Hlt & _ & Hin_range); [lia|lia|].
  destruct Hin_range as [-> ->]; [lia|].
  destruct (leaver_has_lowest_value _ _ _ _ _ _ (al_round _ _ _ Hal)
              Hc Hnn Hlt Hlow) as (Hin & Hp & Hmin).
  destruct (leaver_is_lowest_rank _ _ Hrk Hin Hmin) as (Hk & Ha).
  assert (Hlen' : len (active_advertisers st')
                  = len (active_advertisers st) - 1).
  { unfold len. rewrite E, E', !length_app. simpl. lia. }
  split; [exact Hal'| | |].
  - apply (ranked_inv_round st st' a l1 l2 (last (history st) 0%Qc)); auto.
    rewrite Hlast. unfold vcg_price_of_rank.
    destruct (Z.ltb_spec (len (active_advertisers st) - 1) (n_slots self));
      [reflexivity|lia].
  - rewrite Hh, last_last, Hp, Hlast, Ha, Hlen'.
    replace (len (active_advertisers st) - 1 - 1)
      with (len (active_advertisers st) - 2) by lia.
    apply closed_form_price_step; lia.
  - intros Em j Hj. rewrite Hlen' in Hj.
    pose proof (al_next _ _ _ Hal) as Hns.
    pose proof (al_len _ _ _ Hal) as Hal_len.
    destruct (setitem_Ok_inv _ _ _ _ Halloc) as (_ & ->).
    rewrite norm_index_nonneg by lia.
    destruct (Z.eq_dec j (len (active_advertisers st) - 1)) as [->|Hne].
    + replace (next_slot_to_fill st) with (len (active_advertisers st) - 1)
        by lia.
      rewrite nth_update_eq; [exact Ha|]. unfold len in *. lia.
    + rewrite nth_update_neq by lia. apply Hslots; [exact Em|lia].
Qed.

(** The run as a whole: it returns, every rank has its VCG price, and with
    as many advertisers as slots or more every slot holds the advertiser of
    its rank. *)
Lemma run_auction_by_rank :
  exists alloc pr hist,
    run_auction self = Ok (alloc, pr, hist)
    /\ len pr = n_advertisers self
    /\ len alloc = n_slots self
    /\ (forall j, 0 <= j < n_advertisers self ->
          getitem pr (rank_at rank j) = Ok (vcg_price_of_rank self rank j))
    /\ (n_slots self <= n_advertisers self ->
        forall j, 0 <= j < n_slots self ->
          nth (Z.to_nat j) alloc (-1) = rank_at rank j).
Proof.
  destruct (run_auction_returns self V size) as (alloc & pr & hist & Hrun).
  exists alloc, pr, hist. split; [exact Hrun|].
  destruct (run_auction_Ok_inv _ _ _ _ Hrun)
    as (st1 & st2 & st3 & _ & Hr1 & Hc1 & _ & Hr2 & Hc2 & Hfin & -> & -> & _).
  pose proof (valid_n_slots _ V) as Hs.
  pose proof (valid_has_advertiser _ V) as Hn.
  assert (H1 : excess_ranked_inv self rank st1).
  { apply (reaches_invariant _ _ (excess_ranked_inv self rank) _ _
             excess_ranked_round Hr1 excess_ranked_initial). }
  set (m := Z.min (n_advertisers self) (n_slots self)).
  assert (H2 : allocation_ranked_inv self rank m st2).
  { apply (reaches_invariant _ _ (allocation_ranked_inv self rank m) _ _
             (allocation_ranked_round m) Hr2).
    now apply allocation_ranked_start. }
  destruct H2 as [Hal Hrk Hlast Hslots].
  destruct (allocation_inv_exit _ _ _ Hal Hc2) as (a & Hact & Hnext).
  destruct (final_assignment_Ok_inv _ _ Hfin)
    as [(_ & [Hnil|Hneg])|(a' & rest & Hact' & _ & Halloc & Hset & _)];
    [rewrite Hact in Hnil; discriminate | subst m; lia |].
  rewrite Hact in Hact'. injection Hact' as <- <-.
  assert (Hlen1 : len (active_advertisers st2) = 1) by now rewrite Hact.
  assert (Ha : a = rank_at rank 0).
  { pose proof (rk_active _ _ _ Hrk) as Hp. rewrite Hact in Hp.
    change (length [a]) with 1%nat in Hp.
    assert (Hr : (0 < length rank)%nat) by (rewrite length_rank; lia).
    rewrite (firstn_snoc rank 0 0 Hr) in Hp. simpl in Hp.
    now apply Permutation_length_1 in Hp. }
  assert (Ha0 : 0 <= a).
  { apply (inv_range _ _ (rk_round _ _ _ Hrk)). rewrite Hact. now left. }
  split; [|split; [|split]].
  - rewrite (setitem_len _ _ _ _ Hset). apply (inv_prices _ _ (rk_round _ _ _ Hrk)).
  - rewrite (setitem_len _ _ _ _ Halloc). apply (al_len _ _ _ Hal).
  - intros j Hj. destruct (Z.eq_dec j 0) as [->|Hne].
    + rewrite <- Ha. rewrite (getitem_setitem_same _ _ _ _ Ha0 Hset).
      rewrite Hlast, Hlen1. unfold vcg_price_of_rank.
      destruct (Z.ltb_spec 0 (n_slots self)); [reflexivity|lia].
    + pose proof (rank_at_range _ _ rank_perm n_advertisers_nonneg j Hj)
        as Hrj.
      assert (Hneq : a <> rank_at rank j).
      { rewrite Ha. intros Heq.
        apply (rank_at_injective _ _ rank_perm n_advertisers_nonneg) in Heq;
          lia. }
      rewrite (getitem_setitem_other (prices st2) (prices st3) a
                 (rank_at rank j) (last (history st2) 0%Qc) Ha0
                 (proj1 Hrj) Hneq Hset).
      apply (rk_prices _ _ _ Hrk). lia.
  - intros Hge j Hj.
    destruct (setitem_Ok_inv _ _ _ _ Halloc) as (Hi & ->).
    rewrite norm_index_nonneg in * by lia.
    destruct (Z.eq_dec j 0) as [->|Hne].
    + rewrite nth_update_eq; [exact Ha|]. unfold len in Hi. lia.
    + rewrite nth_update_neq by lia. apply Hslots; subst m; lia.
Qed.

End Equivalence.


(** ** Advertisers without a slot *)

Lemma In_update_inv {A : Type} (l : list A) (k : nat) (v x : A) :
  In x (update l k v) -> x = v \/ In x l.
Proof.
  revert k. induction l as [|y l IH]; intros k Hin; [destruct Hin|].
  destruct k as [|k]; simpl in Hin.
  - destruct Hin as [E|Hin]; [now left|right; now right].
  - destruct Hin as [E|Hin]; [right; now left|].
    destruct (IH _ Hin); [now left|right; now right].
Qed.

Lemma In_update_other {A : Type} (l : list A) (k : nat) (v x d : A) :
  In x l -> nth k l d <> x -> In x (update l k v).
Proof.
  revert k. induction l as [|y l IH]; intros k Hin Hne; [destruct Hin|].
  destruct k as [|k]; simpl in *.
  - destruct Hin as [E|Hin]; [contradiction|now right].
  - destruct Hin as [E|Hin]; [now left|right; now apply IH].
Qed.

Lemma In_update_same {A : Type} (l : list A) (k : nat) (v : A) :
  (k < length l)%nat -> In v (update l k v).
Proof.
  revert k. induction l as [|y l IH]; intros k Hk; simpl in Hk; [lia|].
  destruct k as [|k]; simpl; [now left|right; apply IH; lia].
Qed.

Section WithoutSlot.

Variable self : GeneralizedEnglishAuction.

Lemma without_slot_unpaid_initial : without_slot_unpaid self (initial_state self).
Proof.
  intros b Hb _ _. simpl.
  rewrite (getitem_nonneg _ _ 0%Qc) by (rewrite len_replicate; lia).
  f_equal. apply nth_replicate. lia.
Qed.

(** A leaver's new price aside, a round changes no price; a slot that is
    filled was free. *)
Lemma without_slot_unpaid_round (st st' : state) (a : Z) (l1 l2 : list Z)
  (v : Qc) :
  round_inv self st -> without_slot_unpaid self st ->
  active_advertisers st = l1 ++ a :: l2 ->
  active_advertisers st' = l1 ++ l2 ->
  setitem (prices st) a v = Ok (prices st') ->
  (In a (allocation st') \/ v = 0%Qc) ->
  (forall b, 0 <= b -> In b (allocation st) -> In b (allocation st')) ->
  without_slot_unpaid self st'.
Proof.
  intros Hinv Hun E E' Hset Ha Halloc b Hb Hact Hfree.
  assert (Ha0 : 0 <= a).
  { apply (inv_range _ _ Hinv). rewrite E. apply in_or_app. right. now left. }
  destruct (Z.eq_dec a b) as [->|Hne].
  - destruct Ha as [Ha| ->]; [contradiction|].
    exact (getitem_setitem_same _ _ _ _ Ha0 Hset).
  - rewrite (getitem_setitem_other (prices st) (prices st') a b v Ha0
               (proj1 Hb) Hne Hset).
    apply Hun; [exact Hb| |].
    + rewrite E. rewrite E' in Hact. intros Hin. apply Hact.
      apply in_app_or in Hin. apply in_or_app.
      destruct Hin as [Hin|[Hin|Hin]]; [now left|contradiction|now right].
    + intros Hin. apply Hfree, Halloc; [lia|exact Hin].
Qed.

Lemma without_slot_unpaid_excess (st st' : state) :
  excess_inv self st /\ without_slot_unpaid self st ->
  excess_cond self st = true -> excess_round self st = Ok st' ->
  excess_inv self st' /\ without_slot_unpaid self st'.
Proof.
  intros [Hex Hun] Hcond Hround.
  split; [now apply (excess_inv_round self st)|].
  destruct (excess_round_Ok_inv _ _ _ Hround)
    as (a & p & l1 & l2 & _ & E & _ & E' & _ & Halloc & _ & Hset).
  apply (without_slot_unpaid_round st st' a l1 l2 0%Qc); auto.
  - apply Hex.
  - intros b _. now rewrite Halloc.
Qed.

Lemma without_slot_unpaid_allocation (m : Z) (st st' : state) :
  allocation_inv self m st /\ without_slot_unpaid self st ->
  allocation_cond st = true -> allocation_round self st = Ok st' ->
  allocation_inv self m st' /\ without_slot_unpaid self st'.
Proof.
  intros [Hal Hun] Hcond Hround.
  split; [now apply (allocation_inv_round self m st)|].
  destruct (allocation_round_Ok_inv _ _ _ Hround)
    as (a & p & l1 & l2 & _ & E & _ & E' & _ & Halloc & _ & Hset).
  unfold allocation_cond in Hcond. apply andb_prop in Hcond.
  destruct Hcond as [_ Hnx]. apply Z.geb_le in Hnx.
  destruct (setitem_Ok_inv _ _ _ _ Halloc) as (Hi & Eq).
  rewrite norm_index_nonneg in Hi, Eq by lia.
  apply (without_slot_unpaid_round st st' a l1 l2 (last (history st) 0%Qc));
    auto.
  - apply Hal.
  - left. rewrite Eq. apply In_update_same. unfold len in Hi. lia.
  - intros b Hb Hin. rewrite Eq. apply (In_update_other _ _ _ _ (-1)); auto.
    rewrite (al_free _ _ _ Hal) by lia. lia.
Qed.

End WithoutSlot.

(** "Dropped out, no slot, pays nothing": on a valid instance (two slots or
    more, or no more advertisers than slots) [run_auction] returns, and
    every advertiser who is in no slot of the allocation has price 0. *)
Theorem advertisers_without_slot_pay_nothing
  (self : GeneralizedEnglishAuction) :
  valid_instance self ->
  2 <= n_slots self \/ n_advertisers self <= n_slots self ->
  exists alloc pr hist,
    run_auction self = Ok (alloc, pr, hist)
    /\ forall b, 0 <= b < n_advertisers self -> ~ In b alloc ->
                 getitem pr b = Ok 0%Qc.
Proof.
  intros V Hsize.
  destruct (run_auction_returns self V Hsize) as (alloc & pr & hist & Hrun).
  exists alloc, pr, hist. split; [exact Hrun|].
  destruct (run_auction_Ok_inv _ _ _ _ Hrun)
    as (st1 & st2 & st3 & _ & Hr1 & Hc1 & _ & Hr2 & Hc2 & Hfin & -> & -> & _).
  pose proof (valid_n_slots _ V) as Hs.
  pose proof (valid_has_advertiser _ V) as Hn.
  assert (H1 : excess_inv self st1 /\ without_slot_unpaid self st1).
  { apply (reaches_invariant _ _
             (fun s => excess_inv self s /\ without_slot_unpaid self s) _ _
             (without_slot_unpaid_excess self) Hr1).
    split; [apply excess_inv_initial|apply without_slot_unpaid_initial]. }
  destruct H1 as [Hex1 Hun1].
  set (m := Z.min (n_advertisers self) (n_slots self)).
  assert (H2 : allocation_inv self m st2 /\ without_slot_unpaid self st2).
  { apply (reaches_invariant _ _
             (fun s => allocation_inv self m s /\ without_slot_unpaid self s)
             _ _ (without_slot_unpaid_allocation self m) Hr2).
    split; [now apply allocation_inv_start|exact Hun1]. }
  destruct H2 as [Hal Hun].
  destruct (allocation_inv_exit _ _ _ Hal Hc2) as (a & Hact & Hnext).
  destruct (final_assignment_Ok_inv _ _ Hfin)
    as [(_ & [Hnil|Hneg])|(a' & rest & Hact' & Hnx & Halloc & Hset & _)];
    [rewrite Hact in Hnil; discriminate | subst m; lia |].
  rewrite Hact in Hact'. injection Hact' as <- <-.
  destruct (setitem_Ok_inv _ _ _ _ Halloc) as (Hi & Eq).
  rewrite norm_index_nonneg in Hi, Eq by lia.
  assert (Ha0 : 0 <= a).
  { apply (inv_range _ _ (al_round _ _ _ Hal)). rewrite Hact. now left. }
  intros b Hb Hfree.
  assert (Hne : a <> b).
  { intros <-. apply Hfree. rewrite Eq. apply In_update_same.
    unfold len in Hi. lia. }
  rewrite (getitem_setitem_other (prices st2) (prices st3) a b _ Ha0
             (proj1 Hb) Hne Hset).
  apply Hun; [exact Hb| |].
  - rewrite Hact. intros [E|[]]. contradiction.
  - intros Hin. apply Hfree. rewrite Eq.
    apply (In_update_other _ _ _ _ (-1)); auto.
    change 0%nat with (Z.to_nat 0). rewrite (al_free _ _ _ Hal) by lia. lia.
Qed.

(** ** The results table *)

(** What a returning run hands to [display_results]: one entry per slot,
    one price per advertiser, every entry an advertiser or -1. *)
Lemma run_auction_shapes (self : GeneralizedEnglishAuction)
  (alloc : list Z) (pr hist : list Qc) :
  1 <= n_slots self -> 1 <= n_advertisers self ->
  run_auction self = Ok (alloc, pr, hist) ->
  len alloc = n_slots self /\ len pr = n_advertisers self
  /\ forall k, nth k alloc (-1) = -1
               \/ 0 <= nth k alloc (-1) < n_advertisers self.
Proof.
  intros Hs Hn Hrun.
  destruct (run_auction_Ok_inv _ _ _ _ Hrun)
    as (st1 & st2 & st3 & _ & Hr1 & Hc1 & _ & Hr2 & Hc2 & Hfin & -> & -> & _).
  assert (H1 : excess_inv self st1).
  { apply (reaches_invariant _ _ (excess_inv self) _ _
             (excess_inv_round self) Hr1 (excess_inv_initial self)). }
  set (m := Z.min (n_advertisers self) (n_slots self)).
  assert (Hal : allocation_inv self m st2).
  { apply (reaches_invariant _ _ (allocation_inv self m) _ _
             (allocation_inv_round self m) Hr2).
    now apply allocation_inv_start. }
  destruct (allocation_inv_exit _ _ _ Hal Hc2) as (a & Hact & Hnext).
  destruct (final_assignment_Ok_inv _ _ Hfin)
    as [(_ & [Hnil|Hneg])|(a' & rest & Hact' & Hnx & Halloc & Hset & _)];
    [rewrite Hact in Hnil; discriminate | subst m; lia |].
  rewrite Hact in Hact'. injection Hact' as <- <-.
  destruct (setitem_Ok_inv _ _ _ _ Halloc) as (Hi & Eq).
  rewrite norm_index_nonneg in Hi, Eq by lia.
  assert (Ha : 0 <= a < n_advertisers self).
  { apply (inv_range _ _ (al_round _ _ _ Hal)). rewrite Hact. now left. }
  split; [|split].
  - rewrite (setitem_len _ _ _ _ Halloc). apply (al_len _ _ _ Hal).
  - rewrite (setitem_len _ _ _ _ Hset).
    apply (inv_prices _ _ (al_round _ _ _ Hal)).
  - intros k. rewrite Eq. destruct (Nat.eq_dec (Z.to_nat 0) k) as [<-|Hne].
    + right. rewrite nth_update_eq; [exact Ha|]. unfold len in Hi. lia.
    + rewrite nth_update_neq by exact Hne.
      destruct (al_entries _ _ _ Hal k) as [E|[E _]]; [now left|now right].
Qed.

Lemma display_results_rows (self : GeneralizedEnglishAuction)
  (alloc : list Z) (pr : list Qc) (slots : list Z) (printed : list table_row)
  (total : Qc) :
  len (ctrs self) = n_slots self + 1 ->
  len alloc = n_slots self -> len pr = n_advertisers self ->
  (forall k, nth k alloc (-1) = -1
             \/ 0 <= nth k alloc (-1) < n_advertisers self) ->
  (forall slot, In slot slots -> 0 <= slot < n_slots self) ->
  foldM (fun '(printed, total_revenue) slot =>
           adv <- getitem alloc slot ;;
           if adv <? 0 then
             rate <- getitem (ctrs self) slot ;;
             Ok (printed ++ [empty_slot slot rate], total_revenue)
           else
             rate <- getitem (ctrs self) slot ;;
             value <- getitem (values self) adv ;;
             price <- getitem pr adv ;;
             let payment := (price * rate)%Qc in
             let utility := ((value - price) * rate)%Qc in
             Ok (printed
                 ++ [filled_slot slot rate adv value price payment utility],
                 (total_revenue + payment)%Qc))
        slots (printed, total)
  = Ok (printed ++ map (table_row_of self alloc pr) slots,
        (total + np_sum (map (payment_of self alloc pr) slots))%Qc).
Proof.
  intros Hc Ha Hp Hent. revert printed total.
  induction slots as [|slot slots IH]; intros printed total Hslots.
  - simpl. rewrite app_nil_r. do 2 f_equal. ring.
  - assert (Hslot : 0 <= slot < n_slots self) by (apply Hslots; now left).
    cbn [foldM map].
    rewrite (getitem_nonneg alloc slot (-1)) by lia. cbn [bind].
    rewrite (getitem_nonneg (ctrs self) slot 0%Qc) by lia.
    fold (ctr self slot).
    assert (Hsum : forall x l, np_sum (x :: l) = (x + np_sum l)%Qc)
      by reflexivity.
    destruct (nth (Z.to_nat slot) alloc (-1) <? 0) eqn:Hlt;
      [apply Z.ltb_lt in Hlt as Hneg|apply Z.ltb_ge in Hlt as Hpos].
    + assert (Er : table_row_of self alloc pr slot
                   = empty_slot slot (ctr self slot))
        by (unfold table_row_of; now rewrite Hlt).
      assert (Ep : payment_of self alloc pr slot = 0%Qc)
        by (unfold payment_of; now rewrite Hlt).
      cbn [bind]. rewrite IH by (intros; apply Hslots; now right).
      rewrite Er, Ep, Hsum, <- app_assoc. cbn [app]. do 2 f_equal. ring.
    + destruct (Hent (Z.to_nat slot)) as [E|E]; [lia|].
      cbn [bind].
      rewrite (getitem_nonneg (values self) _ 0%Qc) by exact E.
      rewrite (getitem_nonneg pr _ 0%Qc) by lia. cbn [bind].
      rewrite IH by (intros; apply Hslots; now right).
      assert (Er : table_row_of self alloc pr slot
                   = let adv := nth (Z.to_nat slot) alloc (-1) in
                     let price := nth (Z.to_nat adv) pr 0%Qc in
                     filled_slot slot (ctr self slot) adv (value_of self adv)
                       price (price * ctr self slot)%Qc
                       ((value_of self adv - price) * ctr self slot)%Qc)
        by (unfold table_row_of; now rewrite Hlt).
      assert (Ep : payment_of self alloc pr slot
                   = (nth (Z.to_nat (nth (Z.to_nat slot) alloc (-1))) pr 0
                      * ctr self slot)%Qc)
        by (unfold payment_of; now rewrite Hlt).
      rewrite Er, Ep, Hsum, <- app_assoc. cbn [app]. unfold value_of.
      do 2 f_equal. ring.
Qed.

Lemma display_results_value (self : GeneralizedEnglishAuction)
  (alloc : list Z) (pr : list Qc) :
  len (ctrs self) = n_slots self + 1 ->
  len alloc = n_slots self -> len pr = n_advertisers self ->
  (forall k, nth k alloc (-1) = -1
             \/ 0 <= nth k alloc (-1) < n_advertisers self) ->
  display_results self alloc pr
  = Ok (map (table_row_of self alloc pr) (range 0 (n_slots self)),
        sum_range (payment_of self alloc pr) 0 (n_slots self)).
Proof.
  intros Hc Ha Hp Hent. unfold display_results.
  rewrite (display_results_rows self alloc pr _ [] 0%Qc Hc Ha Hp Hent)
    by (intros slot Hin; now apply in_range in Hin).
  unfold sum_range. simpl. do 2 f_equal. ring.
Qed.

(** [display_results] after [run_auction].  On a valid instance (two slots
    or more, or no more advertisers than slots) the run returns and the
    table of its allocation and prices is printed without an error: one
    line per slot, and a total revenue that is the sum of the payments of
    the slots that are held. *)
Theorem display_results_after_run_auction
  (self : GeneralizedEnglishAuction) :
  valid_instance self ->
  2 <= n_slots self \/ n_advertisers self <= n_slots self ->
  exists alloc pr hist rows total,
    run_auction self = Ok (alloc, pr, hist)
    /\ display_results self alloc pr = Ok (rows, total)
    /\ len rows = n_slots self
    /\ total = sum_range (payment_of self alloc pr) 0 (n_slots self).
Proof.
  intros V Hsize.
  destruct (run_auction_returns self V Hsize) as (alloc & pr & hist & Hrun).
  pose proof (valid_n_slots _ V) as Hs.
  destruct (run_auction_shapes self alloc pr hist Hs
              (valid_has_advertiser _ V) Hrun) as (Ha & Hp & Hent).
  exists alloc, pr, hist. eexists _, _. split; [exact Hrun|].
  split; [now apply display_results_value; [apply V| | |]|].
  split; [|reflexivity].
  unfold len. rewrite length_map, length_range. lia.
Qed.

(** The table under the hypotheses of the main result, with values that are
    not negative: every advertiser in a slot is charged between 0 and their
    value per click, so no payment and no utility in the table is negative,
    and the total revenue is not negative. *)
Theorem display_results_individually_rational `{ArgSort}
  (self : GeneralizedEnglishAuction) :
  valid_instance self -> strictly_descending_rates self ->
  NoDup (values self) -> Forall (fun v => 0 <= v)%Qc (values self) ->
  2 <= n_slots self \/ n_advertisers self <= n_slots self ->
  exists alloc pr hist rows total,
    run_auction self = Ok (alloc, pr, hist)
    /\ display_results self alloc pr = Ok (rows, total)
    /\ Forall individually_rational rows
    /\ (0 <= total)%Qc.
Proof.
  intros V Hstrict Hdistinct Hnonneg Hsize.
  destruct (run_auction_by_rank self V Hstrict Hdistinct Hsize)
    as (alloc & pr & hist & Hrun & Hp & Ha & Hpr & _).
  pose proof (valid_n_slots _ V) as Hs.
  destruct (run_auction_shapes self alloc pr hist Hs
              (valid_has_advertiser _ V) Hrun) as (_ & _ & Hent).
  exists alloc, pr, hist. eexists _, _. split; [exact Hrun|].
  split; [now apply display_results_value; [apply V| | |]|].
  assert (Hprice : forall adv, 0 <= adv < n_advertisers self ->
            (0 <= nth (Z.to_nat adv) pr 0 <= value_of self adv)%Qc).
  { intros adv Hadv.
    destruct (rank_at_surjective _ _ adv (argsort_values_perm self) Hadv)
      as (j & Hj & E).
    specialize (Hpr j Hj). rewrite E in Hpr.
    rewrite (getitem_nonneg pr adv 0%Qc) in Hpr by lia.
    injection Hpr as ->. unfold vcg_price_of_rank.
    destruct (j <? n_slots self).
    - rewrite <- E.
      apply closed_form_price_bounds; auto; apply V.
    - split; [apply Qcle_refl|]. now apply value_of_nonneg. }
  assert (Hrate : forall slot, 0 <= slot < n_slots self ->
            (0 <= ctr self slot)%Qc).
  { intros slot Hslot. apply ctr_nonneg; [apply V|apply V|lia]. }
  split.
  - apply Forall_forall. intros r Hr. apply in_map_iff in Hr.
    destruct Hr as (slot & <- & Hslot). apply in_range in Hslot.
    unfold table_row_of, individually_rational.
    destruct (Z.ltb_spec (nth (Z.to_nat slot) alloc (-1)) 0) as [Hneg|Hpos];
      [exact I|].
    destruct (Hent (Z.to_nat slot)) as [E|E]; [lia|].
    destruct (Hprice _ E) as [H0 H1].
    split; [now split|]. split.
    + apply Qcmult_nonneg; auto.
    + apply Qcmult_nonneg; auto. now apply Qcdifference_nonneg.
  - apply sum_range_nonneg. intros slot Hslot. unfold payment_of.
    destruct (Z.ltb_spec (nth (Z.to_nat slot) alloc (-1)) 0) as [Hneg|Hpos];
      [apply Qcle_refl|].
    destruct (Hent (Z.to_nat slot)) as [E|E]; [lia|].
    apply Qcmult_nonneg; [apply (Hprice _ E)|now apply Hrate].
Qed.

(** ** The driver *)

Lemma comparison_returns (self : GeneralizedEnglishAuction)
  (alloc : list Z) (pr vcg : list Qc) :
  len pr = n_advertisers self -> len vcg = n_advertisers self ->
  exists rows, comparison self alloc pr vcg = Ok rows.
Proof.
  intros Hp Hv. unfold comparison.
  eexists. apply (mapM_Ok_intro _
    (fun adv => (adv, value_of self adv,
                 if existsb (Z.eqb adv) alloc
                 then Some (nth (Z.to_nat adv) pr 0%Qc) else None,
                 nth (Z.to_nat adv) vcg 0%Qc))).
  intros adv Hadv. apply in_range in Hadv.
  rewrite (getitem_nonneg (values self) adv 0%Qc) by exact Hadv.
  rewrite (getitem_nonneg pr adv 0%Qc) by lia.
  rewrite (getitem_nonneg vcg adv 0%Qc) by lia.
  now destruct (existsb _ _).
Qed.

Section Simulation.

Context `{ArgSort}.
Variables random gamma : Z -> Qc.
Variables slots advertisers : Z.

Let sorted : list Qc := rev (np_sort (map random (range 0 slots))).

Let auction : GeneralizedEnglishAuction :=
  {| n_slots := slots;
     ctrs := sorted ++ [0%Qc];
     values := map gamma (range 0 advertisers) |}.

Lemma length_sorted : length sorted = Z.to_nat slots.
Proof.
  unfold sorted.
  rewrite length_rev, (Permutation_length (np_sort_perm _)).
  apply length_map_range.
Qed.

Lemma simulation_ctrs_len : 0 <= slots -> len (ctrs auction) = slots + 1.
Proof.
  intros Hs. unfold len. simpl. rewrite length_app, length_sorted. simpl. lia.
Qed.

Lemma simulation_init :
  0 <= slots ->
  init slots (sorted ++ [0%Qc]) (map gamma (range 0 advertisers)) = Ok auction.
Proof.
  intros Hs. unfold init.
  pose proof (simulation_ctrs_len Hs) as E.
  change (len (sorted ++ [0%Qc]) = slots + 1) in E. rewrite E, Z.eqb_refl.
  rewrite (getitem_last _ 0%Qc) by (now destruct sorted).
  rewrite last_last. cbn [bind].
  now rewrite (proj2 (Qc_eqb_true_iff 0 0) eq_refl).
Qed.

Lemma simulation_n_advertisers :
  0 <= advertisers -> n_advertisers auction = advertisers.
Proof.
  intros Ha. unfold n_advertisers, len. simpl.
  rewrite length_map_range. lia.
Qed.

Hypothesis slots_pos : 1 <= slots.
Hypothesis advertisers_pos : 1 <= advertisers.
Hypothesis random_pos : forall k, 0 <= k < slots -> (0 < random k)%Qc.
Hypothesis gamma_pos : forall k, 0 <= k < advertisers -> (0 < gamma k)%Qc.

Lemma sorted_perm : Permutation sorted (map random (range 0 slots)).
Proof.
  unfold sorted. eapply Permutation_trans;
    [apply Permutation_sym, Permutation_rev|apply np_sort_perm].
Qed.

Lemma sorted_positive (k : Z) :
  0 <= k < slots -> (0 < nth (Z.to_nat k) sorted 0)%Qc.
Proof.
  intros Hk.
  assert (Hin : In (nth (Z.to_nat k) sorted 0%Qc) sorted)
    by (apply nth_In; rewrite length_sorted; lia).
  apply (Permutation_in _ sorted_perm) in Hin. apply in_map_iff in Hin.
  destruct Hin as (j & <- & Hj). apply in_range in Hj. now apply random_pos.
Qed.

Lemma simulation_ctr (k : Z) :
  0 <= k < slots -> ctr auction k = nth (Z.to_nat k) sorted 0%Qc.
Proof.
  intros Hk. unfold ctr. simpl. apply app_nth1. rewrite length_sorted. lia.
Qed.

Lemma simulation_ctr_last : ctr auction slots = 0%Qc.
Proof.
  unfold ctr. simpl. rewrite app_nth2 by (rewrite length_sorted; lia).
  rewrite length_sorted, Nat.sub_diag. reflexivity.
Qed.

Lemma sorted_descends (k : Z) :
  0 <= k -> k + 1 < slots ->
  (nth (Z.to_nat (k + 1)) sorted 0 <= nth (Z.to_nat k) sorted 0)%Qc.
Proof.
  intros Hk Hk1.
  assert (Hsd : StronglySorted descending sorted).
  { apply Sorted_StronglySorted; [exact descending_trans|].
    apply rev_ascending_is_descending, np_sort_sorted. }
  apply (StronglySorted_nth descending sorted 0%Qc (Z.to_nat k)
           (Z.to_nat (k + 1)) Hsd).
  rewrite length_sorted. lia.
Qed.

Lemma simulation_valid_with_ties : valid_instance auction.
Proof.
  split.
  - exact slots_pos.
  - apply simulation_ctrs_len. lia.
  - simpl. apply Forall_app. split; [|repeat constructor; apply Qcle_refl].
    apply Forall_forall. intros c Hc.
    destruct (In_nth _ _ 0%Qc Hc) as (k & Hk & <-).
    rewrite length_sorted in Hk. apply Qclt_le_weak.
    rewrite <- (Nat2Z.id k). apply sorted_positive. lia.
  - intros k Hk. simpl in Hk.
    destruct (Z.eq_dec (k + 1) slots) as [E|Hne].
    + rewrite E, simulation_ctr_last, simulation_ctr by lia.
      apply Qclt_le_weak, sorted_positive. lia.
    + rewrite !simulation_ctr by lia. apply sorted_descends; lia.
  - exact simulation_ctr_last.
  - intros k Hk Hk1 [E _]. simpl in Hk1.
    rewrite simulation_ctr in E by lia.
    apply (Qcpos_nonzero _ (sorted_positive k ltac:(lia))). exact E.
  - apply Exists_exists. exists (gamma 0). split; [|apply gamma_pos; lia].
    simpl. apply in_map, in_range. lia.
Qed.

End Simulation.

(** [run_simulation] returns.  With at least one slot and one advertiser
    (two slots or more, or no more advertisers than slots), positive draws
    of [random.random()] and a gamma sample of positive values, the
    simulation returns the auction object it built, on the draws in
    descending order followed by 0, with the results of its [run_auction]
    and of its [calculate_vcg_payments]: one allocation entry per slot, one
    price and one VCG price per advertiser, and a history with one entry
    less than there are advertisers. *)
Theorem run_simulation_returns `{ArgSort}
  (random gamma : Z -> Qc) (slots advertisers : Z) :
  1 <= slots -> 1 <= advertisers ->
  2 <= slots \/ advertisers <= slots ->
  (forall k, 0 <= k < slots -> (0 < random k)%Qc) ->
  (forall k, 0 <= k < advertisers -> (0 < gamma k)%Qc) ->
  exists auction allocation prices vcg_prices history,
    run_simulation random gamma slots advertisers
    = Ok (auction, allocation, prices, vcg_prices, history)
    /\ auction = {| n_slots := slots;
                    ctrs := rev (np_sort (map random (range 0 slots)))
                            ++ [0%Qc];
                    values := map gamma (range 0 advertisers) |}
    /\ run_auction auction = Ok (allocation, prices, history)
    /\ calculate_vcg_payments auction = Ok vcg_prices
    /\ len allocation = slots
    /\ len prices = advertisers
    /\ len vcg_prices = advertisers
    /\ len history = advertisers - 1.
Proof.
  intros Hs Ha Hsize Hrp Hgp.
  pose proof (simulation_valid_with_ties random gamma slots advertisers
                Hs Ha Hrp Hgp) as V.
  pose proof (simulation_n_advertisers random gamma slots advertisers
                ltac:(lia)) as Hn.
  set (auction := {| n_slots := slots;
                     ctrs := rev (np_sort (map random (range 0 slots)))
                             ++ [0%Qc];
                     values := map gamma (range 0 advertisers) |}) in *.
  assert (Hsize' : 2 <= n_slots auction
                   \/ n_advertisers auction <= n_slots auction)
    by (rewrite Hn; exact Hsize).
  destruct (run_auction_returns auction V Hsize')
    as (alloc & pr & hist & Hrun).
  destruct (calculate_vcg_payments_by_rank auction (valid_len _ V))
    as (vcg & Hvcg & Hlen & _).
  destruct (run_auction_shapes auction alloc pr hist (valid_n_slots _ V)
              (valid_has_advertiser _ V) Hrun) as (Hal & Hp & Hent).
  destruct (comparison_returns auction alloc pr vcg Hp Hlen)
    as (rows & Hrows).
  exists auction, alloc, pr, vcg, hist.
  split.
  { unfold run_simulation.
    destruct (Z.ltb_spec advertisers 0) as [Hneg|_]; [lia|]. cbn [bind].
    rewrite simulation_init by lia. cbn [bind]. fold auction.
    rewrite Hrun. cbn [bind].
    rewrite (display_results_value auction alloc pr (valid_len _ V)
               Hal Hp Hent).
    cbn [bind]. rewrite Hvcg. cbn [bind]. rewrite Hrows. reflexivity. }
  split; [reflexivity|]. split; [exact Hrun|]. split; [exact Hvcg|].
  split; [exact Hal|]. split; [now rewrite Hp|]. split; [now rewrite Hlen|].
  rewrite <- Hn.
  exact (run_auction_history_length auction (valid_n_slots _ V)
           (valid_has_advertiser _ V) alloc pr hist Hrun).
Qed.

(** [run_simulation] with one slot and two advertisers or more fails: the
    first round of the auction reads [ctrs[-3]] of a list of two. *)
Theorem run_simulation_single_slot_raises `{ArgSort}
  (random gamma : Z -> Qc) (advertisers : Z) :
  2 <= advertisers ->
  run_simulation random gamma 1 advertisers = Raise IndexError.
Proof.
  intros Ha. unfold run_simulation.
  destruct (Z.ltb_spec advertisers 0) as [Hneg|_]; [lia|]. cbn [bind].
  rewrite simulation_init by lia. cbn [bind].
  rewrite single_slot_excess_raises; [reflexivity|reflexivity| |].
  - now apply simulation_ctrs_len.
  - rewrite simulation_n_advertisers; lia.
Qed.

(** ** As many advertisers as slots in [simulate_auctions] *)

Lemma np_mul_shape_mismatch (a b : list Qc) :
  2 <= len a -> 2 <= len b -> len a <> len b ->
  np_mul a b = Raise ValueError.
Proof.
  intros Ha Hb Hne. unfold np_mul.
  destruct (Z.eqb_spec (len a) (len b)); [contradiction|].
  destruct a as [|x [|x' a]]; destruct b as [|y [|y' b]];
    unfold len in *; simpl in *; try lia; reflexivity.
Qed.

(** With as many advertisers as slots, three or more, the trial fails in
    the VCG loop: without advertiser 0 there is one value less than there
    are slot rates, and the product of the two arrays is NumPy's shape
    error. *)
Theorem simulate_trial_equal_counts_shape_error `{ArgSort}
  (n : Z) (cs vals : list Qc) :
  3 <= n -> len vals = n -> len cs = n ->
  simulate_trial n cs vals = Raise ValueError.
Proof.
  intros Hn Hv Hc. unfold simulate_trial.
  rewrite np_take_pick by apply rank_in_range. cbn [bind].
  rewrite gsp_payments_value. cbn [bind].
  set (rank := argsort (map Qcopp vals)).
  set (sv := pick vals rank).
  assert (Hsv : len sv = n) by (unfold sv, rank; now rewrite len_sv).
  assert (Hgsp : length (map (next_bid vals sv) (range 0 n)) = Z.to_nat n)
    by apply length_map_range.
  assert (Hcs : length (slice_to cs n) = Z.to_nat n).
  { rewrite slice_to_nonneg, length_firstn by lia. unfold len in Hc. lia. }
  assert (Hsl : length (slice_to sv n) = Z.to_nat n).
  { rewrite slice_to_nonneg, length_firstn by lia. unfold len in Hsv. lia. }
  rewrite np_mul_same_length by (unfold len; lia). cbn [bind].
  rewrite np_sub_same_length by (unfold len; lia). cbn [bind].
  rewrite np_mul_same_length
    by (unfold len; rewrite length_map, length_combine; lia).
  cbn [bind].
  assert (Hvcg : vcg_payments n cs vals = Raise ValueError).
  { unfold vcg_payments. rewrite np_take_pick by apply rank_in_range.
    fold rank sv. cbn [bind]. rewrite range_cons by lia. cbn [mapM].
    rewrite np_delete_nonneg by lia. cbn [bind].
    rewrite np_mul_same_length by (unfold len; lia). cbn [bind].
    assert (Hothers :
              length (slice_to (rev (np_sort (remove_nth sv (Z.to_nat 0)))) n)
              = (Z.to_nat n - 1)%nat).
    { rewrite slice_to_nonneg, length_firstn, length_rev,
        (Permutation_length (np_sort_perm _)), length_remove_nth
        by (unfold len in Hsv; lia).
      unfold len in Hsv. lia. }
    rewrite np_mul_shape_mismatch; [reflexivity| | |]; unfold len; lia. }
  now rewrite Hvcg.
Qed.


(** ** All trials of [simulate_auctions] *)

Lemma mapM_returns {A B : Type} (f : A -> result B) (P : B -> Prop)
  (l : list A) :
  (forall x, In x l -> exists y, f x = Ok y /\ P y) ->
  exists ys, mapM f l = Ok ys /\ length ys = length l /\ Forall P ys.
Proof.
  induction l as [|x l IH]; intros Hf.
  - exists []. repeat split. constructor.
  - destruct (Hf x (or_introl eq_refl)) as (y & Hy & Py).
    destruct IH as (ys & Hys & Hl & HP); [intros; apply Hf; now right|].
    exists (y :: ys). cbn [mapM]. rewrite Hy. cbn [bind]. rewrite Hys.
    cbn [bind]. repeat split; [simpl; lia|now constructor].
Qed.

Lemma np_maximum_nonneg (a : list Qc) :
  Forall (fun v => 0 <= v)%Qc (np_maximum a 0%Qc).
Proof.
  apply Forall_forall. intros v Hv. apply in_map_iff in Hv.
  destruct Hv as (x & <- & _).
  destruct (Qc_ltb x 0) eqn:E; [apply Qcle_refl|].
  now apply Qc_ltb_false_iff in E.
Qed.

Lemma len_np_maximum (a : list Qc) (c : Qc) : len (np_maximum a c) = len a.
Proof. unfold len, np_maximum. now rewrite length_map. Qed.

Lemma Qcpower_positive (p : Qc) (n : nat) : (0 < p -> 0 < p ^ n)%Qc.
Proof.
  intros Hp. induction n as [|n IH]; [reflexivity|].
  change (p ^ S n)%Qc with (p * p ^ n)%Qc.
  replace 0%Qc with (0 * p ^ n)%Qc by ring.
  now apply Qcmult_lt_compat_r.
Qed.

Lemma default_ctrs_positive (n : Z) :
  Forall (fun c => 0 < c)%Qc
         (map (fun i => Qcpower (Q2Qc (1 # 2)) (Z.to_nat i)) (range 0 n)).
Proof.
  apply Forall_forall. intros c Hc. apply in_map_iff in Hc.
  destruct Hc as (i & <- & _). apply Qcpower_positive. reflexivity.
Qed.

(** A [value_dist] that is neither ['uniform'] nor ['normal'] is rejected
    with [ValueError] in the first trial, whatever the seed; with no trial
    to run the check is never reached, and with no seed or a seed NumPy
    accepts the result is the empty list. *)
Theorem simulate_auctions_unsupported_distribution `{ArgSort}
  (uniform normal : Z -> result (list Qc)) (n_slots : Z)
  (ctrs : option (list Qc)) (value_dist : string) (n_trials : Z)
  (random_seed : option Z) :
  value_dist <> "uniform"%string -> value_dist <> "normal"%string ->
  (1 <= n_trials ->
   simulate_auctions uniform normal n_slots ctrs value_dist n_trials
                     random_seed
   = Raise ValueError)
  /\ (n_trials <= 0 ->
      (forall seed, random_seed = Some seed -> 0 <= seed < 2 ^ 32) ->
      simulate_auctions uniform normal n_slots ctrs value_dist n_trials
                        random_seed
      = Ok []).
Proof.
  intros Hu Hn. unfold simulate_auctions.
  apply String.eqb_neq in Hu, Hn. split.
  - intros Ht. destruct random_seed as [seed|]; cbn [bind];
      [unfold np_random_seed; destruct (_ && _); cbn [bind];
       [|reflexivity]|];
      rewrite (range_cons 0 n_trials) by lia; cbn [mapM]; now rewrite Hu, Hn.
  - intros Ht Hseed. rewrite (range_empty 0 n_trials) by lia.
    destruct random_seed as [seed|]; [|reflexivity].
    specialize (Hseed seed eq_refl). unfold np_random_seed.
    destruct (Z.leb_spec 0 seed); [|lia].
    destruct (Z.ltb_spec seed (2 ^ 32)); [reflexivity|lia].
Qed.

(** With no seed or a seed NumPy accepts, a supported distribution, samples
    of more values than slots, and rates that are the default [0.5 ** i] or
    a list of [n_slots] positive numbers, every trial succeeds:
    [simulate_auctions] returns one result per trial, and under ['normal']
    no value in a result is negative. *)
Theorem simulate_auctions_returns `{ArgSort}
  (uniform normal : Z -> result (list Qc)) (n_slots : Z)
  (ctrs : option (list Qc)) (value_dist : string) (n_trials : Z)
  (random_seed : option Z) :
  0 <= n_slots -> 0 <= n_trials ->
  (forall seed, random_seed = Some seed -> 0 <= seed < 2 ^ 32) ->
  (forall cs, ctrs = Some cs ->
              len cs = n_slots /\ Forall (fun c => 0 < c)%Qc cs) ->
  (value_dist = "uniform"%string
   /\ forall t, 0 <= t < n_trials ->
                exists vals, uniform t = Ok vals /\ n_slots < len vals)
  \/ (value_dist = "normal"%string
      /\ forall t, 0 <= t < n_trials ->
                   exists vals, normal t = Ok vals /\ n_slots < len vals) ->
  exists results,
    simulate_auctions uniform normal n_slots ctrs value_dist n_trials
                      random_seed
    = Ok results
    /\ len results = n_trials
    /\ (value_dist = "normal"%string ->
        Forall (fun r => Forall (fun v => 0 <= v)%Qc (fst r)) results).
Proof.
  intros Hs Ht Hseed Hctrs Hdist. unfold simulate_auctions.
  assert (Hseeded : match random_seed with
                    | Some seed => np_random_seed seed
                    | None => Ok tt
                    end = Ok tt).
  { destruct random_seed as [seed|]; [|reflexivity].
    specialize (Hseed seed eq_refl). unfold np_random_seed.
    destruct (Z.leb_spec 0 seed); [|lia].
    destruct (Z.ltb_spec seed (2 ^ 32)); [reflexivity|lia]. }
  rewrite Hseeded. cbn [bind].
  remember (match ctrs with
            | Some cs => cs
            | None => map (fun i => Qcpower (Q2Qc (1 # 2)) (Z.to_nat i))
                          (range 0 n_slots)
            end) as cs eqn:Ecs.
  assert (Hcs : len cs = n_slots /\ Forall (fun c => 0 < c)%Qc cs).
  { subst cs. destruct ctrs as [cs|]; [now apply Hctrs|]. split.
    - unfold len. rewrite length_map_range. lia.
    - apply default_ctrs_positive. }
  destruct Hcs as [Hlen Hpos].
  destruct (mapM_returns
              (fun t =>
                 vals <- (if (value_dist =? "uniform")%string then uniform t
                          else if (value_dist =? "normal")%string then
                            vals <- normal t ;; Ok (np_maximum vals 0%Qc)
                          else Raise ValueError) ;;
                 r <- simulate_trial n_slots cs vals ;;
                 Ok (vals, r))
              (fun r => value_dist = "normal"%string ->
                        Forall (fun v => 0 <= v)%Qc (fst r))
              (range 0 n_trials)) as (results & Hres & Hl & HP).
  { intros t Hin. apply in_range in Hin.
    destruct Hdist as [[-> Hsample]|[-> Hsample]];
      destruct (Hsample t Hin) as (vals & Hv & Hmore).
    - change ("uniform" =? "uniform")%string with true. cbv iota.
      rewrite Hv. cbn [bind].
      rewrite (simulate_trial_value n_slots cs vals Hlen Hpos Hmore).
      cbn [bind]. eexists. split; [reflexivity|]. discriminate.
    - change ("normal" =? "uniform")%string with false.
      change ("normal" =? "normal")%string with true. cbv iota.
      rewrite Hv. cbn [bind].
      rewrite (simulate_trial_value n_slots cs (np_maximum vals 0%Qc)
                 Hlen Hpos) by (rewrite len_np_maximum; exact Hmore).
      cbn [bind]. eexists. split; [reflexivity|].
      intros _. apply np_maximum_nonneg. }
  exists results. split; [exact Hres|]. split.
  - unfold len. rewrite Hl, length_range. lia.
  - intros Hd. apply Forall_forall. intros r Hr.
    rewrite Forall_forall in HP. now apply HP.
Qed.

(** ** The further properties at concrete instances *)

Ltac qc_forall := repeat (apply Forall_cons; [qc_order|]); apply Forall_nil.

Ltac qc_nodup :=
  repeat (apply NoDup_cons;
          [ simpl; intros H;
            repeat match goal with H : _ \/ _ |- _ => destruct H end;
            try contradiction;
            match goal with H : @eq Qc _ _ |- _ => revert H; qc_order end
          | ]);
  apply NoDup_nil.

Ltac strict_by_evaluation :=
  let k := fresh "k" in intros k ?; small_index k; qc_order.

Lemma run_auction_without_advertisers_one_slot :
  run_auction no_advertisers = Ok (replicate (-1) 1, [], []).
Proof.
  apply (run_auction_without_advertisers 1 [1; 0]%Qc no_advertisers).
  reflexivity.
Defined.

Lemma run_auction_single_advertiser_two_slots :
  run_auction lone_advertiser
  = Ok (0 :: replicate (-1) (n_slots lone_advertiser - 1), [0%Qc], []).
Proof.
  apply (run_auction_single_advertiser lone_advertiser (Q2Qc 3)).
  - reflexivity.
  - simpl. lia.
Defined.

Lemma run_auction_divides_by_zero_rate_zero_rates :
  run_auction zero_rates = Raise ZeroDivisionError.
Proof.
  apply (run_auction_divides_by_zero_rate zero_rates).
  - reflexivity.
  - vm_compute. split; discriminate.
  - reflexivity.
Defined.

Lemma history_length_of_valid_run_two_slots :
  exists alloc pr hist,
    run_auction two_slots = Ok (alloc, pr, hist)
    /\ len hist = n_advertisers two_slots - 1.
Proof.
  apply (history_length_of_valid_run two_slots).
  - valid_by_evaluation.
  - left. simpl. lia.
Defined.

Lemma dropout_price_is_value_at_first_excess_two_slots :
  equilibrium_dropout_price two_slots (n_slots two_slots + 1) [half] (Q2Qc 3)
  = Ok (Q2Qc 3).
Proof.
  apply (dropout_price_is_value_at_first_excess two_slots [half] (Q2Qc 3)).
  - reflexivity.
  - reflexivity.
  - simpl. lia.
  - qc_order.
Defined.

Lemma advertisers_without_slot_pay_nothing_two_slots :
  exists alloc pr hist,
    run_auction two_slots = Ok (alloc, pr, hist)
    /\ forall b, 0 <= b < n_advertisers two_slots -> ~ In b alloc ->
                 getitem pr b = Ok 0%Qc.
Proof.
  apply (advertisers_without_slot_pay_nothing two_slots).
  - valid_by_evaluation.
  - left. simpl. lia.
Defined.

Lemma display_results_after_run_auction_three_slots :
  exists alloc pr hist rows total,
    run_auction three_slots = Ok (alloc, pr, hist)
    /\ display_results three_slots alloc pr = Ok (rows, total)
    /\ len rows = n_slots three_slots
    /\ total = sum_range (payment_of three_slots alloc pr) 0
                         (n_slots three_slots).
Proof.
  apply (display_results_after_run_auction three_slots).
  - valid_by_evaluation.
  - left. simpl. lia.
Defined.

Lemma display_results_individually_rational_two_slots :
  exists alloc pr hist rows total,
    run_auction two_slots = Ok (alloc, pr, hist)
    /\ display_results two_slots alloc pr = Ok (rows, total)
    /\ Forall individually_rational rows
    /\ (0 <= total)%Qc.
Proof.
  apply (@display_results_individually_rational stable_sort two_slots).
  - valid_by_evaluation.
  - strict_by_evaluation.
  - qc_nodup.
  - qc_forall.
  - left. simpl. lia.
Defined.

Lemma run_simulation_single_slot_raises_three_advertisers :
  @run_simulation stable_sort two_draws three_gamma_values 1 3
  = Raise IndexError.
Proof.
  apply (@run_simulation_single_slot_raises stable_sort two_draws
           three_gamma_values 3).
  lia.
Defined.

Lemma simulate_trial_shape_error_two_values :
  @simulate_trial stable_sort 3 three_slot_rates two_values
  = Raise ValueError.
Proof.
  apply (@simulate_trial_shape_error stable_sort 3 two_values
           three_slot_rates).
  vm_compute. split; [discriminate|reflexivity].
Defined.

Lemma simulate_trial_equal_counts_shape_error_three_values :
  @simulate_trial stable_sort 3 three_slot_rates three_values
  = Raise ValueError.
Proof.
  apply (@simulate_trial_equal_counts_shape_error stable_sort 3
           three_slot_rates three_values).
  - lia.
  - reflexivity.
  - reflexivity.
Defined.

Lemma simulate_auctions_unsupported_distribution_gamma :
  (1 <= 2 ->
   @simulate_auctions stable_sort five_samples five_samples 3
     (Some three_slot_rates) "gamma" 2 (Some 42) = Raise ValueError)
  /\ (2 <= 0 ->
      (forall seed, Some 42 = Some seed -> 0 <= seed < 2 ^ 32) ->
      @simulate_auctions stable_sort five_samples five_samples 3
        (Some three_slot_rates) "gamma" 2 (Some 42) = Ok []).
Proof.
  apply (@simulate_auctions_unsupported_distribution stable_sort
           five_samples five_samples 3 (Some three_slot_rates) "gamma" 2
           (Some 42));
    discriminate.
Defined.

Lemma simulate_auctions_returns_two_trials :
  exists results,
    @simulate_auctions stable_sort five_samples five_samples 3
      (Some three_slot_rates) "normal" 2 (Some 42) = Ok results
    /\ len results = 2
    /\ ("normal"%string = "normal"%string ->
        Forall (fun r => Forall (fun v => 0 <= v)%Qc (fst r)) results).
Proof.
  apply (@simulate_auctions_returns stable_sort five_samples five_samples 3
           (Some three_slot_rates) "normal" 2 (Some 42)).
  - lia.
  - lia.
  - intros seed [= <-]. lia.
  - intros cs [= <-]. split; [reflexivity|qc_forall].
  - right. split; [reflexivity|]. intros t _. exists five_values.
    split; [reflexivity|vm_compute; reflexivity].
Defined.

Lemma vcg_prices_nonnegative_known_scenario :
  exists vcg,
    @calculate_vcg_payments stable_sort known_scenario = Ok vcg
    /\ len vcg = n_advertisers known_scenario
    /\ forall a, 0 <= a < n_advertisers known_scenario ->
         exists p, getitem vcg a = Ok p /\ (0 <= p)%Qc.
Proof.
  apply (@vcg_prices_nonnegative stable_sort known_scenario).
  - reflexivity.
  - qc_order.
  - intros k Hk. small_index k; qc_order.
  - repeat (apply Forall_cons; [qc_order|]). apply Forall_nil.
Defined.

Lemma run_simulation_returns_two_slots :
  exists auction allocation prices vcg_prices history,
    @run_simulation stable_sort two_draws three_gamma_values 2 3
    = Ok (auction, allocation, prices, vcg_prices, history)
    /\ auction = {| n_slots := 2;
                    ctrs := rev (np_sort (map two_draws (range 0 2)))
                            ++ [0%Qc];
                    values := map three_gamma_values (range 0 3) |}
    /\ run_auction auction = Ok (allocation, prices, history)
    /\ @calculate_vcg_payments stable_sort auction = Ok vcg_prices
    /\ len allocation = 2
    /\ len prices = 3
    /\ len vcg_prices = 3
    /\ len history = 3 - 1.
Proof.
  apply (@run_simulation_returns stable_sort two_draws three_gamma_values
           2 3).
  - lia.
  - lia.
  - left. lia.
  - strict_by_evaluation.
  - strict_by_evaluation.
Defined.

Lemma trial_gsp_payment_is_next_value_five_values :
  exists t,
    @simulate_trial stable_sort 3 three_slot_rates five_values = Ok t
    /\ forall i, 0 <= i < 3 ->
         exists pg v,
           getitem (slot_assign t) i
           = Ok (rank_at (@argsort stable_sort (map Qcopp five_values)) i)
           /\ getitem (trial_gsp_payments t) i = Ok pg
           /\ getitem five_values
                (rank_at (@argsort stable_sort (map Qcopp five_values))
                         (i + 1)) = Ok pg
           /\ getitem five_values
                (rank_at (@argsort stable_sort (map Qcopp five_values)) i)
              = Ok v
           /\ (pg <= v)%Qc.
Proof.
  apply (@trial_gsp_payment_is_next_value stable_sort 3 three_slot_rates
           five_values).
  - reflexivity.
  - qc_forall.
  - vm_compute. reflexivity.
Defined.

Lemma trial_gsp_utilities_nonnegative_five_values :
  exists t,
    @simulate_trial stable_sort 3 three_slot_rates five_values = Ok t
    /\ Forall (fun u => 0 <= u)%Qc (trial_gsp_utilities t).
Proof.
  apply (@trial_gsp_utilities_nonnegative stable_sort 3 three_slot_rates
           five_values).
  - reflexivity.
  - qc_forall.
  - vm_compute. reflexivity.
Defined.
